(** * Revision-aware event store and surprise scoring: a Rocq model

  This development embeds the core of the scraper repository:

  - [event_store.py]  : the [Event] record and the SQLite-backed
    [EventStore] ([add_event], [fetch_events]);
  - [scoring.py]      : [surprise], [z_score], [decay_weight],
    [point_from_z], [category_score];
  - [bridge_scraper_to_backend.py] : [ScoreConverter.convert_score],
    [AssetMapper], [load_scraper_events], [transform_event] and the dry
    run of [process_events];
  - [asset_mapping_system.py] : the lookups, the summary and the weight
    export of [AssetMappingSystem];
  - [providers.py], [normalizer.py], [main.py] : [ProviderRegistry],
    [normalize_units] and the example workflow [run];
  - [monitoring_system.py] : [check_data_freshness],
    [AlertManager.process_metrics] and [_get_overall_status].

  Modelling conventions.

  - Python [str] values are byte strings (the UTF-8 encoding); SQLite
    compares TEXT columns with the BINARY collation, i.e. byte-wise
    lexicographically, which is [String.compare].
  - Python [float] values are idealised as real numbers ([R]) in
    [scoring] and the modules after it: rounding, overflow, underflow,
    infinities and NaN are outside that model.  [decay_weight] reaches
    the underflow and overflow ranges of binary64 on timestamps that
    parse, so it is modelled a second time, in [scoring64], with every
    operation rounded to binary64 ([binary64]).
  - Exceptions are values of [py.exn]; a function that can raise returns
    a [py.result].
  - The wall clock ([datetime.now(timezone.utc)]) is an explicit argument.
  - The [events] table, whose primary key is
    (series_id, release_date, vintage), is a finite map from the key
    columns to the remaining columns. *)

From Stdlib Require Import ZArith Reals Lra Lia String Ascii List Bool.
From stdpp Require Import gmap strings list sorting.

(* ===================================================================== *)
(** * Part I: definitions                                                *)
(* ===================================================================== *)

(** ** Python exceptions and results *)

Module py.

Inductive exn : Type :=
| ValueError (msg : string)
| TypeError (msg : string)
| ZeroDivisionError (msg : string)
| OverflowError (msg : string).

Inductive result (A : Type) : Type :=
| Ok (a : A)
| Raise (e : exn).
Arguments Ok {A} a.
Arguments Raise {A} e.

Definition bind {A B : Type} (r : result A) (k : A → result B) : result B :=
  match r with
  | Ok a => k a
  | Raise e => Raise e
  end.

(** [d.get(k, dflt)] on a dictionary with string keys. *)
Definition dict_get {V : Type} (d : gmap string V) (k : string) (dflt : V) : V :=
  match d !! k with
  | Some v => v
  | None => dflt
  end.

End py.

#[global] Instance result_ret : MRet py.result := @py.Ok.
#[global] Instance result_bind : MBind py.result := fun A B k r => py.bind r k.

(** ** Text order

  The order of Python [str] values and of SQLite TEXT values under the
  BINARY collation: byte-wise lexicographic, a proper prefix first. *)

Module text.

Definition lt (a b : string) : Prop := String.compare a b = Lt.
Definition le (a b : string) : Prop := String.leb a b = true.

End text.

(** ** The part of Python's [datetime] that the repository uses *)

Module datetime.

Import py.
Local Open Scope string_scope.
Local Open Scope Z_scope.

(** A [datetime] object: calendar fields plus an optional UTC offset
    ([tzinfo]), in minutes east of UTC; [None] is a naive datetime. *)
Record t : Type := mk {
  year : Z; month : Z; day : Z;
  hour : Z; minute : Z; second : Z; microsecond : Z;
  tzinfo : option Z
}.

Definition aware (d : t) : Prop := is_Some (tzinfo d).

(** [timezone.utc] *)
Definition utc (y mo d h mi s us : Z) : t := mk y mo d h mi s us (Some 0).

(** *** Proleptic Gregorian ordinals, as in CPython's [_pydatetime] *)

Definition is_leap (y : Z) : bool :=
  (y mod 4 =? 0) && (negb (y mod 100 =? 0) || (y mod 400 =? 0)).

Definition days_before_year (y : Z) : Z :=
  let p := y - 1 in p * 365 + p / 4 - p / 100 + p / 400.

Definition days_in_month (y m : Z) : Z :=
  if (m =? 2) && is_leap y then 29
  else nth (Z.to_nat m) [0; 31; 28; 31; 30; 31; 30; 31; 31; 30; 31; 30; 31] 0.

Definition days_before_month (y m : Z) : Z :=
  nth (Z.to_nat m) [0; 0; 31; 59; 90; 120; 151; 181; 212; 243; 273; 304; 334] 0
  + (if (2 <? m) && is_leap y then 1 else 0).

Definition ymd2ord (y m d : Z) : Z :=
  days_before_year y + days_before_month y m + d.

(** Microseconds since 0001-01-01T00:00:00 of the local fields, and of
    the instant on the UTC time line an aware datetime denotes. *)
Definition local_us (d : t) : Z :=
  (((ymd2ord (year d) (month d) (day d) * 24 + hour d) * 60 + minute d) * 60
   + second d) * 1000000 + microsecond d.

Definition instant (d : t) : Z :=
  local_us d - match tzinfo d with Some off => off * 60000000 | None => 0 end.

(** Ordering comparisons ([a > b], [a <= b], ...).  Two aware datetimes
    are compared as instants, two naive ones by their fields; mixing the
    two raises [TypeError]. *)
Definition compare (a b : t) : result comparison :=
  match tzinfo a, tzinfo b with
  | Some _, Some _ | None, None => Ok (instant a ?= instant b)
  | _, _ => Raise (TypeError "can't compare offset-naive and offset-aware datetimes")
  end.

(** [a - b], a [timedelta], given in microseconds. *)
Definition sub (a b : t) : result Z :=
  match tzinfo a, tzinfo b with
  | Some _, Some _ | None, None => Ok (instant a - instant b)
  | _, _ => Raise (TypeError "can't subtract offset-naive and offset-aware datetimes")
  end.

(** [timedelta.days]: a timedelta is normalised so that its seconds and
    microseconds are non-negative, hence the floor division. *)
Definition timedelta_days (us : Z) : Z := us / 86400000000.

(** *** Parsing: [datetime.fromisoformat]

    The model covers the extended ISO-8601 spellings
    [YYYY-MM-DD] and [YYYY-MM-DD?HH:MM:SS[.ffffff][Z|+HH:MM|-HH:MM]],
    where [?] is any single ASCII separator, as CPython 3.11 and later
    read them (earlier versions reject the [Z] suffix).  [None] stands
    for [ValueError]; spellings outside this fragment are not modelled. *)

Definition digit_of (c : ascii) : option Z :=
  let n := Z.of_N (N_of_ascii c) in
  if (48 <=? n) && (n <=? 57) then Some (n - 48) else None.

Fixpoint take_digits (n : nat) (acc : Z) (s : string) : option (Z * string) :=
  match n with
  | O => Some (acc, s)
  | S n' =>
      match s with
      | String c s' =>
          match digit_of c with
          | Some d => take_digits n' (10 * acc + d) s'
          | None => None
          end
      | EmptyString => None
      end
  end.

Definition expect (c : ascii) (s : string) : option string :=
  match s with
  | String c' s' => if Ascii.eqb c c' then Some s' else None
  | EmptyString => None
  end.

Definition parse_date (s : string) : option (Z * Z * Z * string) :=
  '(y, s) ← take_digits 4 0 s;
  s ← expect "-" s;
  '(m, s) ← take_digits 2 0 s;
  s ← expect "-" s;
  '(d, s) ← take_digits 2 0 s;
  if (1 <=? y) && (1 <=? m) && (m <=? 12) && (1 <=? d) && (d <=? days_in_month y m)
  then Some (y, m, d, s) else None.

Definition parse_hms (s : string) : option (Z * Z * Z * string) :=
  '(h, s) ← take_digits 2 0 s;
  s ← expect ":" s;
  '(mi, s) ← take_digits 2 0 s;
  s ← expect ":" s;
  '(sec, s) ← take_digits 2 0 s;
  if (h <=? 23) && (mi <=? 59) && (sec <=? 59)
  then Some (h, mi, sec, s) else None.

Definition parse_fraction (s : string) : option (Z * string) :=
  match s with
  | String "." s' => take_digits 6 0 s'
  | _ => Some (0, s)
  end.

Definition parse_offset (sign : Z) (s : string) : option (option Z) :=
  '(hh, s) ← take_digits 2 0 s;
  s ← expect ":" s;
  '(mm, s) ← take_digits 2 0 s;
  match s with
  | EmptyString =>
      if (hh <=? 23) && (mm <=? 59) then Some (Some (sign * (hh * 60 + mm))) else None
  | _ => None
  end.

Definition parse_tz (s : string) : option (option Z) :=
  match s with
  | EmptyString => Some None
  | String "Z" EmptyString => Some (Some 0)
  | String "+" s' => parse_offset 1 s'
  | String "-" s' => parse_offset (-1) s'
  | _ => None
  end.

Definition is_ascii (c : ascii) : bool := (N_of_ascii c <? 128)%N.

Definition parse (s : string) : option t :=
  '(y, m, d, s) ← parse_date s;
  match s with
  | EmptyString => Some (mk y m d 0 0 0 0 None)
  | String sep s =>
      if is_ascii sep then
        '(h, mi, sec, s) ← parse_hms s;
        '(us, s) ← parse_fraction s;
        tz ← parse_tz s;
        Some (mk y m d h mi sec us tz)
      else None
  end.

(** The message of the [ValueError] carries [repr] of the argument,
    written here as the text between single quotes, which is what
    [repr] gives for a text without quotes, backslashes and control
    characters. *)
Definition fromisoformat (s : string) : result t :=
  match parse s with
  | Some d => Ok d
  | None => Raise (ValueError ("Invalid isoformat string: '" ++ s ++ "'"))
  end.

(** *** Printing: [datetime.isoformat()] *)

Definition digit_char (d : Z) : ascii := ascii_of_N (Z.to_N (48 + d)).

(** ["%0<w>d" % n] for a field that fits in [w] digits. *)
Fixpoint zero_padded (w : nat) (n : Z) : string :=
  match w with
  | O => ""
  | S w' => zero_padded w' (n / 10) ++ String (digit_char (n mod 10)) ""
  end.

Definition format_offset (off : Z) : string :=
  (if off <? 0 then "-" else "+")
  ++ zero_padded 2 (Z.abs off / 60) ++ ":" ++ zero_padded 2 (Z.abs off mod 60).

Definition isoformat (d : t) : string :=
  zero_padded 4 (year d) ++ "-" ++ zero_padded 2 (month d) ++ "-"
  ++ zero_padded 2 (day d) ++ "T"
  ++ zero_padded 2 (hour d) ++ ":" ++ zero_padded 2 (minute d) ++ ":"
  ++ zero_padded 2 (second d)
  ++ (if microsecond d =? 0 then "" else "." ++ zero_padded 6 (microsecond d))
  ++ match tzinfo d with
     | Some off => format_offset off
     | None => ""
     end.

End datetime.

(** ** [event_store.py] *)

Module event_store.

Import py.
Local Open Scope string_scope.

(** The [Event] dataclass. *)
Record Event : Type := mkEvent {
  series_id : string;
  release_date : string;       (* YYYY-MM-DD *)
  vintage : string;            (* flash/prelim/final *)
  actual : R;
  consensus : option R;
  previous : option R;
  impact : string;
  release_time_utc : string;   (* ISO timestamp *)
  provider : string
}.

(** The columns of the [events] table outside its primary key. *)
Record columns : Type := mkColumns {
  col_actual : R;
  col_consensus : option R;
  col_previous : option R;
  col_impact : string;
  col_release_time_utc : string;
  col_provider : string
}.

(** [PRIMARY KEY(series_id, release_date, vintage)]: the table holds at
    most one row per key, so it is a finite map from keys to the other
    columns. *)
Abbreviation key := (string * string * string)%type.
Abbreviation table := (gmap (string * string * string) columns).

Definition event_key (e : Event) : key :=
  (series_id e, release_date e, vintage e).

Definition event_columns (e : Event) : columns :=
  mkColumns (actual e) (consensus e) (previous e) (impact e)
            (release_time_utc e) (provider e).

(** The [Event] the generator builds from a fetched row. *)
Definition row_event (row : key * columns) : Event :=
  let '((s, d, v), c) := row in
  mkEvent s d v (col_actual c) (col_consensus c) (col_previous c)
          (col_impact c) (col_release_time_utc c) (col_provider c).

Definition rows (db : table) : list Event := row_event <$> map_to_list db.

(** [_init_db] on a fresh file: no rows. *)
Definition init_db : table := ∅.

(** The error [add_event] raises for a release in the future. *)
Definition FutureReleaseError : exn :=
  ValueError "release_time_utc is in the future".

(** [add_event]: returns the table after the call and the outcome. *)
Definition add_event (now : datetime.t) (db : table) (event : Event)
  : table * result unit :=
  match (rt ← datetime.fromisoformat (release_time_utc event);
         datetime.compare rt now) with
  | Raise e => (db, Raise e)
  | Ok Gt => (db, Raise FutureReleaseError)
  | Ok _ => (<[event_key event := event_columns event]> db, Ok ())
  end.

(** [WHERE series_id = ? AND release_time_utc <= ?], both on TEXT. *)
Definition where_clause (series bound : string) (e : Event) : bool :=
  String.eqb (series_id e) series && String.leb (release_time_utc e) bound.

(** [ORDER BY release_date ASC, vintage ASC], both on TEXT. *)
Definition order_leb (e1 e2 : Event) : bool :=
  match String.compare (release_date e1) (release_date e2) with
  | Lt => true
  | Eq => String.leb (vintage e1) (vintage e2)
  | Gt => false
  end.

Definition order_le (e1 e2 : Event) : Prop := order_leb e1 e2 = true.

#[global] Instance order_le_dec e1 e2 : Decision (order_le e1 e2).
Proof. unfold order_le. apply _. Defined.

(** [fetch_events]: the events the generator yields, in order. *)
Definition fetch_events (now : datetime.t) (db : table) (series : string)
           (as_of : option datetime.t) : list Event :=
  let as_of := match as_of with Some t => t | None => now end in
  let bound := datetime.isoformat as_of in
  merge_sort order_le
    (filter (λ e, where_clause series bound e = true) (rows db)).

End event_store.

(** ** The revision order of the specification

    The specification reads "vintage ascending" as the order in which
    revisions are published: flash, then preliminary, then final.  These
    two definitions follow the specification's words, for comparison
    with [event_store.order_le]. *)

Module revision_order.

Import event_store.
Local Open Scope string_scope.

Definition rank (vintage : string) : nat :=
  if String.eqb vintage "flash" then 0
  else if String.eqb vintage "prelim" then 1
  else if String.eqb vintage "preliminary" then 1
  else 2.

Definition le (e1 e2 : Event) : Prop :=
  text.lt (release_date e1) (release_date e2)
  ∨ (release_date e1 = release_date e2 ∧ (rank (vintage e1) <= rank (vintage e2))%nat).

End revision_order.

(** ** [scoring.py] *)

Module scoring.

Import py event_store.
Local Open Scope string_scope.
Local Open Scope R_scope.

Definition IMPACT_WEIGHT : gmap string R :=
  list_to_map [("high", 3); ("mid", 1.5); ("low", 0.75)].

Definition HALF_LIFE : gmap string Z :=
  list_to_map [("w", 14%Z); ("m", 45%Z); ("q", 90%Z); ("policy", 90%Z)].

(** [x / y] on floats raises when the divisor is zero. *)
Definition float_div (x y : R) : result R :=
  if Req_dec_T y 0 then Raise (ZeroDivisionError "float division by zero")
  else Ok (x / y).

Definition surprise (event : Event) (direction : string) : result R :=
  match consensus event with
  | None => Ok 0
  | Some c =>
      if String.eqb direction "relative"
      then q ← float_div (actual event) c; mret (q - 1)
      else Ok (actual event - c)
  end.

(** [sum], [statistics.mean], [statistics.pstdev] *)
Definition sum (l : list R) : R := fold_left Rplus l 0.

Definition mean (l : list R) : R := sum l / INR (length l).

Definition pstdev (l : list R) : R :=
  let mu := mean l in
  sqrt (sum ((λ x, (x - mu) * (x - mu)) <$> l) / INR (length l)).

Definition z_score (series_id : string) (surprises : list R) : R :=
  match surprises with
  | [] => 0
  | _ =>
      let mu := mean surprises in
      let sigma := if Req_dec_T (pstdev surprises) 0 then 1 else pstdev surprises in
      (List.last surprises 0 - mu) / sigma
  end.

Definition decay_weight (now : datetime.t) (release_time freq impact : string)
  : result R :=
  rt ← datetime.fromisoformat release_time;
  delta ← datetime.sub now rt;
  let days := datetime.timedelta_days delta in
  let hl := dict_get HALF_LIFE freq 30%Z in
  let decay := Rpower (1 / 2) (IZR days / IZR hl) in
  mret (decay * dict_get IMPACT_WEIGHT impact 1).

Definition point_from_z (z : R) : R :=
  if Rlt_dec (Rabs z) 0.25 then 0
  else Rmax (-2) (Rmin 2 (2 * tanh (z / 1.5))).

(** [c in s] for a one-character [c]. *)
Fixpoint char_in (c : ascii) (s : string) : bool :=
  match s with
  | EmptyString => false
  | String c' s' => Ascii.eqb c c' || char_in c s'
  end.

Section category.

(** [str] on a float.  Reals have no computable decimal rendering, so
    the function is a parameter of the model. *)
Variable str : R → string.

(** The clock: [clock i] is what the [i]-th call of
    [datetime.now(timezone.utc)] returns. *)
Variable clock : nat → datetime.t.

(** The surprise the loop body computes for one event. *)
Definition event_surprise (ev : Event) : result R :=
  if char_in "%" (str (actual ev))
  then surprise ev "relative" else surprise ev "absolute".

(** The [for] loop of [category_score]; [i] counts the iterations
    done, [surprises] and [weights] are the two accumulators. *)
Fixpoint category_loop (i : nat) (events : list (Event * string))
         (surprises weights : list R) : result (list R) :=
  match events with
  | [] => Ok weights
  | (ev, freq) :: rest =>
      s ← event_surprise ev;
      let z := z_score (series_id ev) (surprises ++ [s]) in
      w ← decay_weight (clock i) (release_time_utc ev) freq (impact ev);
      category_loop (S i) rest (surprises ++ [s]) (weights ++ [z * w])
  end.

Definition category_score (events : list (Event * string)) : result R :=
  weights ← category_loop 0 events [] [];
  match weights with
  | [] => Ok 0
  | _ => Ok (point_from_z (sum weights / INR (length weights)))
  end.

End category.

(** The characters [str] can produce for a float: a sign, digits, a
    point, an exponent marker, and the letters of [inf] and [nan]. *)
Definition float_str_chars : string := "0123456789.e+-infa".

Definition float_str (str : R → string) : Prop :=
  ∀ (x : R) (c : ascii), char_in c (str x) = true → char_in c float_str_chars = true.



(** Comparisons of a float with zero, as booleans. *)
Definition gt0 (x : R) : bool := if Rlt_dec 0 x then true else false.
Definition lt0 (x : R) : bool := if Rlt_dec x 0 then true else false.
Definition eq0 (x : R) : bool := if Req_dec_T x 0 then true else false.

Definition pair_point (base quote : R) : Z :=
  if gt0 base && lt0 quote then 2%Z
  else if lt0 base && gt0 quote then (-2)%Z
  else if gt0 base && eq0 quote then 1%Z
  else if lt0 base && eq0 quote then (-1)%Z
  else if eq0 base && lt0 quote then 1%Z
  else if eq0 base && gt0 quote then (-1)%Z
  else 0%Z.

End scoring.

(** ** Binary64 arithmetic

    The IEEE-754 double precision format of a Python [float]: 53
    significant bits, exponents from -1074 (the least subnormal number is
    2^-1074) to 1023, rounding to nearest with ties to even.  A finite
    float is the real number it denotes. *)

Module binary64.

Import py.
Local Open Scope string_scope.
Local Open Scope R_scope.

(** The magnitude of [x]: the [k] with 2^(k-1) <= |x| < 2^k. *)
Definition mag (x : R) : Z := (Int_part (ln (Rabs x) / ln 2) + 1)%Z.

(** The exponent of the last place of the floats around [x]; below
    2^-1022 the spacing no longer shrinks (subnormal numbers). *)
Definition ulp_exponent (x : R) : Z := Z.max (-1074) (mag x - 53).

(** The integer nearest to [t], the even one on a tie. *)
Definition nearest_even (t : R) : Z :=
  let n := Int_part t in
  if Rlt_dec (t - IZR n) (1 / 2) then n
  else if Rlt_dec (1 / 2) (t - IZR n) then (n + 1)%Z
  else if Z.even n then n else (n + 1)%Z.

(** The multiple of 2^e nearest to [x]. *)
Definition round_at (e : Z) (x : R) : R :=
  IZR (nearest_even (x * powerRZ 2 (- e))) * powerRZ 2 e.

(** The float nearest to [x], for [x] below the overflow threshold. *)
Definition round (x : R) : R := round_at (ulp_exponent x) x.

(** Reals of at least this magnitude round to an infinity: the greatest
    binary64 number plus half a unit in its last place. *)
Definition overflow_threshold : R := powerRZ 2 1024 - powerRZ 2 970.

(** A Python float. *)
Inductive float : Type :=
| Finite (x : R)
| Infinity (negative : bool)
| NaN.

(** The float an arithmetic operation returns when its exact result is
    [x]. *)
Definition of_real (x : R) : float :=
  if Rle_dec overflow_threshold (Rabs x)
  then Infinity (if Rlt_dec x 0 then true else false)
  else Finite (round x).

(** [a / b] on two ints: the correctly rounded quotient. *)
Definition int_truediv (a b : Z) : result R :=
  if (b =? 0)%Z then Raise (ZeroDivisionError "division by zero")
  else match of_real (IZR a / IZR b) with
       | Finite q => Ok q
       | _ => Raise (OverflowError "integer division result too large for a float")
       end.

(** [0.5 ** y] for a finite [y]: the C library's [pow], taken to round
    correctly.  An overflow raises [OverflowError]; an underflow returns
    the rounded result, down to 0.0, and raises nothing. *)
Definition pow_half (y : R) : result R :=
  match of_real (Rpower (1 / 2) y) with
  | Finite p => Ok p
  | _ => Raise (OverflowError "(34, 'Numerical result out of range')")
  end.

(** [x * y] on two finite floats; an overflow returns an infinity. *)
Definition mul (x y : R) : float := of_real (x * y).

End binary64.

(** ** [scoring.py]: [decay_weight] in binary64

    [scoring.decay_weight] with each of its three float operations
    rounded: the true division [days / hl], the power [0.5 ** _] and the
    product with the impact weight.  The entries of [IMPACT_WEIGHT] and
    the default 1.0 are binary64 numbers. *)

Module scoring64.

Import py event_store scoring binary64.
Local Open Scope string_scope.
Local Open Scope R_scope.

Definition decay_weight (now : datetime.t) (release_time freq impact : string)
  : result float :=
  rt ← datetime.fromisoformat release_time;
  delta ← datetime.sub now rt;
  let days := datetime.timedelta_days delta in
  let hl := dict_get HALF_LIFE freq 30%Z in
  q ← int_truediv days hl;
  decay ← pow_half q;
  mret (mul decay (dict_get IMPACT_WEIGHT impact 1)).

(** The value of the three rounded operations, from the elapsed days,
    the half-life and the impact weight. *)
Definition weight (days hl : Z) (m : R) : R :=
  round (round (Rpower (1 / 2) (round (IZR days / IZR hl))) * m).

End scoring64.

(** ** The aggregator in absolute mode

    [category_score] with the mode selection removed: every surprise is
    [actual - consensus], or 0 without a consensus.  This is the function
    to which [scoring.category_score] is compared. *)

Module absolute_mode.

Import py event_store scoring.
Local Open Scope R_scope.

Definition absolute_surprise (ev : Event) : R :=
  match consensus ev with
  | Some c => actual ev - c
  | None => 0
  end.

Fixpoint category_loop (clock : nat → datetime.t) (i : nat)
         (events : list (Event * string)) (surprises weights : list R)
  : result (list R) :=
  match events with
  | [] => Ok weights
  | (ev, freq) :: rest =>
      let s := absolute_surprise ev in
      let z := z_score (series_id ev) (surprises ++ [s]) in
      w ← decay_weight (clock i) (release_time_utc ev) freq (impact ev);
      category_loop clock (S i) rest (surprises ++ [s]) (weights ++ [z * w])
  end.

Definition category_score (clock : nat → datetime.t)
           (events : list (Event * string)) : result R :=
  weights ← category_loop clock 0 events [] [];
  match weights with
  | [] => Ok 0
  | _ => Ok (point_from_z (sum weights / INR (length weights)))
  end.

End absolute_mode.

(** ** [bridge_scraper_to_backend.py]: [ScoreConverter] *)

Module ScoreConverter.

Local Open Scope R_scope.

(** [int(x)] on a float: truncation toward zero. *)
Definition int (x : R) : Z :=
  if Rle_dec 0 x then Int_part x else (- Int_part (- x))%Z.

Definition convert_score (scraper_score : R) : Z :=
  let scraper_score := Rmax (-2) (Rmin 2 scraper_score) in
  let backend_score := int (scraper_score * 12) in
  Z.max (-24) (Z.min 24 backend_score).

End ScoreConverter.

(** ** The Scale Converter as the specification words it

    [round(clamp(x, -2, 2) * 12)], re-clamped to [-24, 24], with Python's
    [round] (to nearest, ties to even).  Defined for comparison with
    [ScoreConverter.convert_score]. *)

Module spec_converter.

Local Open Scope R_scope.

Definition round (x : R) : Z :=
  let f := Int_part x in
  let r := x - IZR f in
  if Rlt_dec r (1 / 2) then f
  else if Rlt_dec (1 / 2) r then (f + 1)%Z
  else if Z.even f then f else (f + 1)%Z.

Definition convert (x : R) : Z :=
  Z.max (-24) (Z.min 24 (round (Rmax (-2) (Rmin 2 x) * 12))).

End spec_converter.

(** ** Names for the quantities the claims speak of *)

Module terms.

Import py event_store scoring.
Local Open Scope string_scope.
Local Open Scope R_scope.

(** Strictly ascending by release date, then by vintage, both as text. *)
Definition order_lt (e1 e2 : Event) : Prop :=
  text.lt (release_date e1) (release_date e2)
  ∨ (release_date e1 = release_date e2 ∧ text.lt (vintage e1) (vintage e2)).

(** [HALF_LIFE.get(freq, 30)] and [IMPACT_WEIGHT.get(impact, 1.0)] *)
Definition half_life (freq : string) : Z := dict_get HALF_LIFE freq 30%Z.

Definition impact_multiplier (impact : string) : R := dict_get IMPACT_WEIGHT impact 1.

(** Whole days elapsed between a release and the clock:
    [(now - rt).days]. *)
Definition days_elapsed (now rt : datetime.t) : Z :=
  datetime.timedelta_days (datetime.instant now - datetime.instant rt).

(** [0.5 ** (days / hl)] *)
Definition decay (days : Z) (freq : string) : R :=
  Rpower (1 / 2) (IZR days / IZR (half_life freq)).

(** [max(-2.0, min(2.0, x))] *)
Definition clamp (x : R) : R := Rmax (-2) (Rmin 2 x).

(** [statistics.pstdev(surprises) or 1.0] *)
Definition sigma (l : list R) : R :=
  if Req_dec_T (pstdev l) 0 then 1 else pstdev l.

(** The datetimes Python can construct: every field within its range. *)
Definition valid_datetime (d : datetime.t) : Prop :=
  (1 <= datetime.year d <= 9999
   ∧ 1 <= datetime.month d <= 12
   ∧ 1 <= datetime.day d <= datetime.days_in_month (datetime.year d) (datetime.month d)
   ∧ 0 <= datetime.hour d <= 23
   ∧ 0 <= datetime.minute d <= 59
   ∧ 0 <= datetime.second d <= 59
   ∧ 0 <= datetime.microsecond d <= 999999)%Z.

(** The sign of a float: 1, 0 or -1. *)
Definition sign (x : R) : Z :=
  if Rlt_dec 0 x then 1%Z else if Rlt_dec x 0 then (-1)%Z else 0%Z.

End terms.

(** ** Concrete data used in examples *)

Module examples.

Import event_store.
Local Open Scope string_scope.
Local Open Scope R_scope.

(** The event of the repository's integration test
    ([integration_test_suite.py], scraper data generation). *)
Definition test_event : Event :=
  mkEvent "US_CPI" "2024-01-15" "final" 3.2 (Some 3.1) (Some 3.0) "high"
          "2024-01-15T13:30:00Z" "test".

(** The same release with the timestamp as [str(datetime)] prints it. *)
Definition spaced_event : Event :=
  mkEvent "US_CPI" "2024-01-15" "final" 3.2 (Some 3.1) (Some 3.0) "high"
          "2024-01-15 13:30:00+00:00" "test".

(** A flash print and its later final revision, same release date. *)
Definition flash_event : Event :=
  mkEvent "US_CPI" "2024-01-15" "flash" 3.1 (Some 3.1) (Some 3.0) "high"
          "2024-01-15T13:30:00+00:00" "test".

Definition final_event : Event :=
  mkEvent "US_CPI" "2024-01-15" "final" 3.2 (Some 3.1) (Some 3.0) "high"
          "2024-03-15T13:30:00+00:00" "test".

(** A release dated after [clock_2025]. *)
Definition future_event : Event :=
  mkEvent "US_CPI" "2025-01-15" "flash" 2.9 (Some 3.0) (Some 3.2) "high"
          "2025-01-15T13:30:00+00:00" "test".

Definition clock_2025 : datetime.t := datetime.utc 2025 1 1 0 0 0 0.

Definition release_instant : datetime.t := datetime.utc 2024 1 15 13 30 0 0.

Definition one_second_earlier : datetime.t := datetime.utc 2024 1 15 13 29 59 0.

(** Tables built by successive [add_event] calls on a fresh store. *)
Definition add_all (now : datetime.t) (evs : list Event) : table :=
  fold_left (λ db ev, (add_event now db ev).1) evs init_db.

Definition two_vintages : table := add_all clock_2025 [flash_event; final_event].

(** An event whose consensus is zero. *)
Definition zero_consensus_event : Event :=
  mkEvent "US_CPI" "2024-01-15" "final" 1 (Some 0) None "high"
          "2024-01-15T13:30:00Z" "test".

(** A rendering of floats and a clock to run the aggregator with. *)
Definition constant_str : R → string := λ _, "0.0".

Definition constant_clock : nat → datetime.t := λ _, clock_2025.

End examples.

(** ** Python dictionaries with string keys, in insertion order *)

Module pydict.

Local Open Scope string_scope.

(** A dictionary is the list of its items in insertion order; a
    well-formed one has no key twice. *)
Definition t (V : Type) : Type := list (string * V).

Definition wf {V : Type} (d : t V) : Prop := NoDup d.*1.

(** [d.get(k)] *)
Fixpoint get {V : Type} (d : t V) (k : string) : option V :=
  match d with
  | [] => None
  | (k', v) :: d' => if String.eqb k k' then Some v else get d' k
  end.

(** [d.get(k, dflt)] *)
Definition get_default {V : Type} (d : t V) (k : string) (dflt : V) : V :=
  match get d k with
  | Some v => v
  | None => dflt
  end.

(** [k in d] *)
Definition contains {V : Type} (d : t V) (k : string) : bool :=
  match get d k with
  | Some _ => true
  | None => false
  end.

(** [d[k] = v]: an existing key keeps its place, a new one goes last. *)
Fixpoint set {V : Type} (d : t V) (k : string) (v : V) : t V :=
  match d with
  | [] => [(k, v)]
  | (k', v') :: d' =>
      if String.eqb k k' then (k', v) :: d' else (k', v') :: set d' k v
  end.

Definition keys {V : Type} (d : t V) : list string := d.*1.
Definition values {V : Type} (d : t V) : list V := d.*2.

(** [del d[k]], the dictionary [d.pop(k)] leaves. *)
Fixpoint remove {V : Type} (d : t V) (k : string) : t V :=
  match d with
  | [] => []
  | (k', v) :: d' =>
      if String.eqb k k' then remove d' k else (k', v) :: remove d' k
  end.

End pydict.

(** ** Exceptions raised outside the store and the scoring engine *)

Module pyx.

Inductive exn : Type :=
| KeyError (key : string)
| RuntimeError (msg : string).

Inductive result (A : Type) : Type :=
| Ok (a : A)
| Raise (e : exn).
Arguments Ok {A} a.
Arguments Raise {A} e.

End pyx.

(** ** [asset_mapping_system.py]

    The configuration document is taken to be well-typed: every entry
    carries the fields the code reads with [entry['field']], and the
    fields read with [entry.get('field', default)] may be absent. *)

Module asset_mapping_system.

Local Open Scope string_scope.
Local Open Scope R_scope.

Record AssetInfo : Type := mkAssetInfo {
  ai_symbol : string;
  ai_name : string;
  ai_type : string;
  ai_major_pair : bool;
  ai_description : string
}.

Record PillarInfo : Type := mkPillarInfo {
  pi_name : string;
  pi_description : string;
  pi_weight : R;
  pi_indicators : list string
}.

Record MappingInfo : Type := mkMappingInfo {
  mi_series_id : string;
  mi_asset : string;
  mi_pillar : string;
  mi_key : string;
  mi_weight : R;
  mi_frequency : string;
  mi_description : string;
  mi_impact : string
}.

(** Entries of the configuration sections. *)
Record asset_data : Type := mkAssetData {
  ad_name : string;
  ad_type : string;
  ad_major_pair : option bool;
  ad_description : option string
}.

Record pillar_data : Type := mkPillarData {
  pd_name : string;
  pd_description : string;
  pd_weight : option R;
  pd_indicators : option (list string)
}.

Record mapping_data : Type := mkMappingData {
  md_asset : string;
  md_pillar : string;
  md_key : string;
  md_weight : option R;
  md_frequency : option string;
  md_description : option string;
  md_impact : option string
}.

Record scoring_rules : Type := mkScoringRules {
  impact_multipliers : pydict.t R;
  frequency_decay : pydict.t Z;
  pillar_weights : pydict.t R
}.

Record config : Type := mkConfig {
  version : option string;
  assets : pydict.t asset_data;
  pillars : pydict.t pillar_data;
  mappings : pydict.t mapping_data;
  rules : scoring_rules
}.

Definition or_default {A : Type} (o : option A) (dflt : A) : A :=
  match o with
  | Some a => a
  | None => dflt
  end.

Definition get_asset_info (cfg : config) (symbol : string) : option AssetInfo :=
  match pydict.get (assets cfg) symbol with
  | None => None
  | Some a =>
      Some (mkAssetInfo symbol (ad_name a) (ad_type a)
              (or_default (ad_major_pair a) false)
              (or_default (ad_description a) ""))
  end.

Definition get_pillar_info (cfg : config) (pillar_name : string) : option PillarInfo :=
  match pydict.get (pillars cfg) pillar_name with
  | None => None
  | Some p =>
      Some (mkPillarInfo (pd_name p) (pd_description p)
              (or_default (pd_weight p) 1)
              (or_default (pd_indicators p) []))
  end.

Definition get_mapping (cfg : config) (series_id : string) : option MappingInfo :=
  match pydict.get (mappings cfg) series_id with
  | None => None
  | Some m =>
      Some (mkMappingInfo series_id (md_asset m) (md_pillar m) (md_key m)
              (or_default (md_weight m) 1)
              (or_default (md_frequency m) "monthly")
              (or_default (md_description m) "")
              (or_default (md_impact m) "medium"))
  end.

Definition get_supported_assets (cfg : config) : list string :=
  pydict.keys (assets cfg).

Definition get_supported_pillars (cfg : config) : list string :=
  pydict.keys (pillars cfg).

(** The two loops over [mappings.items()] that collect series ids. *)
Fixpoint series_where (test : mapping_data → bool)
         (items : list (string * mapping_data)) (series_ids : list string)
  : list string :=
  match items with
  | [] => series_ids
  | (series_id, m) :: rest =>
      series_where test rest
        (if test m then series_ids ++ [series_id] else series_ids)
  end.

Definition get_series_for_asset (cfg : config) (asset_symbol : string) : list string :=
  series_where (λ m, String.eqb (md_asset m) asset_symbol) (mappings cfg) [].

Definition get_series_for_pillar (cfg : config) (pillar_name : string) : list string :=
  series_where (λ m, String.eqb (md_pillar m) pillar_name) (mappings cfg) [].

Definition get_impact_multiplier (cfg : config) (impact : string) : R :=
  pydict.get_default (impact_multipliers (rules cfg)) impact 1.

Definition get_frequency_decay (cfg : config) (frequency : string) : Z :=
  pydict.get_default (frequency_decay (rules cfg)) frequency 30%Z.

Definition get_pillar_weight (cfg : config) (pillar_name : string) : R :=
  pydict.get_default (pillar_weights (rules cfg)) pillar_name 1.

Definition validate_series_id (cfg : config) (series_id : string) : bool :=
  pydict.contains (mappings cfg) series_id.

Definition validate_asset (cfg : config) (asset_symbol : string) : bool :=
  pydict.contains (assets cfg) asset_symbol.

(** [get_mapping_summary] *)
Record summary : Type := mkSummary {
  total_series : Z;
  total_assets : Z;
  total_pillars : Z;
  assets_by_type : pydict.t Z;
  series_by_pillar : pydict.t Z;
  series_by_asset : pydict.t Z
}.

(** [d[k] = d.get(k, 0) + 1] *)
Definition bump (d : pydict.t Z) (k : string) : pydict.t Z :=
  pydict.set d k (pydict.get_default d k 0 + 1)%Z.

Definition count_assets (d : pydict.t Z) (a : asset_data) : pydict.t Z :=
  bump d (ad_type a).

Definition count_series (d : pydict.t Z * pydict.t Z) (item : string * mapping_data)
  : pydict.t Z * pydict.t Z :=
  (bump d.1 (md_pillar item.2), bump d.2 (md_asset item.2)).

Definition get_mapping_summary (cfg : config) : summary :=
  let by_type := fold_left count_assets (pydict.values (assets cfg)) [] in
  let counts := fold_left count_series (mappings cfg) ([], []) in
  mkSummary (Z.of_nat (length (mappings cfg)))
            (Z.of_nat (length (assets cfg)))
            (Z.of_nat (length (pillars cfg)))
            by_type counts.1 counts.2.

(** [export_backend_weights]: the exported document, with the
    [components] dictionary of each pillar. *)
Record weights : Type := mkWeights {
  w_version : string;
  w_pillars : pydict.t (pydict.t R)
}.

Fixpoint export_loop (items : list (string * mapping_data))
         (ps : pydict.t (pydict.t R)) : pyx.result (pydict.t (pydict.t R)) :=
  match items with
  | [] => pyx.Ok ps
  | (_, m) :: rest =>
      match md_weight m with
      | None => pyx.Raise (pyx.KeyError "weight")
      | Some weight =>
          match pydict.get ps (md_pillar m) with
          | Some components =>
              export_loop rest
                (pydict.set ps (md_pillar m) (pydict.set components (md_key m) weight))
          | None => export_loop rest ps
          end
      end
  end.

Definition export_backend_weights (cfg : config) : pyx.result weights :=
  let ps := fold_left (λ ps name, pydict.set ps name [])
                      (pydict.keys (pillars cfg)) [] in
  match export_loop (mappings cfg) ps with
  | pyx.Ok ps => pyx.Ok (mkWeights (or_default (version cfg) "1.0.0") ps)
  | pyx.Raise e => pyx.Raise e
  end.

End asset_mapping_system.

(** ** [bridge_scraper_to_backend.py]: [AssetMapper] and [BridgeProcessor]

    A [ScraperEvent] has the fields of [event_store.Event] and is built
    from the same table rows, so the two are identified. *)

Module bridge.

Import py event_store asset_mapping_system.
Local Open Scope string_scope.
Local Open Scope R_scope.

(** [AssetMapper] forwards to the mapping system. *)
Definition get_mapping (cfg : config) (series_id : string)
  : option (string * string * string) :=
  match asset_mapping_system.get_mapping cfg series_id with
  | Some mapping_info =>
      Some (mi_asset mapping_info, mi_pillar mapping_info, mi_key mapping_info)
  | None => None
  end.

Definition get_mapping_info (cfg : config) (series_id : string) : option MappingInfo :=
  asset_mapping_system.get_mapping cfg series_id.

(** [ORDER BY release_date DESC, vintage DESC] *)
Definition order_ge (e1 e2 : Event) : Prop := order_le e2 e1.

#[global] Instance order_ge_dec e1 e2 : Decision (order_ge e1 e2).
Proof. unfold order_ge. apply _. Defined.

(** [load_scraper_events(series_id)] for a non-empty [series_id], on a
    database that can be read. *)
Definition load_scraper_events (db : table) (series_id : string) : list Event :=
  merge_sort order_ge
    (filter (λ e, String.eqb (event_store.series_id e) series_id = true) (rows db)).

(** [s.replace('Z', '+00:00')] *)
Fixpoint replace_Z (s : string) : string :=
  match s with
  | EmptyString => EmptyString
  | String c s' =>
      if Ascii.eqb c "Z" then "+00:00" ++ replace_Z s' else String c (replace_Z s')
  end.

(** The dictionary [transform_event] returns, and its metadata bag. *)
Record metadata : Type := mkMetadata {
  m_series_id : string;
  m_actual : R;
  m_consensus : option R;
  m_previous : option R;
  m_impact : string;
  m_provider : string;
  m_vintage : string;
  m_mapping_weight : R;
  m_impact_multiplier : R;
  m_frequency : string;
  m_description : string
}.

Record transformed : Type := mkTransformed {
  t_asset_symbol : string;
  t_pillar : string;
  t_key : string;
  t_value : Z;
  t_timestamp : datetime.t;
  t_metadata : metadata
}.

(** The score [transform_event] computes for a mapped event. *)
Definition score_backend (mapping_info : MappingInfo) (impact_multiplier : R)
           (scraper_event : Event) : Z :=
  let surprise :=
    match consensus scraper_event with
    | Some c => actual scraper_event - c
    | None => 0
    end in
  let base_weight := mi_weight mapping_info in
  let normalized_surprise :=
    if Rlt_dec 0 (Rabs (actual scraper_event))
    then surprise / Rmax (Rabs (actual scraper_event)) 1
    else 0 in
  let score_raw := normalized_surprise * impact_multiplier * base_weight in
  let score_raw := Rmax (-2) (Rmin 2 score_raw) in
  ScoreConverter.convert_score score_raw.

Definition transform_event (cfg : config) (scraper_event : Event)
  : result (option transformed) :=
  match get_mapping_info cfg (series_id scraper_event) with
  | None => Ok None
  | Some mapping_info =>
      let impact_multiplier := get_impact_multiplier cfg (mi_impact mapping_info) in
      let value := score_backend mapping_info impact_multiplier scraper_event in
      timestamp ← datetime.fromisoformat (replace_Z (release_time_utc scraper_event));
      mret (Some
        (mkTransformed (mi_asset mapping_info) (mi_pillar mapping_info)
           (mi_key mapping_info) value timestamp
           (mkMetadata (series_id scraper_event) (actual scraper_event)
              (consensus scraper_event) (previous scraper_event)
              (impact scraper_event) (provider scraper_event)
              (vintage scraper_event) (mi_weight mapping_info)
              impact_multiplier (mi_frequency mapping_info)
              (mi_description mapping_info))))
  end.

(** [process_events(events, dry_run=True)]: the counters. *)
Record stats : Type := mkStats {
  processed : Z;
  skipped : Z;
  errors : Z
}.

Definition process_event_dry_run (cfg : config) (st : stats) (event : Event) : stats :=
  match transform_event cfg event with
  | Ok None => mkStats (processed st) (skipped st + 1) (errors st)
  | Ok (Some _) => mkStats (processed st + 1) (skipped st) (errors st)
  | Raise _ => mkStats (processed st) (skipped st) (errors st + 1)
  end.

Definition process_events_dry_run (cfg : config) (events : list Event) : stats :=
  fold_left (process_event_dry_run cfg) events (mkStats 0 0 0).

End bridge.

(** ** [providers.py]: the provider registry

    A provider's [fetch] talks to a remote service; the model takes what
    it does for a series as given: [Some payload], or [None] when it
    raises an exception. *)

Module providers.

Local Open Scope string_scope.

Record EventPayload : Type := mkEventPayload {
  series_id : string;
  actual : R;
  consensus : option R;
  previous : option R;
  impact : string;
  release_time_local : string;
  release_time_utc : string;
  provider : string;
  unit : string
}.

Definition Provider : Type := string → option EventPayload.

(** [ProviderRegistry._providers] *)
Abbreviation registry := (gmap string (list Provider)).

Definition empty_registry : registry := ∅.

Definition register (reg : registry) (series_id : string) (providers : list Provider)
  : registry :=
  <[series_id := providers]> reg.

(** The [for] loop of [ProviderRegistry.fetch]. *)
Fixpoint first_fetched (providers : list Provider) (series_id : string)
  : option EventPayload :=
  match providers with
  | [] => None
  | p :: rest =>
      match p series_id with
      | Some payload => Some payload
      | None => first_fetched rest series_id
      end
  end.

Definition fetch (reg : registry) (series_id : string) : pyx.result EventPayload :=
  let providers := match reg !! series_id with Some ps => ps | None => [] end in
  match first_fetched providers series_id with
  | Some payload => pyx.Ok payload
  | None => pyx.Raise (pyx.RuntimeError ("no provider could fetch series " ++ series_id))
  end.

End providers.

(** ** [normalizer.py]: [normalize_units]

    The payload is the dictionary [asdict] makes of an [EventPayload]:
    every field is present. *)

Module normalizer.

Import providers.
Local Open Scope string_scope.
Local Open Scope R_scope.

(** [str.lower()] on ASCII letters.  Other characters are left alone; no
    character outside ASCII lowers to a letter of the unit names tested
    below. *)
Definition lower_char (c : ascii) : ascii :=
  let n := N_of_ascii c in
  if ((65 <=? n) && (n <=? 90))%N then ascii_of_N (n + 32) else c.

Fixpoint lower (s : string) : string :=
  match s with
  | EmptyString => EmptyString
  | String c s' => String (lower_char c) (lower s')
  end.

Definition is_percent (unit : string) : bool :=
  let u := lower unit in
  String.eqb u "%" || String.eqb u "percent" || String.eqb u "percentage".

Definition scale (x : option R) : option R :=
  match x with
  | Some v => Some (v / 100)
  | None => None
  end.

Definition normalize_units (payload : EventPayload) : EventPayload :=
  if is_percent (unit payload) then
    mkEventPayload (series_id payload) (actual payload / 100)
      (scale (consensus payload)) (scale (previous payload))
      (impact payload) (release_time_local payload) (release_time_utc payload)
      (provider payload) "ratio"
  else payload.

End normalizer.

(** ** [main.py]: the example workflow *)

Module main.

Import event_store.
Local Open Scope string_scope.

Definition SERIES_ID : string := "US_CPI".

(** [s[:n]] *)
Fixpoint prefix (n : nat) (s : string) : string :=
  match n, s with
  | S n', String c s' => String c (prefix n' s')
  | _, _ => EmptyString
  end.

(** The [Event] that [run] builds from the normalised payload. *)
Definition event_of_payload (payload : providers.EventPayload) : Event :=
  mkEvent SERIES_ID
          (prefix 10 (providers.release_time_utc payload))
          "final"
          (providers.actual payload)
          (providers.consensus payload)
          (providers.previous payload)
          (providers.impact payload)
          (providers.release_time_utc payload)
          (providers.provider payload).

(** How a call of [run] ends: with an exception out of one of its steps,
    or with a score printed. *)
Inductive outcome : Type :=
| FetchRaised (e : pyx.exn)
| AddRaised (e : py.exn)
| ScoreRaised (e : py.exn)
| Printed (score : R).

(** [run], on a registry and a store: the table afterwards and the
    outcome.  [clock 0] is read by [add_event], [clock 1] by
    [fetch_events], and the following readings by [category_score]. *)
Definition run (str : R → string) (clock : nat → datetime.t)
           (reg : providers.registry) (db : table) : table * outcome :=
  match providers.fetch reg SERIES_ID with
  | pyx.Raise e => (db, FetchRaised e)
  | pyx.Ok fetched =>
      let payload := normalizer.normalize_units fetched in
      let event := event_of_payload payload in
      match add_event (clock 0%nat) db event with
      | (db', py.Raise e) => (db', AddRaised e)
      | (db', py.Ok _) =>
          let events := fetch_events (clock 1%nat) db' SERIES_ID None in
          match scoring.category_score str (λ i, clock (2 + i)%nat)
                  ((λ ev, (ev, "q")) <$> events) with
          | py.Raise e => (db', ScoreRaised e)
          | py.Ok score => (db', Printed score)
          end
      end
  end.

End main.

(** ** A small configuration used in examples *)

Module config_examples.

Import asset_mapping_system.
Local Open Scope string_scope.

Definition example_config : config :=
  mkConfig (Some "1.0.0")
    [("USD", mkAssetData "US Dollar" "currency" (Some true) None);
     ("XAU", mkAssetData "Gold" "commodity" None None)]
    [("inflation", mkPillarData "Inflation" "Price indices" (Some 1.5%R) None);
     ("growth", mkPillarData "Growth" "Output and activity" None None)]
    [("US_CPI", mkMappingData "USD" "inflation" "cpi" (Some 2%R) (Some "monthly")
                              None (Some "high"));
     ("US_GDP", mkMappingData "USD" "growth" "gdp" None None None None);
     ("US_PCE", mkMappingData "USD" "inflation" "pce" (Some 1%R) None None None)]
    (mkScoringRules [("high", 3%R); ("medium", 1.5%R)] [("monthly", 45%Z)]
                    [("inflation", 1.5%R)]).

End config_examples.

(** ** [monitoring_system.py]

    The health checks read the machine ([psutil]), the network and the
    clock; the model covers the check that reads the [events] table,
    the alert bookkeeping and the overall status.  Alerts are objects
    that [active_alerts], [alert_history] and the list a call returns
    share, and resolving one mutates it: the model keeps them in a heap
    and the three containers hold addresses. *)

Module monitoring_system.

Import py event_store.
Local Open Scope string_scope.
Local Open Scope R_scope.

Module HealthMetric.
Record t : Type := mk {
  name : string;
  value : R;
  unit : string;
  timestamp : datetime.t;
  status : string;           (* OK, WARNING, CRITICAL *)
  threshold_warning : option R;
  threshold_critical : option R
}.
End HealthMetric.

Module SystemAlert.
Record t : Type := mk {
  id : string;
  severity : string;
  component : string;
  message : string;
  timestamp : datetime.t;
  resolved : bool;
  resolution_time : option datetime.t
}.
End SystemAlert.

(** *** [HealthChecker.check_data_freshness] *)

(** [SELECT MAX(release_time_utc) FROM events WHERE release_time_utc IS
    NOT NULL]: the greatest stored timestamp text under the BINARY
    collation, NULL ([None]) for a table without rows. *)
Definition text_max (a b : string) : string := if String.leb a b then b else a.

Definition max_release_time (db : table) : option string :=
  match release_time_utc <$> rows db with
  | [] => None
  | t :: ts => Some (foldr text_max t ts)
  end.

(** [(a - b).total_seconds() / 3600] for a difference in microseconds. *)
Definition hours (us : Z) : R := IZR us / 1000000 / 3600.

Definition freshness_status (hours_old : R) : string :=
  if Rlt_dec 48 hours_old then "CRITICAL"
  else if Rlt_dec 24 hours_old then "WARNING"
  else "OK".

Section check_data_freshness.

(** [datetime.now(tz)] at the subtraction and [datetime.now()] when the
    metric is built. *)
Variable now : option Z → datetime.t.
Variable stamp : datetime.t.

(** The metric of the branch without data and of the [except] branch. *)
Definition no_data : HealthMetric.t :=
  HealthMetric.mk "data_freshness" (-1) "hours" stamp "CRITICAL" None None.

Definition hours_old (text : string) : result R :=
  latest_data ← datetime.fromisoformat (bridge.replace_Z text);
  delta ← datetime.sub (now (datetime.tzinfo latest_data)) latest_data;
  Ok (hours delta).

Definition check_data_freshness (db : table) : HealthMetric.t :=
  match max_release_time db with
  | Some (String _ _ as text) =>
      match hours_old text with
      | Ok h =>
          HealthMetric.mk "data_freshness" h "hours" stamp (freshness_status h)
                          (Some 24) (Some 48)
      | Raise _ => no_data
      end
  | _ => no_data
  end.

End check_data_freshness.

(** *** [MonitoringSystem._get_overall_status] *)

(** [x in l] for a list of strings. *)
Definition str_in (x : string) (l : list string) : bool := existsb (String.eqb x) l.

(** [metric.name not in latest_metrics or metric.timestamp >
    latest_metrics[metric.name].timestamp]; the comparison of a naive
    with an aware datetime raises. *)
Definition supersedes (latest_metrics : pydict.t HealthMetric.t)
           (metric : HealthMetric.t) : result bool :=
  match pydict.get latest_metrics (HealthMetric.name metric) with
  | None => Ok true
  | Some cur =>
      c ← datetime.compare (HealthMetric.timestamp metric) (HealthMetric.timestamp cur);
      Ok (match c with Gt => true | _ => false end)
  end.

Fixpoint latest_loop (metrics : list HealthMetric.t)
         (latest_metrics : pydict.t HealthMetric.t)
  : result (pydict.t HealthMetric.t) :=
  match metrics with
  | [] => Ok latest_metrics
  | metric :: rest =>
      b ← supersedes latest_metrics metric;
      latest_loop rest
        (if b : bool then pydict.set latest_metrics (HealthMetric.name metric) metric
         else latest_metrics)
  end.

Definition get_overall_status (metrics : list HealthMetric.t) : result string :=
  match metrics with
  | [] => Ok "UNKNOWN"
  | _ =>
      latest_metrics ← latest_loop metrics [];
      let statuses := HealthMetric.status <$> pydict.values latest_metrics in
      Ok (if str_in "CRITICAL" statuses then "CRITICAL"
          else if str_in "WARNING" statuses then "WARNING"
          else "OK")
  end.

(** The metric at position [i] is the latest of its name: later than
    every earlier metric of that name and not earlier than any later one
    (of several metrics of one name and one timestamp, the first). *)
Definition latest_of_name (metrics : list HealthMetric.t) (i : nat)
           (m : HealthMetric.t) : Prop :=
  metrics !! i = Some m
  ∧ ∀ (j : nat) (m' : HealthMetric.t),
      metrics !! j = Some m' → HealthMetric.name m' = HealthMetric.name m →
      ((j < i)%nat →
       (datetime.instant (HealthMetric.timestamp m')
        < datetime.instant (HealthMetric.timestamp m))%Z)
      ∧ ((i < j)%nat →
         (datetime.instant (HealthMetric.timestamp m')
          <= datetime.instant (HealthMetric.timestamp m))%Z).

(** Two datetimes that [<] and [>] accept: both naive or both aware. *)
Definition comparable (a b : datetime.t) : Prop :=
  is_Some (datetime.tzinfo a) ↔ is_Some (datetime.tzinfo b).

(** The dictionary the loop has built after the metrics [p]: it has an
    entry for every name met, and each entry is the latest of its name. *)
Definition tracks (p : list HealthMetric.t) (d : pydict.t HealthMetric.t) : Prop :=
  pydict.wf d
  ∧ (∀ m, m ∈ p → is_Some (pydict.get d (HealthMetric.name m)))
  ∧ (∀ n m, pydict.get d n = Some m →
            HealthMetric.name m = n ∧ ∃ i, latest_of_name p i m).

End monitoring_system.

(** *** [AlertManager.process_metrics] *)

Module alert_manager.

Import py monitoring_system.
Local Open Scope string_scope.

(** [s.replace(old, new)] for a non-empty [old]: the occurrences of
    [old], found from the left and not overlapping, become [new].
    [skip] counts the characters of a found occurrence still to drop. *)
Fixpoint replace_from (skip : nat) (old new s : string) : string :=
  match s with
  | EmptyString => EmptyString
  | String c s' =>
      match skip with
      | S k => replace_from k old new s'
      | O =>
          if String.prefix old s
          then new ++ replace_from (String.length old - 1) old new s'
          else String c (replace_from 0 old new s')
      end
  end.

Definition replace (old new s : string) : string := replace_from 0 old new s.

(** The [AlertManager]: the alert objects by address, the addresses of
    the active alerts by alert id, and those of the resolved ones in the
    order of their resolution. *)
Record AlertManager : Type := mkAlertManager {
  heap : list SystemAlert.t;
  active_alerts : pydict.t nat;
  alert_history : list nat
}.

(** [AlertManager(config)] *)
Definition new_manager : AlertManager := mkAlertManager [] [] [].

Section process_metrics.

(** The text an f-string writes for a float. *)
Variable str : R → string.

Definition alert_id (metric : HealthMetric.t) : string :=
  HealthMetric.name metric ++ "_" ++ HealthMetric.status metric.

Definition new_alert (metric : HealthMetric.t) : SystemAlert.t :=
  SystemAlert.mk (alert_id metric) (HealthMetric.status metric)
    (HealthMetric.name metric)
    (HealthMetric.name metric ++ " is " ++ HealthMetric.status metric ++ ": "
     ++ str (HealthMetric.value metric) ++ " " ++ HealthMetric.unit metric)
    (HealthMetric.timestamp metric) false None.

(** [resolved_alert.resolved = True;
     resolved_alert.resolution_time = metric.timestamp] *)
Definition mark_resolved (time : datetime.t) (alert : SystemAlert.t) : SystemAlert.t :=
  SystemAlert.mk (SystemAlert.id alert) (SystemAlert.severity alert)
    (SystemAlert.component alert) (SystemAlert.message alert)
    (SystemAlert.timestamp alert) true (Some time).

(** [if key in self.active_alerts: ...pop(key) ... history.append(...)] *)
Definition resolve (key : string) (metric : HealthMetric.t) (am : AlertManager)
  : AlertManager :=
  match pydict.get (active_alerts am) key with
  | Some a =>
      mkAlertManager
        (alter (mark_resolved (HealthMetric.timestamp metric)) a (heap am))
        (pydict.remove (active_alerts am) key)
        (alert_history am ++ [a])%list
  | None => am
  end.

(** One turn of the loop; [new_alerts] holds addresses as well. *)
Definition process_metric (acc : AlertManager * list nat) (metric : HealthMetric.t)
  : AlertManager * list nat :=
  let '(am, new_alerts) := acc in
  if str_in (HealthMetric.status metric) ["WARNING"; "CRITICAL"] then
    if pydict.contains (active_alerts am) (alert_id metric) then (am, new_alerts)
    else
      let a := length (heap am) in
      (mkAlertManager (heap am ++ [new_alert metric])%list
                      (pydict.set (active_alerts am) (alert_id metric) a)
                      (alert_history am),
       (new_alerts ++ [a])%list)
  else
    let am := resolve (replace "_OK" "_WARNING" (alert_id metric)) metric am in
    let am := resolve (replace "_OK" "_CRITICAL" (alert_id metric)) metric am in
    (am, new_alerts).

Definition process_metrics (am : AlertManager) (metrics : list HealthMetric.t)
  : AlertManager * list nat :=
  fold_left process_metric metrics (am, []).

End process_metrics.

(** Every active alert is an unresolved object filed under its own id,
    and every alert of the history is a resolved one. *)
Definition coherent (am : AlertManager) : Prop :=
  pydict.wf (active_alerts am)
  ∧ (∀ k a, pydict.get (active_alerts am) k = Some a →
            ∃ alert, heap am !! a = Some alert
                     ∧ SystemAlert.id alert = k
                     ∧ SystemAlert.resolved alert = false)
  ∧ ∀ a, a ∈ alert_history am →
         ∃ alert, heap am !! a = Some alert ∧ SystemAlert.resolved alert = true.

(** [old in s] *)
Fixpoint occurs (old s : string) : bool :=
  String.prefix old s
  || match s with
     | EmptyString => false
     | String _ s' => occurs old s'
     end.

(** An alert is filed: active and unresolved under its id, or resolved
    and in the history. *)
Definition filed (am : AlertManager) (a : nat) : Prop :=
  ∃ alert, heap am !! a = Some alert
    ∧ ((SystemAlert.resolved alert = false
        ∧ pydict.get (active_alerts am) (SystemAlert.id alert) = Some a)
       ∨ (SystemAlert.resolved alert = true ∧ a ∈ alert_history am)).

(** The alert at an address is the one raised for a metric, as raised
    or since resolved. *)
Definition raised_for (str : R → string) (am : AlertManager) (a : nat)
           (metric : HealthMetric.t) : Prop :=
  str_in (HealthMetric.status metric) ["WARNING"; "CRITICAL"] = true
  ∧ (heap am !! a = Some (new_alert str metric)
     ∨ ∃ time, heap am !! a = Some (mark_resolved time (new_alert str metric))).

(** What holds of the manager and of the alerts [new_alerts] raised so
    far by a call that started with [n0] alert objects and has gone
    through the metrics [seen]. *)
Definition raised (str : R → string) (n0 : nat) (seen : list HealthMetric.t)
           (am : AlertManager) (new_alerts : list nat) : Prop :=
  coherent am
  ∧ NoDup new_alerts
  ∧ (n0 <= length (heap am))%nat
  ∧ ∀ a, a ∈ new_alerts →
         (n0 <= a < length (heap am))%nat
         ∧ filed am a
         ∧ ∃ metric, metric ∈ seen ∧ raised_for str am a metric.

End alert_manager.

(** ** Readings used in the examples of the monitoring system *)

Module monitoring_examples.
Import monitoring_system.
Local Open Scope string_scope.
Local Open Scope R_scope.

(** A clock that reads 2025-01-01T00:00:00 in every time zone asked for. *)
Definition clock_in (tz : option Z) : datetime.t := datetime.mk 2025 1 1 0 0 0 0 tz.

(** Two readings of the CPU check, five minutes apart, as
    [datetime.now()] stamps them. *)
Definition cpu_warning : HealthMetric.t :=
  HealthMetric.mk "system_cpu" 80 "percent" (datetime.mk 2025 1 1 9 0 0 0 None)
                  "WARNING" (Some 75) (Some 90).

Definition cpu_ok : HealthMetric.t :=
  HealthMetric.mk "system_cpu" 40 "percent" (datetime.mk 2025 1 1 9 5 0 0 None)
                  "OK" (Some 75) (Some 90).
End monitoring_examples.

(* ===================================================================== *)
(** * Part II: properties                                                *)
(* ===================================================================== *)

(** ** Byte-wise order on text *)

Module text_facts.

Import text.
Local Open Scope string_scope.

Lemma compare_refl (a : string) : String.compare a a = Eq.
Proof.
  induction a as [|c a IH]; simpl; [reflexivity|].
  unfold Ascii.compare. now rewrite N.compare_refl.
Qed.

Lemma compare_eq (a b : string) : String.compare a b = Eq ↔ a = b.
Proof.
  split; [apply String.compare_eq_iff | intros ->; apply compare_refl].
Qed.

Lemma compare_gt_lt (a b : string) :
  String.compare a b = Gt ↔ String.compare b a = Lt.
Proof.
  rewrite (String.compare_antisym b a).
  destruct (String.compare a b); simpl; split; congruence.
Qed.

Lemma lt_trans (a b c : string) : lt a b → lt b c → lt a c.
Proof.
  unfold lt. revert b c.
  induction a as [|x a IH]; intros [|y b] [|z c]; simpl; try congruence.
  unfold Ascii.compare.
  destruct (N.compare_spec (N_of_ascii x) (N_of_ascii y)) as [Hxy|Hxy|Hxy];
    destruct (N.compare_spec (N_of_ascii y) (N_of_ascii z)) as [Hyz|Hyz|Hyz];
    try congruence; intros H1 H2.
  - rewrite Hxy, Hyz, N.compare_refl. eauto.
  - rewrite Hxy. now apply N.compare_lt_iff in Hyz as ->.
  - rewrite <- Hyz. now apply N.compare_lt_iff in Hxy as ->.
  - assert (N_of_ascii x < N_of_ascii z)%N as Hxz by lia.
    now apply N.compare_lt_iff in Hxz as ->.
Qed.

Lemma lt_irrefl (a : string) : ¬ lt a a.
Proof. unfold lt. now rewrite compare_refl. Qed.

Lemma le_lt_or_eq (a b : string) : le a b ↔ lt a b ∨ a = b.
Proof.
  unfold le, lt, String.leb.
  destruct (String.compare a b) eqn:E; split; intros H; try done; auto.
  - right. now apply compare_eq.
  - destruct H as [H | ->]; [done|]. now rewrite compare_refl in E.
Qed.

Lemma le_refl (a : string) : le a a.
Proof. apply le_lt_or_eq. now right. Qed.

Lemma le_trans (a b c : string) : le a b → le b c → le a c.
Proof.
  rewrite !le_lt_or_eq. intros [H1 | ->] [H2 | ->]; eauto using lt_trans.
Qed.

Lemma not_le_lt (a b : string) : ¬ le a b ↔ lt b a.
Proof.
  unfold le, lt, String.leb. rewrite <- compare_gt_lt.
  destruct (String.compare a b); split; intros H; try done.
  all: now contradict H.
Qed.

Lemma lt_not_le (a b : string) : lt a b → ¬ le b a.
Proof. intros H. now apply not_le_lt. Qed.

End text_facts.

(** ** The event store *)

Module store_facts.

Import py event_store text_facts.
Local Open Scope string_scope.

(** *** Rows and keys *)

Lemma row_event_of_event (e : Event) :
  row_event (event_key e, event_columns e) = e.
Proof. now destruct e. Qed.

Lemma event_key_row (k : key) (c : columns) : event_key (row_event (k, c)) = k.
Proof. now destruct k as [[s d] v]. Qed.

Lemma event_columns_row (k : key) (c : columns) :
  event_columns (row_event (k, c)) = c.
Proof. destruct k as [[s d] v]. now destruct c. Qed.

#[global] Instance row_event_inj : Inj (=) (=) row_event.
Proof.
  intros [k1 c1] [k2 c2] H.
  assert (k1 = k2) as ->.
  { rewrite <- (event_key_row k1 c1), H. apply event_key_row. }
  assert (c1 = c2) as ->.
  { rewrite <- (event_columns_row k2 c1), H. apply event_columns_row. }
  reflexivity.
Qed.

Lemma event_eq (e1 e2 : Event) :
  event_key e1 = event_key e2 → event_columns e1 = event_columns e2 → e1 = e2.
Proof.
  intros Hk Hc.
  rewrite <- (row_event_of_event e1), <- (row_event_of_event e2).
  now rewrite Hk, Hc.
Qed.

(** A row is in the table exactly when the table maps its key to its
    other columns. *)
Lemma elem_of_rows (db : table) (e : Event) :
  e ∈ rows db ↔ db !! event_key e = Some (event_columns e).
Proof.
  unfold rows. rewrite list_elem_of_fmap. split.
  - intros ([k c] & -> & Hin). apply elem_of_map_to_list in Hin.
    now rewrite event_key_row, event_columns_row.
  - intros H. exists (event_key e, event_columns e). split.
    + now rewrite row_event_of_event.
    + now apply elem_of_map_to_list.
Qed.

Lemma rows_keys (db : table) : event_key <$> rows db = (map_to_list db).*1.
Proof.
  unfold rows. rewrite <- list_fmap_compose. apply list_fmap_ext.
  intros i [k c] _. apply event_key_row.
Qed.

(** The primary key: no two rows of a table share their key. *)
Lemma NoDup_rows_keys (db : table) : NoDup (event_key <$> rows db).
Proof. rewrite rows_keys. apply NoDup_fst_map_to_list. Qed.

Lemma NoDup_rows (db : table) : NoDup (rows db).
Proof. eapply NoDup_fmap_1, NoDup_rows_keys. Qed.

Lemma length_rows (db : table) : length (rows db) = size db.
Proof. unfold rows. now rewrite length_fmap, length_map_to_list. Qed.

(** *** [INSERT OR REPLACE] *)

Lemma elem_of_rows_insert (db : table) (ev e : Event) :
  e ∈ rows (<[event_key ev := event_columns ev]> db)
  ↔ e = ev ∨ (e ∈ rows db ∧ event_key e ≠ event_key ev).
Proof.
  rewrite !elem_of_rows. destruct (decide (event_key e = event_key ev)) as [Hk | Hk].
  - rewrite Hk, lookup_insert_eq. split.
    + intros Hc. left. apply event_eq; [exact Hk | congruence].
    + intros [-> | [_ ?]]; done.
  - rewrite lookup_insert_ne by done. split; [auto|].
    intros [-> | [? _]]; done.
Qed.

(** *** Outcomes of [add_event] *)

Lemma add_event_future (now : datetime.t) (db : table) (ev : Event)
      (rt : datetime.t) :
  datetime.fromisoformat (release_time_utc ev) = Ok rt →
  datetime.compare rt now = Ok Gt →
  add_event now db ev = (db, Raise FutureReleaseError).
Proof. intros Hp Hc. unfold add_event. rewrite Hp. simpl. now rewrite Hc. Qed.

Lemma add_event_stored (now : datetime.t) (db : table) (ev : Event)
      (rt : datetime.t) :
  datetime.fromisoformat (release_time_utc ev) = Ok rt →
  datetime.compare rt now = Ok Lt ∨ datetime.compare rt now = Ok Eq →
  add_event now db ev = (<[event_key ev := event_columns ev]> db, Ok ()).
Proof.
  intros Hp Hc. unfold add_event. rewrite Hp. simpl.
  now destruct Hc as [-> | ->].
Qed.

(** Whatever the outcome, the table after the call is either the table
    before it or that table with the event's row written. *)
Lemma add_event_cases (now : datetime.t) (db : table) (ev : Event) :
  (∃ e, add_event now db ev = (db, Raise e))
  ∨ add_event now db ev = (<[event_key ev := event_columns ev]> db, Ok ()).
Proof.
  unfold add_event.
  destruct (datetime.fromisoformat (release_time_utc ev)) as [rt|e]; simpl;
    [|eauto].
  destruct (datetime.compare rt now) as [[| |]|e]; simpl; eauto.
Qed.

Lemma compare_aware (a b : datetime.t) :
  datetime.aware a → datetime.aware b →
  datetime.compare a b = Ok (datetime.instant a ?= datetime.instant b)%Z.
Proof.
  intros [oa Ha] [ob Hb]. unfold datetime.compare. now rewrite Ha, Hb.
Qed.

(** *** What [fetch_events] yields *)

Lemma elem_of_fetch_events now db series as_of (e : Event) :
  e ∈ fetch_events now db series as_of
  ↔ e ∈ rows db
    ∧ series_id e = series
    ∧ text.le (release_time_utc e)
              (datetime.isoformat (match as_of with Some t => t | None => now end)).
Proof.
  unfold fetch_events. rewrite merge_sort_Permutation, list_elem_of_filter.
  unfold where_clause, text.le.
  rewrite andb_true_iff, String.eqb_eq. tauto.
Qed.

Lemma NoDup_fetch_events now db series as_of :
  NoDup (fetch_events now db series as_of).
Proof.
  unfold fetch_events. rewrite merge_sort_Permutation.
  apply NoDup_filter, NoDup_rows.
Qed.

(** When the stored timestamp text is spelled exactly as [isoformat]
    spells the bound, the text comparison succeeds: a stored event is
    fetched as of any datetime whose [isoformat] is its timestamp text. *)
Lemma fetch_events_same_spelling now db (ev : Event) (as_of : datetime.t) :
  ev ∈ rows db →
  release_time_utc ev = datetime.isoformat as_of →
  ev ∈ fetch_events now db (series_id ev) (Some as_of).
Proof.
  intros Hin Htext. apply elem_of_fetch_events.
  split; [exact Hin|]. split; [reflexivity|].
  rewrite Htext. apply le_refl.
Qed.

End store_facts.

(** ** Claims about [add_event] *)

Section add_event_claims.

Import py event_store store_facts.
Local Open Scope Z_scope.

(** C1.  An event whose release timestamp is strictly later than the
    store's clock is refused with [FutureReleaseError] and the table is
    left as it was; an event whose release timestamp is not in the future
    is accepted, and the table afterwards holds the event's row under its
    (series, release date, vintage) key, every other key being as before. *)
Theorem C1_add_event_future_gate
        (now : datetime.t) (db : table) (ev : Event) (rt : datetime.t) :
  datetime.fromisoformat (release_time_utc ev) = Ok rt →
  datetime.aware rt →
  datetime.aware now →
  (datetime.instant now < datetime.instant rt →
     add_event now db ev = (db, Raise FutureReleaseError))
  ∧ (datetime.instant rt ≤ datetime.instant now →
     ∃ db' : table,
       add_event now db ev = (db', Ok ())
       ∧ db' !! event_key ev = Some (event_columns ev)
       ∧ (∀ k, k ≠ event_key ev → db' !! k = db !! k)
       ∧ (∀ e, e ∈ rows db' ↔ e = ev ∨ (e ∈ rows db ∧ event_key e ≠ event_key ev))).
Proof.
  intros Hparse Hrt Hnow.
  pose proof (compare_aware rt now Hrt Hnow) as Hcmp.
  split.
  - intros Hlt. apply (add_event_future now db ev rt Hparse).
    rewrite Hcmp. f_equal. now apply Z.compare_gt_iff.
  - intros Hle. exists (<[event_key ev := event_columns ev]> db).
    split; [|split; [|split]].
    + apply (add_event_stored now db ev rt Hparse). rewrite Hcmp.
      destruct (Z.compare_spec (datetime.instant rt) (datetime.instant now));
        auto; lia.
    + apply lookup_insert_eq.
    + intros k Hk. now apply lookup_insert_ne.
    + apply elem_of_rows_insert.
Qed.

(** C2.  A successful [add_event] writes exactly the event's row: the rows
    afterwards are the event and the old rows with a different key, no
    two rows share a key, and the number of rows grows by one only if the
    key was new.  Adding the same event again, at any time, leaves the
    table and every later fetch as they were. *)
Theorem C2_upsert_idempotent
        (now : datetime.t) (db db' : table) (ev : Event) :
  add_event now db ev = (db', Ok ()) →
  (∀ e, e ∈ rows db' ↔ e = ev ∨ (e ∈ rows db ∧ event_key e ≠ event_key ev))
  ∧ (∀ k, k ≠ event_key ev → db' !! k = db !! k)
  ∧ NoDup (event_key <$> rows db')
  ∧ length (rows db')
    = (if decide (is_Some (db !! event_key ev))
       then length (rows db) else S (length (rows db)))
  ∧ (∀ now2,
       (add_event now2 db' ev).1 = db'
       ∧ ∀ now3 series as_of,
           fetch_events now3 (add_event now2 db' ev).1 series as_of
           = fetch_events now3 db' series as_of).
Proof.
  intros Hadd.
  assert (db' = <[event_key ev := event_columns ev]> db) as ->.
  { destruct (add_event_cases now db ev) as [[e He] | He];
      rewrite He in Hadd; congruence. }
  split; [apply elem_of_rows_insert|].
  split; [intros k Hk; now apply lookup_insert_ne|].
  split; [apply NoDup_rows_keys|].
  split.
  - rewrite !length_rows, map_size_insert.
    destruct (decide (is_Some (db !! event_key ev))) as [[c Hc] | Hn].
    + now rewrite Hc.
    + destruct (db !! event_key ev) eqn:E; [|done].
      contradict Hn. eauto.
  - intros now2.
    assert ((add_event now2 (<[event_key ev := event_columns ev]> db) ev).1
            = <[event_key ev := event_columns ev]> db) as Hsame.
    { destruct (add_event_cases now2 (<[event_key ev := event_columns ev]> db) ev)
        as [[e He] | He]; rewrite He; simpl; [done|].
      apply insert_insert_eq. }
    split; [exact Hsame|]. intros now3 series as_of. now rewrite Hsame.
Qed.

End add_event_claims.

Section add_event_witnesses.

Import py event_store examples.

Lemma C1_add_event_future_gate_witness :
  add_event clock_2025 init_db future_event = (init_db, Raise FutureReleaseError)
  ∧ ∃ db' : table,
      add_event clock_2025 init_db flash_event = (db', Ok ())
      ∧ db' !! event_key flash_event = Some (event_columns flash_event).
Proof.
  split.
  - refine (proj1 (C1_add_event_future_gate clock_2025 init_db future_event
                     (datetime.utc 2025 1 15 13 30 0 0) _ _ _) _).
    + reflexivity.
    + eexists; reflexivity.
    + eexists; reflexivity.
    + reflexivity.
  - destruct (proj2 (C1_add_event_future_gate clock_2025 init_db flash_event
                       release_instant eq_refl (ex_intro _ _ eq_refl)
                       (ex_intro _ _ eq_refl)))
      as (db' & Hadd & Hrow & _).
    + discriminate.
    + exists db'. split; assumption.
Defined.

Lemma C2_upsert_idempotent_witness :
  add_event clock_2025 init_db flash_event = (add_all clock_2025 [flash_event], Ok ())
  ∧ (add_event clock_2025 (add_all clock_2025 [flash_event]) flash_event).1
    = add_all clock_2025 [flash_event].
Proof.
  split; [reflexivity|].
  exact (proj1 (proj2 (proj2 (proj2 (proj2
           (C2_upsert_idempotent clock_2025 init_db
              (add_all clock_2025 [flash_event]) flash_event eq_refl))))
           clock_2025)).
Defined.

End add_event_witnesses.

(** ** The order of fetched events *)

Module order_facts.

Import py event_store terms text_facts store_facts.
Local Open Scope string_scope.

Lemma order_le_iff (e1 e2 : Event) :
  order_le e1 e2
  ↔ text.lt (release_date e1) (release_date e2)
    ∨ (release_date e1 = release_date e2 ∧ text.le (vintage e1) (vintage e2)).
Proof.
  unfold order_le, order_leb, text.lt.
  destruct (String.compare (release_date e1) (release_date e2)) eqn:E.
  - apply compare_eq in E. split; [auto|]. intros [? | [_ ?]]; done.
  - split; auto.
  - split; [done|]. intros [? | [Heq _]]; [done|].
    apply compare_eq in Heq. congruence.
Qed.

#[global] Instance order_le_trans : Transitive order_le.
Proof.
  intros e1 e2 e3. rewrite !order_le_iff.
  intros [H1 | [H1 H1']] [H2 | [H2 H2']].
  - left. eapply lt_trans; eassumption.
  - left. now rewrite <- H2.
  - left. now rewrite H1.
  - right. split; [congruence | eapply le_trans; eassumption].
Qed.

#[global] Instance order_le_total : Total order_le.
Proof.
  intros e1 e2. unfold order_le, order_leb.
  rewrite (String.compare_antisym (release_date e2) (release_date e1)).
  destruct (String.compare (release_date e1) (release_date e2)); simpl; auto.
  apply String.leb_total.
Qed.

Lemma StronglySorted_fetch_events now db series as_of :
  StronglySorted order_le (fetch_events now db series as_of).
Proof. unfold fetch_events. apply StronglySorted_merge_sort; apply _. Qed.

(** Two fetched events with the same release date and vintage are the
    same event: they share their series, hence their primary key. *)
Lemma fetched_same_sort_key now db series as_of (e1 e2 : Event) :
  e1 ∈ fetch_events now db series as_of →
  e2 ∈ fetch_events now db series as_of →
  release_date e1 = release_date e2 → vintage e1 = vintage e2 → e1 = e2.
Proof.
  rewrite !elem_of_fetch_events, !elem_of_rows.
  intros (H1 & S1 & _) (H2 & S2 & _) Hd Hv.
  assert (event_key e1 = event_key e2) as Hk.
  { unfold event_key. congruence. }
  apply event_eq; [exact Hk | congruence].
Qed.

Lemma StronglySorted_strengthen {A : Type} (R R' : relation A) (l : list A) :
  (∀ x y, x ∈ l → y ∈ l → x ≠ y → R x y → R' x y) →
  NoDup l → StronglySorted R l → StronglySorted R' l.
Proof.
  induction l as [|a l IH]; intros Himp Hnd Hs; [constructor|].
  apply NoDup_cons in Hnd as [Ha Hnd].
  apply StronglySorted_inv in Hs as [Hs Hall].
  constructor.
  - apply IH; [|done..]. intros x y Hx Hy. apply Himp; now right.
  - rewrite Forall_forall in Hall |- *. intros y Hy.
    apply Himp; [now left | now right | | now apply Hall].
    intros ->. done.
Qed.

Lemma StronglySorted_lt_fetch_events now db series as_of :
  StronglySorted order_lt (fetch_events now db series as_of).
Proof.
  eapply StronglySorted_strengthen;
    [| apply NoDup_fetch_events | apply StronglySorted_fetch_events].
  intros e1 e2 H1 H2 Hne. rewrite order_le_iff. unfold order_lt.
  intros [Hlt | [Hd Hv]]; [now left|]. right. split; [done|].
  apply le_lt_or_eq in Hv as [Hv | Hv]; [done|].
  contradict Hne. eapply fetched_same_sort_key; eassumption.
Qed.

End order_facts.

(** ** Claims about [fetch_events] *)

Section fetch_events_claims.

Import py event_store terms examples order_facts.
Local Open Scope string_scope.

(** C3 (evaluation of the code).  [fetch_events] compares the stored
    timestamp text with [as_of.isoformat()] as text.  The integration
    test's event, whose timestamp ends in [Z], is accepted by
    [add_event], yet a fetch as of exactly its release instant yields
    nothing; and the same release written with a space separator is
    yielded by a fetch as of one second before its release. *)
Lemma C3_fetch_as_of_compares_text :
  datetime.fromisoformat (release_time_utc test_event) = Ok release_instant
  ∧ add_event clock_2025 init_db test_event = (add_all clock_2025 [test_event], Ok ())
  ∧ fetch_events clock_2025 (add_all clock_2025 [test_event]) "US_CPI"
                 (Some release_instant) = []
  ∧ datetime.fromisoformat (release_time_utc spaced_event) = Ok release_instant
  ∧ add_event clock_2025 init_db spaced_event
    = (add_all clock_2025 [spaced_event], Ok ())
  ∧ (datetime.instant one_second_earlier
     = datetime.instant release_instant - 1000000)%Z
  ∧ fetch_events clock_2025 (add_all clock_2025 [spaced_event]) "US_CPI"
                 (Some one_second_earlier) = [spaced_event].
Proof.
  repeat split; vm_compute; reflexivity.
Qed.

(** C4 (as amended).  The fetched sequence is strictly ascending by
    release date and, within one release date, by vintage, both compared
    as text; in that order "final" comes before "flash", and "flash"
    before "prelim" and "preliminary". *)
Theorem C4_fetch_events_text_order
        (now : datetime.t) (db : table) (series : string)
        (as_of : option datetime.t) :
  StronglySorted order_lt (fetch_events now db series as_of)
  ∧ text.lt "final" "flash" ∧ text.lt "flash" "prelim"
  ∧ text.lt "flash" "preliminary".
Proof.
  split; [apply StronglySorted_lt_fetch_events|].
  repeat split.
Qed.

(** C4 (counterexample).  With a flash print and its final revision
    stored for the same release date, the fetch yields the final revision
    first: the sequence is not in revision order, and its last entry for
    that date is the flash print. *)
Lemma C4_fetch_events_revision_order_counterexample :
  fetch_events clock_2025 two_vintages "US_CPI" None = [final_event; flash_event]
  ∧ ¬ StronglySorted revision_order.le
        (fetch_events clock_2025 two_vintages "US_CPI" None).
Proof.
  assert (fetch_events clock_2025 two_vintages "US_CPI" None
          = [final_event; flash_event]) as Heq.
  { vm_compute. reflexivity. }
  split; [exact Heq|]. rewrite Heq. intros Hs.
  apply StronglySorted_inv in Hs as [_ Hall].
  apply Forall_cons in Hall as [[Hlt | [_ Hrank]] _].
  - vm_compute in Hlt. discriminate.
  - vm_compute in Hrank. lia.
Qed.

End fetch_events_claims.

(** ** Real-number facts used by the scoring claims *)

Module real_facts.

Local Open Scope R_scope.

Lemma tanh_bounds (x : R) : -1 < tanh x < 1.
Proof.
  unfold tanh, sinh, cosh.
  pose proof (exp_pos x) as Ha. pose proof (exp_pos (- x)) as Hb.
  set (a := exp x) in *. set (b := exp (- x)) in *.
  assert (0 < (a + b) / 2) as Hc by lra.
  split.
  - apply (Rmult_lt_reg_r ((a + b) / 2)); [exact Hc|].
    unfold Rdiv at 2. rewrite Rmult_assoc, Rinv_l by lra. lra.
  - apply (Rmult_lt_reg_r ((a + b) / 2)); [exact Hc|].
    unfold Rdiv at 1. rewrite Rmult_assoc, Rinv_l by lra. lra.
Qed.

Lemma ln_half_neg : ln (1 / 2) < 0.
Proof.
  replace (1 / 2) with (/ 2) by lra.
  rewrite ln_Rinv by lra. pose proof ln_lt_2. lra.
Qed.

Lemma Rpower_half_pos (y : R) : 0 < Rpower (1 / 2) y.
Proof. unfold Rpower. apply exp_pos. Qed.

Lemma Rpower_half_decreasing (y1 y2 : R) :
  y1 < y2 → Rpower (1 / 2) y2 < Rpower (1 / 2) y1.
Proof.
  intros H. unfold Rpower. apply exp_increasing.
  pose proof ln_half_neg. nra.
Qed.

Lemma Rpower_half_le_1 (y : R) : 0 <= y → Rpower (1 / 2) y <= 1.
Proof.
  intros [H | <-].
  - pose proof (Rpower_half_decreasing 0 y H) as Hd.
    rewrite Rpower_O in Hd by lra. lra.
  - right. apply Rpower_O. lra.
Qed.

Lemma IZR_div_lt (d1 d2 h : Z) :
  (0 < h)%Z → (d1 < d2)%Z → IZR d1 / IZR h < IZR d2 / IZR h.
Proof.
  intros Hh Hd. apply IZR_lt in Hh, Hd.
  unfold Rdiv. apply Rmult_lt_compat_r; [|exact Hd].
  now apply Rinv_0_lt_compat.
Qed.

Lemma IZR_div_nonneg (d h : Z) : (0 < h)%Z → (0 <= d)%Z → 0 <= IZR d / IZR h.
Proof.
  intros Hh Hd. apply IZR_lt in Hh. apply IZR_le in Hd.
  unfold Rdiv. apply Rmult_le_pos; [exact Hd|].
  left. now apply Rinv_0_lt_compat.
Qed.

End real_facts.

(** ** Facts about the scoring functions *)

Module scoring_facts.

Import py event_store scoring terms real_facts.
Local Open Scope string_scope.
Local Open Scope R_scope.

(** *** The two lookup tables *)

Lemma half_life_pos (freq : string) : (0 < half_life freq)%Z.
Proof.
  unfold half_life, dict_get, HALF_LIFE.
  destruct (_ !! freq) as [hl|] eqn:E; [|lia].
  apply elem_of_list_to_map_2, list_elem_of_In in E. simpl in E.
  destruct E as [E | [E | [E | [E | []]]]]; injection E as _ <-; lia.
Qed.

Lemma impact_multiplier_pos (impact : string) : 0 < impact_multiplier impact.
Proof.
  unfold impact_multiplier, dict_get, IMPACT_WEIGHT.
  destruct (_ !! impact) as [w|] eqn:E; [|lra].
  apply elem_of_list_to_map_2, list_elem_of_In in E. simpl in E.
  destruct E as [E | [E | [E | []]]]; injection E as _ <-; lra.
Qed.

Lemma half_life_table :
  half_life "w" = 14%Z ∧ half_life "m" = 45%Z ∧ half_life "q" = 90%Z
  ∧ half_life "policy" = 90%Z ∧ half_life "daily" = 30%Z.
Proof. repeat split. Qed.

Lemma impact_multiplier_table :
  impact_multiplier "high" = 3 ∧ impact_multiplier "mid" = 1.5
  ∧ impact_multiplier "low" = 0.75 ∧ impact_multiplier "none" = 1.
Proof. repeat split. Qed.

(** *** [decay_weight] *)


Lemma days_elapsed_nonneg (now rt : datetime.t) :
  (datetime.instant rt <= datetime.instant now)%Z → (0 <= days_elapsed now rt)%Z.
Proof.
  intros H. unfold days_elapsed, datetime.timedelta_days.
  apply Z.div_pos; lia.
Qed.

Lemma decay_range (days : Z) (freq : string) :
  (0 <= days)%Z → 0 < decay days freq <= 1.
Proof.
  intros H. unfold decay. split; [apply Rpower_half_pos|].
  apply Rpower_half_le_1, IZR_div_nonneg; [apply half_life_pos | exact H].
Qed.

Lemma decay_decreasing (d1 d2 : Z) (freq : string) :
  (d1 < d2)%Z → decay d2 freq < decay d1 freq.
Proof.
  intros H. unfold decay.
  apply Rpower_half_decreasing, IZR_div_lt; [apply half_life_pos | exact H].
Qed.

(** *** [surprise] *)

Lemma surprise_no_consensus (ev : Event) (direction : string) :
  consensus ev = None → surprise ev direction = Ok 0.
Proof. intros H. unfold surprise. now rewrite H. Qed.

Lemma surprise_absolute (ev : Event) (direction : string) (c : R) :
  consensus ev = Some c → direction ≠ "relative" →
  surprise ev direction = Ok (actual ev - c).
Proof.
  intros H Hd. unfold surprise. rewrite H.
  apply String.eqb_neq in Hd. now rewrite Hd.
Qed.

Lemma surprise_relative (ev : Event) (c : R) :
  consensus ev = Some c → c ≠ 0 →
  surprise ev "relative" = Ok (actual ev / c - 1).
Proof.
  intros H Hc. unfold surprise, float_div. rewrite H. simpl.
  now destruct (Req_dec_T c 0).
Qed.

Lemma surprise_relative_zero (ev : Event) :
  consensus ev = Some 0 →
  surprise ev "relative" = Raise (ZeroDivisionError "float division by zero").
Proof.
  intros H. unfold surprise, float_div. rewrite H. simpl.
  now destruct (Req_dec_T 0 0).
Qed.

(** *** [point_from_z] *)


Lemma point_from_z_dead_zone (z : R) : Rabs z < 0.25 → point_from_z z = 0.
Proof. intros H. unfold point_from_z. now destruct (Rlt_dec (Rabs z) 0.25). Qed.

Lemma point_from_z_squash (z : R) :
  0.25 <= Rabs z → point_from_z z = 2 * tanh (z / 1.5).
Proof.
  intros H. unfold point_from_z.
  destruct (Rlt_dec (Rabs z) 0.25); [lra|].
  pose proof (tanh_bounds (z / 1.5)) as [Hl Hu].
  rewrite Rmin_right by lra. apply Rmax_right. lra.
Qed.

End scoring_facts.

(** ** Binary64 rounding *)

Module binary64_facts.

Import binary64.
Local Open Scope R_scope.

Lemma Rabs_le_inv (a b : R) : Rabs a <= b → - b <= a <= b.
Proof. unfold Rabs. destruct (Rcase_abs a); lra. Qed.

(** *** Powers of two *)

Lemma pow2_pos (k : Z) : 0 < powerRZ 2 k.
Proof. apply powerRZ_lt. lra. Qed.

Lemma pow2_add (a b : Z) : powerRZ 2 (a + b) = powerRZ 2 a * powerRZ 2 b.
Proof. apply powerRZ_add. lra. Qed.

Lemma pow2_opp (k : Z) : powerRZ 2 (- k) = / powerRZ 2 k.
Proof. apply powerRZ_neg'. Qed.

Lemma pow2_cancel (k : Z) : powerRZ 2 (- k) * powerRZ 2 k = 1.
Proof. rewrite <- pow2_add. replace (- k + k)%Z with 0%Z by lia. reflexivity. Qed.

Lemma pow2_IZR (n : Z) : (0 <= n)%Z → powerRZ 2 n = IZR (2 ^ n).
Proof.
  intros Hn. rewrite <- (Z2Nat.id n) by exact Hn.
  rewrite <- pow_powerRZ, pow_IZR. reflexivity.
Qed.

Lemma pow2_ge_1 (n : Z) : (0 <= n)%Z → 1 <= powerRZ 2 n.
Proof.
  intros Hn. rewrite <- (Z2Nat.id n) by exact Hn. rewrite <- pow_powerRZ.
  apply pow_R1_Rle. lra.
Qed.

Lemma pow2_le (a b : Z) : (a <= b)%Z → powerRZ 2 a <= powerRZ 2 b.
Proof.
  intros H. replace b with (a + (b - a))%Z by lia. rewrite pow2_add.
  pose proof (pow2_pos a). pose proof (pow2_ge_1 (b - a) ltac:(lia)). nra.
Qed.

Lemma pow2_lt (a b : Z) : (a < b)%Z → powerRZ 2 a < powerRZ 2 b.
Proof.
  intros H. replace b with (a + 1 + (b - a - 1))%Z by lia. rewrite !pow2_add.
  pose proof (pow2_pos a). pose proof (pow2_ge_1 (b - a - 1) ltac:(lia)).
  change (powerRZ 2 1) with (2 * 1). nra.
Qed.

Lemma pow2_lt_inv (a b : Z) : powerRZ 2 a < powerRZ 2 b → (a < b)%Z.
Proof.
  intros H. destruct (Z_lt_le_dec a b) as [|Hle]; [assumption|].
  apply pow2_le in Hle. lra.
Qed.

Lemma pow2_exp (k : Z) : powerRZ 2 k = exp (IZR k * ln 2).
Proof. rewrite powerRZ_Rpower by lra. reflexivity. Qed.

(** *** The binade of a number *)

Lemma ln_2_pos : 0 < ln 2.
Proof. pose proof ln_lt_2. lra. Qed.

Lemma mag_spec (x : R) :
  x ≠ 0 → powerRZ 2 (mag x - 1) <= Rabs x < powerRZ 2 (mag x).
Proof.
  intros Hx. unfold mag.
  pose proof (Rabs_pos_lt x Hx) as Hpos. pose proof ln_2_pos as Hl.
  pose proof (base_Int_part (ln (Rabs x) / ln 2)) as [H1 H2].
  set (n := Int_part (ln (Rabs x) / ln 2)) in *.
  replace (n + 1 - 1)%Z with n by lia.
  rewrite !pow2_exp, plus_IZR.
  assert (IZR n * ln 2 <= ln (Rabs x)) as Hlo.
  { apply (Rmult_le_compat_r (ln 2)) in H1; [|lra].
    unfold Rdiv in H1. rewrite Rmult_assoc, Rinv_l, Rmult_1_r in H1 by lra. exact H1. }
  assert (ln (Rabs x) < (IZR n + 1) * ln 2) as Hhi.
  { assert (ln (Rabs x) / ln 2 < IZR n + 1) as H3 by lra.
    apply (Rmult_lt_compat_r (ln 2)) in H3; [|lra].
    unfold Rdiv in H3. rewrite Rmult_assoc, Rinv_l, Rmult_1_r in H3 by lra. exact H3. }
  pose proof (exp_ln (Rabs x) Hpos) as Hexp.
  split.
  - rewrite <- Hexp.
    destruct Hlo as [Hlo | ->]; [left; now apply exp_increasing | right; reflexivity].
  - rewrite <- Hexp. now apply exp_increasing.
Qed.

Lemma mag_le (x : R) (k : Z) : x ≠ 0 → Rabs x < powerRZ 2 k → (mag x <= k)%Z.
Proof.
  intros Hx H. pose proof (mag_spec x Hx) as [H1 _].
  assert (powerRZ 2 (mag x - 1) < powerRZ 2 k) as Hlt by lra.
  apply pow2_lt_inv in Hlt. lia.
Qed.

Lemma mag_ge (x : R) (k : Z) : x ≠ 0 → powerRZ 2 k <= Rabs x → (k < mag x)%Z.
Proof.
  intros Hx H. pose proof (mag_spec x Hx) as [_ H2].
  apply pow2_lt_inv. lra.
Qed.

Lemma mag_opp (x : R) : mag (- x) = mag x.
Proof. unfold mag. now rewrite Rabs_Ropp. Qed.

Lemma ulp_exponent_opp (x : R) : ulp_exponent (- x) = ulp_exponent x.
Proof. unfold ulp_exponent. now rewrite mag_opp. Qed.

(** *** The nearest integer *)

Lemma floor_bounds (t : R) : IZR (Int_part t) <= t < IZR (Int_part t) + 1.
Proof. pose proof (base_Int_part t). lra. Qed.

Lemma floor_unique (t : R) (n : Z) : IZR n <= t < IZR n + 1 → Int_part t = n.
Proof. intros H. symmetry. apply Int_part_spec. lra. Qed.

Lemma floor_le (t u : R) : t <= u → (Int_part t <= Int_part u)%Z.
Proof.
  intros H. pose proof (floor_bounds t). pose proof (floor_bounds u).
  assert (IZR (Int_part t) < IZR (Int_part u + 1)) as Hlt
    by (rewrite plus_IZR; lra).
  apply lt_IZR in Hlt. lia.
Qed.

Lemma nearest_even_cases (t : R) :
  nearest_even t = Int_part t ∧ t - IZR (Int_part t) <= 1 / 2
  ∨ nearest_even t = (Int_part t + 1)%Z ∧ 1 / 2 <= t - IZR (Int_part t).
Proof.
  unfold nearest_even. cbv zeta.
  destruct (Rlt_dec (t - IZR (Int_part t)) (1 / 2)); [left; split; [reflexivity | lra]|].
  destruct (Rlt_dec (1 / 2) (t - IZR (Int_part t))); [right; split; [reflexivity | lra]|].
  destruct (Z.even (Int_part t)); [left | right]; split; (reflexivity || lra).
Qed.

Lemma nearest_even_error (t : R) : Rabs (IZR (nearest_even t) - t) <= 1 / 2.
Proof.
  pose proof (floor_bounds t).
  destruct (nearest_even_cases t) as [[-> H1] | [-> H1]];
    rewrite ?plus_IZR; apply Rabs_le; lra.
Qed.

Lemma nearest_even_IZR (k : Z) : nearest_even (IZR k) = k.
Proof.
  unfold nearest_even. cbv zeta.
  rewrite (floor_unique (IZR k) k) by lra.
  destruct (Rlt_dec (IZR k - IZR k) (1 / 2)); [reflexivity | lra].
Qed.

Lemma nearest_even_le (t u : R) : t <= u → (nearest_even t <= nearest_even u)%Z.
Proof.
  intros H. pose proof (floor_le t u H) as Hf.
  pose proof (floor_bounds t). pose proof (floor_bounds u).
  destruct (Z.eq_dec (Int_part t) (Int_part u)) as [E|E].
  - unfold nearest_even. cbv zeta. rewrite E in *.
    destruct (Rlt_dec (t - IZR (Int_part u)) (1 / 2)),
             (Rlt_dec (u - IZR (Int_part u)) (1 / 2));
      destruct (Rlt_dec (1 / 2) (t - IZR (Int_part u))),
               (Rlt_dec (1 / 2) (u - IZR (Int_part u)));
      destruct (Z.even (Int_part u)); try lia; exfalso; lra.
  - destruct (nearest_even_cases t) as [[-> _] | [-> _]],
             (nearest_even_cases u) as [[-> _] | [-> _]]; lia.
Qed.

Lemma nearest_even_half (t : R) : Rabs t <= 1 / 2 → nearest_even t = 0%Z.
Proof.
  intros H. apply Rabs_le_inv in H. unfold nearest_even. cbv zeta.
  destruct (Rle_lt_dec 0 t) as [Hpos|Hneg].
  - rewrite (floor_unique t 0) by lra.
    destruct (Rlt_dec (t - 0) (1 / 2)); [reflexivity|].
    destruct (Rlt_dec (1 / 2) (t - 0)); [lra | reflexivity].
  - rewrite (floor_unique t (-1)) by lra.
    destruct (Rlt_dec (t - -1) (1 / 2)); [lra|].
    destruct (Rlt_dec (1 / 2) (t - -1)); reflexivity.
Qed.

Lemma nearest_even_opp (t : R) : nearest_even (- t) = (- nearest_even t)%Z.
Proof.
  pose proof (floor_bounds t) as Hb.
  destruct (Req_dec t (IZR (Int_part t))) as [E|E].
  - rewrite E, <- opp_IZR, !nearest_even_IZR. reflexivity.
  - assert (Int_part (- t) = (- Int_part t - 1)%Z) as Hf.
    { apply floor_unique. rewrite minus_IZR, opp_IZR. lra. }
    unfold nearest_even. cbv zeta. rewrite Hf, minus_IZR, opp_IZR.
    replace (Z.even (- Int_part t - 1)) with (negb (Z.even (Int_part t)))
      by (replace (- Int_part t - 1)%Z with (- (Int_part t + 1))%Z by lia;
          rewrite Z.even_opp, Z.even_add; now destruct (Z.even (Int_part t))).
    destruct (Rlt_dec (t - IZR (Int_part t)) (1 / 2)),
             (Rlt_dec (- t - (- IZR (Int_part t) - 1)) (1 / 2));
      destruct (Rlt_dec (1 / 2) (- t - (- IZR (Int_part t) - 1))),
               (Rlt_dec (1 / 2) (t - IZR (Int_part t)));
      destruct (Z.even (Int_part t)); cbn [negb]; try lia; exfalso; lra.
Qed.

End binary64_facts.

Module binary64_round.

Import binary64 binary64_facts.
Local Open Scope R_scope.

(** *** Rounding at a fixed exponent *)

Lemma round_at_le (e : Z) (x y : R) : x <= y → round_at e x <= round_at e y.
Proof.
  intros H. unfold round_at. pose proof (pow2_pos e). pose proof (pow2_pos (- e)).
  apply Rmult_le_compat_r; [lra|]. apply IZR_le, nearest_even_le. nra.
Qed.

Lemma round_at_multiple (e m : Z) :
  round_at e (IZR m * powerRZ 2 e) = IZR m * powerRZ 2 e.
Proof.
  unfold round_at.
  rewrite Rmult_assoc, (Rmult_comm (powerRZ 2 e)), pow2_cancel, Rmult_1_r.
  now rewrite nearest_even_IZR.
Qed.

Lemma round_at_pow2 (e k : Z) : (e <= k)%Z → round_at e (powerRZ 2 k) = powerRZ 2 k.
Proof.
  intros H. replace k with ((k - e) + e)%Z at 1 2 by lia.
  rewrite pow2_add, pow2_IZR by lia. apply round_at_multiple.
Qed.

Lemma round_at_0 (e : Z) : round_at e 0 = 0.
Proof.
  replace 0 with (IZR 0 * powerRZ 2 e) by (simpl; lra). apply round_at_multiple.
Qed.

Lemma round_at_error (e : Z) (x : R) : Rabs (round_at e x - x) <= powerRZ 2 e / 2.
Proof.
  unfold round_at. pose proof (pow2_pos e) as He.
  pose proof (nearest_even_error (x * powerRZ 2 (- e))) as H.
  replace (IZR (nearest_even (x * powerRZ 2 (- e))) * powerRZ 2 e - x)
    with ((IZR (nearest_even (x * powerRZ 2 (- e))) - x * powerRZ 2 (- e))
          * powerRZ 2 e)
    by (rewrite Rmult_minus_distr_r, Rmult_assoc, pow2_cancel; lra).
  rewrite Rabs_mult, (Rabs_pos_eq (powerRZ 2 e)) by lra. nra.
Qed.

Lemma round_at_opp (e : Z) (x : R) : round_at e (- x) = - round_at e x.
Proof.
  unfold round_at. rewrite Ropp_mult_distr_l_reverse, nearest_even_opp, opp_IZR. lra.
Qed.

(** *** Rounding to binary64 *)

Lemma round_0 : round 0 = 0.
Proof. apply round_at_0. Qed.

Lemma round_opp (x : R) : round (- x) = - round x.
Proof. unfold round. rewrite ulp_exponent_opp. apply round_at_opp. Qed.

(** A number with at most 53 significant bits and an exponent in range
    is a binary64 number. *)
Lemma round_exact (m k : Z) :
  (Z.abs m < 2 ^ 53)%Z → (-1074 <= k)%Z →
  round (IZR m * powerRZ 2 k) = IZR m * powerRZ 2 k.
Proof.
  intros Hm Hk. destruct (Z.eq_dec m 0%Z) as [-> | Hm0].
  - rewrite Rmult_0_l. apply round_0.
  - pose proof (pow2_pos k) as Hp.
    assert (IZR m * powerRZ 2 k ≠ 0) as Hx.
    { apply Rmult_integral_contrapositive_currified; [|lra].
      intros E. apply eq_IZR in E. lia. }
    assert (mag (IZR m * powerRZ 2 k) <= k + 53)%Z as Hmag.
    { apply mag_le; [exact Hx|].
      rewrite Rabs_mult, (Rabs_pos_eq (powerRZ 2 k)), pow2_add, Rmult_comm by lra.
      apply Rmult_lt_compat_l; [exact Hp|].
      rewrite pow2_IZR, <- abs_IZR by lia. now apply IZR_lt. }
    unfold round. set (e := ulp_exponent (IZR m * powerRZ 2 k)).
    assert (e <= k)%Z as He by (unfold e, ulp_exponent; lia).
    replace (IZR m * powerRZ 2 k) with (IZR (m * 2 ^ (k - e)) * powerRZ 2 e).
    + apply round_at_multiple.
    + rewrite mult_IZR, <- pow2_IZR, Rmult_assoc, <- pow2_add by lia.
      do 2 f_equal. lia.
Qed.

Lemma round_IZR (n : Z) : (Z.abs n < 2 ^ 53)%Z → round (IZR n) = IZR n.
Proof.
  intros H. pose proof (round_exact n 0 H ltac:(lia)) as E.
  simpl in E. now rewrite Rmult_1_r in E.
Qed.

Lemma round_pow2 (k : Z) : (-1074 <= k)%Z → round (powerRZ 2 k) = powerRZ 2 k.
Proof.
  intros H. pose proof (round_exact 1 k ltac:(lia) H) as E.
  now rewrite Rmult_1_l in E.
Qed.

(** Below half of the least positive number everything rounds to 0,
    the tie included. *)
Lemma round_tiny (x : R) : Rabs x <= powerRZ 2 (-1075) → round x = 0.
Proof.
  intros H. destruct (Req_dec x 0) as [-> | Hx]; [apply round_0|].
  assert (mag x <= -1074)%Z as Hmag.
  { apply mag_le; [exact Hx|]. pose proof (pow2_lt (-1075) (-1074) ltac:(lia)). lra. }
  unfold round, ulp_exponent. rewrite Z.max_l by lia. unfold round_at.
  rewrite nearest_even_half; [simpl; lra|].
  rewrite Rabs_mult, (Rabs_pos_eq (powerRZ 2 (- -1074))) by (left; apply pow2_pos).
  pose proof (pow2_pos (- -1074)).
  apply Rle_trans with (powerRZ 2 (-1075) * powerRZ 2 (- -1074)); [nra|].
  rewrite <- pow2_add. simpl. lra.
Qed.

(** In the normal range the relative error is at most 2^-53. *)
Lemma round_error (x : R) :
  powerRZ 2 (-1022) <= Rabs x →
  Rabs (round x - x) <= powerRZ 2 (-53) * Rabs x.
Proof.
  intros H.
  assert (x ≠ 0) as Hx.
  { intros ->. rewrite Rabs_R0 in H. pose proof (pow2_pos (-1022)). lra. }
  pose proof (mag_ge x (-1022) Hx H) as Hmag.
  pose proof (mag_spec x Hx) as [Hlo _].
  unfold round, ulp_exponent. rewrite Z.max_r by lia.
  eapply Rle_trans; [apply round_at_error|].
  replace (mag x - 53)%Z with (-53 + (mag x - 1) + 1)%Z by lia.
  rewrite !pow2_add. change (powerRZ 2 1) with (2 * 1).
  pose proof (pow2_pos (-53)). pose proof (pow2_pos (mag x - 1)). nra.
Qed.

Lemma round_nonneg (x : R) : 0 <= x → 0 <= round x.
Proof.
  intros H. unfold round. rewrite <- (round_at_0 (ulp_exponent x)).
  now apply round_at_le.
Qed.

Lemma mag_le_mag (x y : R) : 0 < x <= y → (mag x <= mag y)%Z.
Proof.
  intros [Hx Hxy].
  pose proof (mag_spec x ltac:(lra)) as [H1 _].
  pose proof (mag_spec y ltac:(lra)) as [_ H2].
  rewrite Rabs_pos_eq in H1, H2 by lra.
  assert (powerRZ 2 (mag x - 1) < powerRZ 2 (mag y)) as Hlt by lra.
  apply pow2_lt_inv in Hlt. lia.
Qed.

Lemma round_le_pos (x y : R) : 0 < x <= y → round x <= round y.
Proof.
  intros [Hx Hxy]. pose proof (mag_le_mag x y (conj Hx Hxy)) as Hmag.
  pose proof (mag_spec x ltac:(lra)) as [_ Hxhi].
  pose proof (mag_spec y ltac:(lra)) as [Hylo _].
  rewrite Rabs_pos_eq in Hxhi, Hylo by lra.
  unfold round, ulp_exponent.
  destruct (Z.eq_dec (Z.max (-1074) (mag x - 53)) (Z.max (-1074) (mag y - 53)))
    as [E|E].
  - rewrite E. now apply round_at_le.
  - assert (mag x < mag y ∧ -1074 < mag y - 53)%Z as [Hlt Hnorm]
      by (destruct (Z.max_spec (-1074) (mag x - 53)) as [[? Ex] | [? Ex]],
                   (Z.max_spec (-1074) (mag y - 53)) as [[? Ey] | [? Ey]];
          rewrite Ex, Ey in E; lia).
    apply Rle_trans with (powerRZ 2 (Z.max (mag x) (-1074))).
    + assert (Z.max (-1074) (mag x - 53) <= Z.max (mag x) (-1074))%Z as Hk by lia.
      rewrite <- (round_at_pow2 _ _ Hk).
      apply round_at_le.
      pose proof (pow2_le (mag x) (Z.max (mag x) (-1074)) ltac:(lia)). lra.
    + apply Rle_trans with (powerRZ 2 (mag y - 1)); [apply pow2_le; lia|].
      assert (Z.max (-1074) (mag y - 53) <= mag y - 1)%Z as Hk by lia.
      rewrite <- (round_at_pow2 _ _ Hk).
      now apply round_at_le.
Qed.

Lemma round_le (x y : R) : x <= y → round x <= round y.
Proof.
  intros H.
  destruct (Rlt_le_dec 0 x) as [Hx|Hx]; [now apply round_le_pos|].
  destruct (Rle_lt_dec 0 y) as [Hy|Hy].
  - apply Rle_trans with 0; [|now apply round_nonneg].
    pose proof (round_nonneg (- x) ltac:(lra)) as Hr.
    rewrite round_opp in Hr. lra.
  - pose proof (round_le_pos (- y) (- x) ltac:(split; lra)) as Hr.
    rewrite !round_opp in Hr. lra.
Qed.

End binary64_round.

(** ** [decay_weight] in binary64 *)

Module scoring64_facts.

Import py event_store scoring terms real_facts scoring_facts.
Import binary64 binary64_facts binary64_round scoring64.
Local Open Scope string_scope.
Local Open Scope R_scope.

(** *** Constants *)

Lemma threshold_large : powerRZ 2 1023 <= overflow_threshold.
Proof.
  unfold overflow_threshold.
  replace 1024%Z with (1023 + 1)%Z by lia. rewrite pow2_add.
  change (powerRZ 2 1) with (2 * 1).
  pose proof (pow2_le 970 1023 ltac:(lia)). lra.
Qed.

Lemma pow2_53 : powerRZ 2 53 = 9007199254740992.
Proof. rewrite pow2_IZR by lia. reflexivity. Qed.

Lemma eps_value : powerRZ 2 (-53) = / 9007199254740992.
Proof.
  change (powerRZ 2 (-53)) with (powerRZ 2 (Z.opp 53)).
  rewrite pow2_opp, pow2_53. reflexivity.
Qed.

Lemma of_real_finite (x : R) : Rabs x < powerRZ 2 53 → of_real x = Finite (round x).
Proof.
  intros H. unfold of_real. pose proof threshold_large.
  pose proof (pow2_le 53 1023 ltac:(lia)).
  destruct (Rle_dec overflow_threshold (Rabs x)); [lra | reflexivity].
Qed.

Lemma half_life_cases (freq : string) :
  half_life freq = 14%Z ∨ half_life freq = 45%Z ∨ half_life freq = 90%Z
  ∨ half_life freq = 30%Z.
Proof.
  unfold half_life, dict_get, HALF_LIFE.
  destruct (_ !! freq) as [hl|] eqn:E; [|tauto].
  apply elem_of_list_to_map_2, list_elem_of_In in E. simpl in E.
  destruct E as [E | [E | [E | [E | []]]]]; injection E as _ <-; tauto.
Qed.

Lemma impact_multiplier_cases (impact : string) :
  impact_multiplier impact = 3 ∨ impact_multiplier impact = 1.5
  ∨ impact_multiplier impact = 0.75 ∨ impact_multiplier impact = 1.
Proof.
  unfold impact_multiplier, dict_get, IMPACT_WEIGHT.
  destruct (_ !! impact) as [w|] eqn:E; [|tauto].
  apply elem_of_list_to_map_2, list_elem_of_In in E. simpl in E.
  destruct E as [E | [E | [E | []]]]; injection E as _ <-; tauto.
Qed.

(** The impact multipliers are binary64 numbers. *)
Lemma round_impact_multiplier (impact : string) :
  round (impact_multiplier impact) = impact_multiplier impact.
Proof.
  destruct (impact_multiplier_cases impact) as [-> | [-> | [-> | ->]]].
  - apply (round_IZR 3). lia.
  - replace 1.5 with (IZR 3 * powerRZ 2 (-1)) by (simpl; lra).
    apply round_exact; lia.
  - replace 0.75 with (IZR 3 * powerRZ 2 (-2)) by (simpl; lra).
    apply round_exact; lia.
  - apply (round_IZR 1). lia.
Qed.

Lemma impact_multiplier_range (impact : string) :
  0.75 <= impact_multiplier impact <= 3.
Proof. destruct (impact_multiplier_cases impact) as [-> | [-> | [-> | ->]]]; lra. Qed.

(** *** Halving *)

Lemma half_power_exp (y : R) : Rpower (1 / 2) y = exp (- (y * ln 2)).
Proof.
  unfold Rpower. f_equal.
  replace (1 / 2) with (/ 2) by lra. rewrite ln_Rinv by lra. ring.
Qed.

Lemma half_power_pow2 (k : Z) : Rpower (1 / 2) (IZR k) = powerRZ 2 (- k).
Proof. rewrite half_power_exp, pow2_exp, opp_IZR. f_equal. ring. Qed.

Lemma half_power_le (y1 y2 : R) : y1 <= y2 → Rpower (1 / 2) y2 <= Rpower (1 / 2) y1.
Proof.
  intros [H | ->]; [left; now apply Rpower_half_decreasing | right; reflexivity].
Qed.

Lemma half_power_add (y d : R) :
  Rpower (1 / 2) (y + d) = Rpower (1 / 2) y * Rpower (1 / 2) d.
Proof. apply Rpower_plus. Qed.

Lemma ln_2_lt_1 : ln 2 < 1.
Proof.
  rewrite <- (ln_exp 1). apply ln_increasing; [lra|].
  pose proof (exp_ineq1 1 ltac:(lra)). lra.
Qed.

(** A small change of the exponent changes the power by about as much. *)
Lemma half_power_near (d δ : R) :
  Rabs d <= δ → δ < 1 → 1 - δ <= Rpower (1 / 2) d <= / (1 - δ).
Proof.
  intros Hd Hδ. apply Rabs_le_inv in Hd.
  pose proof ln_2_pos. pose proof ln_2_lt_1.
  rewrite half_power_exp. split.
  - pose proof (exp_ineq1_le (- (d * ln 2))). nra.
  - pose proof (exp_ineq1_le (d * ln 2)) as H1.
    pose proof (exp_pos (d * ln 2)) as H2.
    rewrite exp_Ropp.
    assert (0 < 1 - δ <= exp (d * ln 2)) as [H3 H4] by (split; nra).
    now apply Rinv_le_contravar.
Qed.

(** One more day takes off at least one part in 181. *)
Lemma half_power_step (d : R) : / 90 <= d → Rpower (1 / 2) d <= 180 / 181.
Proof.
  intros Hd. pose proof ln_lt_2 as Hl.
  rewrite half_power_exp, exp_Ropp.
  pose proof (exp_ineq1_le (d * ln 2)) as H1.
  assert (181 / 180 <= exp (d * ln 2)) as H2 by nra.
  replace (180 / 181) with (/ (181 / 180)) by lra.
  apply Rinv_le_contravar; lra.
Qed.

End scoring64_facts.

Module scoring64_weight.

Import py event_store scoring terms real_facts scoring_facts.
Import binary64 binary64_facts binary64_round scoring64 scoring64_facts.
Local Open Scope string_scope.
Local Open Scope R_scope.

(** *** The weight of a release that is not in the future *)

Lemma quotient_range (days hl : Z) :
  (0 <= days)%Z → (0 < hl)%Z → 0 <= IZR days / IZR hl <= IZR days.
Proof.
  intros Hd Hh. apply IZR_le in Hd. assert (1 <= IZR hl) as H1 by (apply IZR_le; lia).
  assert (0 < / IZR hl <= 1) as [H2 H3].
  { split; [apply Rinv_0_lt_compat; lra|].
    rewrite <- Rinv_1. apply Rinv_le_contravar; lra. }
  unfold Rdiv. nra.
Qed.

Lemma decay_factor_range (days hl : Z) :
  (0 <= days)%Z → (0 < hl)%Z →
  0 <= round (Rpower (1 / 2) (round (IZR days / IZR hl))) <= 1.
Proof.
  intros Hd Hh. pose proof (quotient_range days hl Hd Hh) as [Hq _].
  pose proof (round_nonneg _ Hq) as Hr.
  split.
  - apply round_nonneg. left. apply Rpower_half_pos.
  - apply Rle_trans with (round 1); [|rewrite (round_IZR 1) by lia; lra].
    apply round_le. now apply Rpower_half_le_1.
Qed.

Lemma weight_range (days hl : Z) (m : R) :
  (0 <= days)%Z → (0 < hl)%Z → 0 <= m → round m = m →
  0 <= weight days hl m <= m.
Proof.
  intros Hd Hh Hm Hrm. pose proof (decay_factor_range days hl Hd Hh) as [H0 H1].
  unfold weight. split.
  - apply round_nonneg. nra.
  - rewrite <- Hrm at 2. apply round_le. nra.
Qed.

Lemma weight_le (days days' hl : Z) (m : R) :
  (days <= days')%Z → (0 < hl)%Z → 0 <= m →
  weight days' hl m <= weight days hl m.
Proof.
  intros Hd Hh Hm. unfold weight. apply round_le.
  apply Rmult_le_compat_r; [exact Hm|]. apply round_le, half_power_le, round_le.
  apply IZR_le in Hd. assert (0 < / IZR hl) by (apply Rinv_0_lt_compat, IZR_lt; lia).
  unfold Rdiv. nra.
Qed.

Lemma weight_zero (days hl : Z) (m : R) :
  (0 < hl)%Z → (1075 * hl <= days)%Z → weight days hl m = 0.
Proof.
  intros Hh Hd. unfold weight.
  assert (1075 <= round (IZR days / IZR hl)) as Hq.
  { apply Rle_trans with (round 1075); [rewrite (round_IZR 1075) by lia; lra|].
    apply round_le. apply IZR_le in Hd. rewrite mult_IZR in Hd.
    assert (0 < IZR hl) as H by (apply IZR_lt; lia).
    apply Rmult_le_reg_r with (IZR hl); [exact H|].
    unfold Rdiv. rewrite Rmult_assoc, Rinv_l, Rmult_1_r by lra. exact Hd. }
  rewrite (round_tiny (Rpower (1 / 2) _)).
  - rewrite Rmult_0_l. apply round_0.
  - rewrite Rabs_pos_eq by (left; apply Rpower_half_pos).
    change (powerRZ 2 (-1075)) with (powerRZ 2 (Z.opp 1075)).
    rewrite <- half_power_pow2. now apply half_power_le.
Qed.

Lemma weight_today (hl : Z) (m : R) : round m = m → weight 0 hl m = m.
Proof.
  intros Hm. unfold weight. unfold Rdiv. rewrite Rmult_0_l, round_0.
  rewrite Rpower_O by lra. rewrite (round_IZR 1) by lia. now rewrite Rmult_1_l.
Qed.

(** A rounded value in the normal range, as a factor. *)
Lemma round_factor (x : R) :
  powerRZ 2 (-1022) <= x →
  x * (1 - powerRZ 2 (-53)) <= round x <= x * (1 + powerRZ 2 (-53)).
Proof.
  intros H. pose proof (pow2_pos (-1022)).
  pose proof (round_error x) as He. rewrite Rabs_pos_eq in He by lra.
  specialize (He H). apply Rabs_le_inv in He. lra.
Qed.

(** Within 1000 half-lives the weight is the exact product
    0.5^(days / hl) * m to within one part in 2^40. *)
Lemma weight_accuracy (days hl : Z) (m : R) :
  (0 <= days <= 1000 * hl)%Z → (0 < hl <= 90)%Z → 0.75 <= m <= 3 → round m = m →
  let exact := Rpower (1 / 2) (IZR days / IZR hl) * m in
  exact * (1 - / 2 ^ 40) <= weight days hl m <= exact * (1 + / 2 ^ 40).
Proof.
  intros [Hd0 Hd1] [Hh0 Hh1] Hm Hrm exact.
  pose proof (Rpower_half_pos (IZR days / IZR hl)) as Hpos.
  destruct (Z.eq_dec days 0%Z) as [-> | Hne].
  { rewrite weight_today by exact Hrm. unfold exact, Rdiv.
    rewrite Rmult_0_l, Rpower_O by lra.
    assert (0 < / 2 ^ 40) by (apply Rinv_0_lt_compat; lra). nra. }
  set (q0 := IZR days / IZR hl) in *.
  set (ε := powerRZ 2 (-53)).
  assert (ε = / 9007199254740992) as Hε by apply eps_value.
  assert (0 < IZR hl <= 90) as [Hhl0 Hhl1]
    by (split; [apply IZR_lt | apply IZR_le]; lia).
  assert (/ 90 <= q0 <= 1000) as [Hq0 Hq1].
  { unfold q0, Rdiv. split.
    - assert (1 <= IZR days) by (apply IZR_le; lia).
      assert (/ 90 <= / IZR hl) by (apply Rinv_le_contravar; lra).
      assert (0 < / IZR hl) by (apply Rinv_0_lt_compat; lra). nra.
    - apply IZR_le in Hd1. rewrite mult_IZR in Hd1.
      apply Rmult_le_reg_r with (IZR hl); [exact Hhl0|].
      rewrite Rmult_assoc, Rinv_l, Rmult_1_r by lra. exact Hd1. }
  assert (powerRZ 2 (-1022) <= / 128) as Hmin.
  { replace (/ 128) with (powerRZ 2 (-7)) by (simpl; lra). apply pow2_le. lia. }
  (* the quotient *)
  pose proof (round_factor q0 ltac:(lra)) as [Hql Hqh]. fold ε in Hql, Hqh.
  set (q := round q0) in *.
  assert (Rabs (q - q0) <= 1000 * ε) as Hdq by (apply Rabs_le; nra).
  (* the power *)
  pose proof (half_power_near (q - q0) (1000 * ε) Hdq ltac:(lra)) as [Hrl Hrh].
  assert (Rpower (1 / 2) q = Rpower (1 / 2) q0 * Rpower (1 / 2) (q - q0)) as HP
    by (rewrite <- half_power_add; f_equal; lra).
  set (r := Rpower (1 / 2) (q - q0)) in *.
  assert (powerRZ 2 (-1000) <= Rpower (1 / 2) q0) as Hfloor.
  { change (powerRZ 2 (-1000)) with (powerRZ 2 (Z.opp 1000)).
    rewrite <- half_power_pow2. now apply half_power_le. }
  assert (powerRZ 2 (-1000) = powerRZ 2 (-1022) * 4194304) as Hsplit.
  { replace 4194304 with (powerRZ 2 22) by (rewrite pow2_IZR by lia; reflexivity).
    rewrite <- pow2_add. reflexivity. }
  pose proof (pow2_pos (-1022)) as Htiny.
  set (E0 := Rpower (1 / 2) q0) in *.
  set (P := Rpower (1 / 2) q) in *.
  assert (/ (1 - 1000 * ε) <= 1 + 2000 * ε) as Hinv.
  { apply Rmult_le_reg_r with (1 - 1000 * ε); [lra|].
    rewrite Rinv_l by lra. nra. }
  assert (E0 * (1 - 1000 * ε) <= P <= E0 * (1 + 2000 * ε)) as [HPl HPh].
  { rewrite HP. split; nra. }
  assert (powerRZ 2 (-1022) * 1024 <= P) as HPmin by nra.
  pose proof (round_factor P ltac:(nra)) as [Hpl Hph]. fold ε in Hpl, Hph.
  set (p := round P) in *.
  (* the product *)
  assert (powerRZ 2 (-1022) <= p * m) as Hxmin by nra.
  pose proof (round_factor (p * m) Hxmin) as [Hwl Hwh]. fold ε in Hwl, Hwh.
  change (weight days hl m) with (round (p * m)).
  set (w := round (p * m)) in *.
  unfold exact.
  assert (/ 2 ^ 40 = / 1099511627776) as -> by (f_equal; lra).
  assert (0 < E0) as HE0 by (unfold E0; apply Rpower_half_pos).
  split.
  - apply Rle_trans with (E0 * (1 - 1000 * ε) * (1 - ε) * m * (1 - ε)).
    + rewrite Hε. nra.
    + apply Rle_trans with (p * m * (1 - ε)); [|exact Hwl].
      apply Rmult_le_compat_r; [lra|]. apply Rmult_le_compat_r; [lra|].
      apply Rle_trans with (P * (1 - ε)); [|exact Hpl].
      apply Rmult_le_compat_r; [lra | exact HPl].
  - apply Rle_trans with (E0 * (1 + 2000 * ε) * (1 + ε) * m * (1 + ε)).
    + apply Rle_trans with (p * m * (1 + ε)); [exact Hwh|].
      apply Rmult_le_compat_r; [lra|]. apply Rmult_le_compat_r; [lra|].
      apply Rle_trans with (P * (1 + ε)); [exact Hph|].
      apply Rmult_le_compat_r; [lra | exact HPh].
    + rewrite Hε. nra.
Qed.

(** Within 1000 half-lives one more day weighs strictly less. *)
Lemma weight_lt (days days' hl : Z) (m : R) :
  (0 <= days < days')%Z → (days' <= 1000 * hl)%Z → (0 < hl <= 90)%Z →
  0.75 <= m <= 3 → round m = m →
  weight days' hl m < weight days hl m.
Proof.
  intros [Hd0 Hlt] Hd1 Hh Hm Hrm.
  pose proof (weight_accuracy days hl m ltac:(lia) Hh Hm Hrm) as [Hlo _].
  pose proof (weight_accuracy days' hl m ltac:(lia) Hh Hm Hrm) as [_ Hhi].
  cbv zeta in Hlo, Hhi.
  assert (0 < IZR hl <= 90) as [Hhl0 Hhl1]
    by (split; [apply IZR_lt | apply IZR_le]; lia).
  assert (IZR days' / IZR hl
          = IZR days / IZR hl + IZR (days' - days) / IZR hl) as Hsplit
    by (rewrite minus_IZR; field; lra).
  rewrite Hsplit, half_power_add in Hhi.
  assert (/ 90 <= IZR (days' - days) / IZR hl) as Hstep.
  { assert (1 <= IZR (days' - days)) by (apply IZR_le; lia).
    assert (/ 90 <= / IZR hl) by (apply Rinv_le_contravar; lra).
    assert (0 < / IZR hl) by (apply Rinv_0_lt_compat; lra).
    unfold Rdiv. nra. }
  pose proof (half_power_step _ Hstep) as Hs.
  pose proof (Rpower_half_pos (IZR (days' - days) / IZR hl)) as Hs0.
  pose proof (Rpower_half_pos (IZR days / IZR hl)) as HE.
  set (E := Rpower (1 / 2) (IZR days / IZR hl)) in *.
  set (s := Rpower (1 / 2) (IZR (days' - days) / IZR hl)) in *.
  assert (/ 2 ^ 40 = / 1099511627776) as Hη by (f_equal; lra).
  rewrite Hη in Hlo, Hhi.
  assert (0 < E * m) as HEm by nra.
  apply Rle_lt_trans with (E * s * m * (1 + / 1099511627776)); [exact Hhi|].
  apply Rlt_le_trans with (E * m * (1 - / 1099511627776)); [|exact Hlo].
  assert (E * s * m <= E * m * (180 / 181)) as Hprod by nra.
  nra.
Qed.

End scoring64_weight.

Module scoring64_calls.

Import py event_store scoring terms real_facts scoring_facts examples.
Import binary64 binary64_facts binary64_round scoring64 scoring64_facts.
Import scoring64_weight.
Local Open Scope string_scope.
Local Open Scope R_scope.

Lemma of_real_below (x : R) : Rabs x < powerRZ 2 1023 → of_real x = Finite (round x).
Proof.
  intros H. unfold of_real. pose proof threshold_large.
  destruct (Rle_dec overflow_threshold (Rabs x)); [lra | reflexivity].
Qed.

Lemma of_real_above (x : R) : powerRZ 2 1024 <= x → of_real x = Infinity false.
Proof.
  intros H. unfold of_real, overflow_threshold.
  pose proof (pow2_pos 970). pose proof (pow2_pos 1024).
  rewrite Rabs_pos_eq by lra.
  destruct (Rle_dec _ _) as [_|n]; [|lra].
  destruct (Rlt_dec x 0); [lra | reflexivity].
Qed.

Lemma quotient_abs (days hl : Z) :
  (0 < hl)%Z → Rabs (IZR days / IZR hl) <= Rabs (IZR days).
Proof.
  intros Hh. assert (1 <= IZR hl) as H1 by (apply IZR_le; lia).
  unfold Rdiv. rewrite Rabs_mult, (Rabs_pos_eq (/ IZR hl)).
  - assert (/ IZR hl <= 1) by (rewrite <- Rinv_1; apply Rinv_le_contravar; lra).
    pose proof (Rabs_pos (IZR days)). nra.
  - left. apply Rinv_0_lt_compat. lra.
Qed.

Lemma quotient_ge (days hl k : Z) :
  (0 < hl)%Z → (k * hl <= days)%Z → IZR k <= IZR days / IZR hl.
Proof.
  intros Hh Hd. apply IZR_le in Hd. rewrite mult_IZR in Hd.
  assert (0 < IZR hl) as H by (apply IZR_lt; lia).
  apply Rmult_le_reg_r with (IZR hl); [exact H|].
  unfold Rdiv. rewrite Rmult_assoc, Rinv_l, Rmult_1_r by lra. exact Hd.
Qed.

Lemma quotient_le (days hl k : Z) :
  (0 < hl)%Z → (days <= k * hl)%Z → IZR days / IZR hl <= IZR k.
Proof.
  intros Hh Hd. apply IZR_le in Hd. rewrite mult_IZR in Hd.
  assert (0 < IZR hl) as H by (apply IZR_lt; lia).
  apply Rmult_le_reg_r with (IZR hl); [exact H|].
  unfold Rdiv. rewrite Rmult_assoc, Rinv_l, Rmult_1_r by lra. exact Hd.
Qed.

(** The decay factor of a release at most 1000 half-lives ahead. *)
Lemma decay_bound (days hl : Z) :
  (0 < hl)%Z → (-1000 * hl <= days)%Z →
  0 < Rpower (1 / 2) (round (IZR days / IZR hl)) <= powerRZ 2 1000
  ∧ 0 <= round (Rpower (1 / 2) (round (IZR days / IZR hl))) <= powerRZ 2 1000.
Proof.
  intros Hh Hd.
  assert (-1000 <= round (IZR days / IZR hl)) as Hq.
  { rewrite <- (round_IZR (-1000)) by lia. apply round_le.
    now apply (quotient_ge days hl (-1000)). }
  assert (Rpower (1 / 2) (round (IZR days / IZR hl)) <= powerRZ 2 1000) as Hp.
  { change 1000%Z with (Z.opp (-1000)). rewrite <- half_power_pow2.
    now apply half_power_le. }
  pose proof (Rpower_half_pos (round (IZR days / IZR hl))) as Hpos.
  repeat split; try assumption.
  - apply round_nonneg. lra.
  - rewrite <- (round_pow2 1000) by lia. now apply round_le.
Qed.

Lemma decay_weight_value (now : datetime.t) (release_time freq impact : string)
      (rt : datetime.t) :
  datetime.fromisoformat release_time = Ok rt →
  datetime.aware rt → datetime.aware now →
  (-1000 * half_life freq <= days_elapsed now rt)%Z →
  (-999999999 <= days_elapsed now rt <= 999999999)%Z →
  scoring64.decay_weight now release_time freq impact
  = Ok (Finite (weight (days_elapsed now rt) (half_life freq)
                       (impact_multiplier impact))).
Proof.
  intros Hp [o1 H1] [o2 H2] Hlo [Hd0 Hd1].
  pose proof (half_life_pos freq) as Hh.
  pose proof (impact_multiplier_range impact) as Hm.
  pose proof (decay_bound _ _ Hh Hlo) as [[Hp0 Hp1] [Hr0 Hr1]].
  pose proof (pow2_lt 1000 1023 ltac:(lia)) as Hlt.
  unfold scoring64.decay_weight. rewrite Hp.
  change (Ok rt ≫= ?k) with (k rt). cbv beta.
  unfold datetime.sub. rewrite H1, H2.
  change (Ok ?d ≫= ?k) with (k d). cbv beta zeta.
  fold (days_elapsed now rt). fold (half_life freq). fold (impact_multiplier impact).
  unfold int_truediv.
  destruct (Z.eqb_spec (half_life freq) 0) as [E|_]; [lia|].
  rewrite of_real_finite.
  2:{ apply Rle_lt_trans with (Rabs (IZR (days_elapsed now rt)));
        [now apply quotient_abs|].
      rewrite pow2_53. apply Rabs_def1.
      - apply IZR_le in Hd1. lra.
      - apply IZR_le in Hd0. lra. }
  change (Ok ?d ≫= ?k) with (k d). cbv beta.
  unfold pow_half. rewrite of_real_below.
  2:{ rewrite Rabs_pos_eq by lra. lra. }
  change (Ok ?d ≫= ?k) with (k d). cbv beta.
  unfold mul. rewrite of_real_below; [reflexivity|].
  rewrite Rabs_pos_eq by nra.
  pose proof (pow2_le 1002 1023 ltac:(lia)).
  replace 1002%Z with (1000 + 2)%Z in * by lia. rewrite pow2_add in *.
  change (powerRZ 2 2) with (2 * (2 * 1)) in *.
  pose proof (pow2_pos 1000). nra.
Qed.

(** A release 1024 half-lives ahead or more: [0.5 ** (days / hl)]
    overflows. *)
Lemma decay_weight_overflow (now : datetime.t) (release_time freq impact : string)
      (rt : datetime.t) :
  datetime.fromisoformat release_time = Ok rt →
  datetime.aware rt → datetime.aware now →
  (-999999999 <= days_elapsed now rt <= -1024 * half_life freq)%Z →
  scoring64.decay_weight now release_time freq impact
  = Raise (OverflowError "(34, 'Numerical result out of range')").
Proof.
  intros Hp [o1 H1] [o2 H2] [Hd0 Hd1].
  pose proof (half_life_pos freq) as Hh.
  unfold scoring64.decay_weight. rewrite Hp.
  change (Ok rt ≫= ?k) with (k rt). cbv beta.
  unfold datetime.sub. rewrite H1, H2.
  change (Ok ?d ≫= ?k) with (k d). cbv beta zeta.
  fold (days_elapsed now rt). fold (half_life freq). fold (impact_multiplier impact).
  unfold int_truediv.
  destruct (Z.eqb_spec (half_life freq) 0) as [E|_]; [lia|].
  rewrite of_real_finite.
  2:{ apply Rle_lt_trans with (Rabs (IZR (days_elapsed now rt)));
        [now apply quotient_abs|].
      rewrite pow2_53. apply Rabs_def1.
      - assert (days_elapsed now rt <= 0)%Z as H by lia. apply IZR_le in H. lra.
      - apply IZR_le in Hd0. lra. }
  change (Ok ?d ≫= ?k) with (k d). cbv beta.
  unfold pow_half. rewrite of_real_above; [reflexivity|].
  change 1024%Z with (Z.opp (-1024)). rewrite <- half_power_pow2.
  apply half_power_le.
  rewrite <- (round_IZR (-1024)) by lia. apply round_le.
  now apply (quotient_le _ _ (-1024)).
Qed.

(** The weight of a release that lies ahead exceeds the multiplier. *)
Lemma weight_future (days hl : Z) (m : R) :
  (days < 0)%Z → (0 < hl <= 90)%Z → 0.75 <= m →
  m < weight days hl m.
Proof.
  intros Hd [Hh0 Hh1] Hm.
  pose proof eps_value as Heps.
  assert (powerRZ 2 (-1022) <= / 128) as Hmin.
  { replace (/ 128) with (powerRZ 2 (-7)); [apply pow2_le; lia|].
    change (powerRZ 2 (-7)) with (powerRZ 2 (Z.opp 7)).
    rewrite pow2_opp, pow2_IZR by lia. reflexivity. }
  pose proof (pow2_pos (-1022)) as Hmin0.
  (* the quotient *)
  assert (IZR days / IZR hl <= - / 90) as Hq.
  { assert (IZR days <= -1) by (apply IZR_le; lia).
    assert (0 < IZR hl <= 90) as [? ?] by (split; [apply IZR_lt | apply IZR_le]; lia).
    assert (/ 90 <= / IZR hl) by (apply Rinv_le_contravar; lra).
    unfold Rdiv. nra. }
  assert (round (IZR days / IZR hl) <= - / 91) as Hrq.
  { apply Rle_trans with (round (- / 90)); [now apply round_le|].
    rewrite round_opp.
    pose proof (round_factor (/ 90) ltac:(lra)) as [Hlo _].
    rewrite Heps in Hlo. lra. }
  (* the power *)
  assert (1 + / 182 <= Rpower (1 / 2) (round (IZR days / IZR hl))) as Hp.
  { apply Rle_trans with (Rpower (1 / 2) (- / 91)); [|now apply half_power_le].
    rewrite half_power_exp.
    pose proof (exp_ineq1_le (- (- / 91 * ln 2))) as H. pose proof ln_lt_2. lra. }
  assert (1 + / 200 <= round (Rpower (1 / 2) (round (IZR days / IZR hl)))) as Hrp.
  { apply Rle_trans with (round (1 + / 182)); [|now apply round_le].
    pose proof (round_factor (1 + / 182) ltac:(lra)) as [Hlo _].
    rewrite Heps in Hlo. lra. }
  (* the product *)
  unfold weight.
  set (p := round (Rpower (1 / 2) (round (IZR days / IZR hl)))) in *.
  pose proof (round_factor (p * m) ltac:(nra)) as [Hlo _].
  rewrite Heps in Hlo. nra.
Qed.

End scoring64_calls.

(** ** Claims about [surprise] and [decay_weight] *)

Section scoring_claims.

Import py event_store scoring terms real_facts scoring_facts examples.
Import binary64 binary64_facts binary64_round scoring64_facts scoring64_weight
       scoring64_calls.
Local Open Scope string_scope.
Local Open Scope R_scope.

(** C7 (as amended).  For a release that is not in the future the number
    of elapsed whole days is non-negative and [decay_weight], evaluated
    in binary64, returns a finite weight in [0, impact_multiplier], which
    never increases with the elapsed days (same frequency and impact
    class).  Up to 1000 half-lives the weight is positive, agrees with
    0.5 ^ (days_elapsed / half_life(freq)) * impact_multiplier(impact) to
    within one part in 2^40, and is strictly smaller for a release with
    more elapsed whole days; from 1075 half-lives on it is exactly 0.
    999999999 is the greatest number of days of a [timedelta]. *)
Theorem C7_decay_weight
        (now : datetime.t) (release_time freq impact : string) (rt : datetime.t) :
  datetime.fromisoformat release_time = Ok rt →
  datetime.aware rt →
  datetime.aware now →
  (datetime.instant rt <= datetime.instant now)%Z →
  (days_elapsed now rt <= 999999999)%Z →
  let days := days_elapsed now rt in
  let exact := Rpower (1 / 2) (IZR days / IZR (half_life freq))
               * impact_multiplier impact in
  (0 <= days)%Z
  ∧ ∃ w : R,
      scoring64.decay_weight now release_time freq impact = Ok (Finite w)
      ∧ 0 <= w <= impact_multiplier impact
      ∧ ((days <= 1000 * half_life freq)%Z →
         0 < w ∧ Rabs (w - exact) <= exact / 2 ^ 40)
      ∧ ((1075 * half_life freq <= days)%Z → w = 0)
      ∧ ∀ (now' : datetime.t) (release_time' : string) (rt' : datetime.t) (w' : R),
          datetime.fromisoformat release_time' = Ok rt' →
          datetime.aware rt' →
          datetime.aware now' →
          (days_elapsed now' rt' <= 999999999)%Z →
          scoring64.decay_weight now' release_time' freq impact = Ok (Finite w') →
          ((days <= days_elapsed now' rt')%Z → w' <= w)
          ∧ ((days < days_elapsed now' rt' <= 1000 * half_life freq)%Z → w' < w).
Proof.
  intros Hp Hrt Hnow Hle Hmax days exact.
  pose proof (days_elapsed_nonneg now rt Hle) as Hdays. fold days in Hdays.
  pose proof (half_life_pos freq) as Hh.
  assert (half_life freq <= 90)%Z as Hh90
    by (destruct (half_life_cases freq) as [-> | [-> | [-> | ->]]]; lia).
  pose proof (impact_multiplier_range impact) as Hm.
  pose proof (round_impact_multiplier impact) as Hrm.
  split; [exact Hdays|].
  exists (scoring64.weight days (half_life freq) (impact_multiplier impact)).
  split; [apply decay_weight_value; (assumption || lia)|].
  split; [apply weight_range; (assumption || lra)|].
  split; [|split].
  - intros Hrange.
    pose proof (weight_accuracy days (half_life freq) (impact_multiplier impact)
                  (conj Hdays Hrange) (conj Hh Hh90) Hm Hrm) as [Hlo Hhi].
    cbv zeta in Hlo, Hhi. fold exact in Hlo, Hhi.
    assert (0 < exact) as Hex
      by (unfold exact; pose proof (Rpower_half_pos (IZR days / IZR (half_life freq)));
          nra).
    assert (0 < / 2 ^ 40 < 1) as [Hη0 Hη1].
    { assert (/ 2 ^ 40 = / 1099511627776) as -> by (f_equal; lra). lra. }
    split; [nra|]. apply Rabs_le. unfold Rdiv. nra.
  - intros Hold. now apply weight_zero.
  - intros now' release_time' rt' w' Hp' Hrt' Hnow' Hmax' Hw'.
    split.
    + intros Hdd.
      rewrite (decay_weight_value now' release_time' freq impact rt' Hp' Hrt' Hnow')
        in Hw' by lia.
      injection Hw' as <-. apply weight_le; [exact Hdd | exact Hh | lra].
    + intros [Hlt Hrange].
      rewrite (decay_weight_value now' release_time' freq impact rt' Hp' Hrt' Hnow')
        in Hw' by lia.
      injection Hw' as <-. apply weight_lt; (assumption || lia).
Qed.

Lemma C7_decay_weight_witness :
  ∃ w : R,
    scoring64.decay_weight clock_2025 "2024-01-15T13:30:00Z" "m" "high"
    = Ok (Finite w)
    ∧ 0 < w <= 3
    ∧ Rabs (w - Rpower (1 / 2) (IZR 351 / IZR 45) * 3)
      <= Rpower (1 / 2) (IZR 351 / IZR 45) * 3 / 2 ^ 40.
Proof.
  destruct (C7_decay_weight clock_2025 "2024-01-15T13:30:00Z" "m" "high"
              release_instant eq_refl (ex_intro _ _ eq_refl)
              (ex_intro _ _ eq_refl))
    as (_ & w & Hw & Hrange & Hnear & _).
  - vm_compute. discriminate.
  - vm_compute. discriminate.
  - exists w. split; [exact Hw|].
    assert (351 <= 1000 * half_life "m")%Z as Hd by (vm_compute; discriminate).
    destruct (Hnear Hd) as [Hpos Hacc].
    split; [split; [exact Hpos | exact (proj2 Hrange)] | exact Hacc].
Defined.

(** The clock at 2025-01-01: a weekly release of 1983-10-19 is 15050
    days old, which is 1075 half-lives, and its weight is exactly 0; the
    release of 1983-10-05 is 14 days older and weighs 0 as well.  Neither
    weight is positive, and the older one is not strictly smaller. *)
Lemma C7_decay_weight_underflow_counterexample :
  days_elapsed clock_2025 (datetime.utc 1983 10 19 0 0 0 0) = 15050%Z
  ∧ days_elapsed clock_2025 (datetime.utc 1983 10 5 0 0 0 0) = 15064%Z
  ∧ scoring64.decay_weight clock_2025 "1983-10-19T00:00:00+00:00" "w" "high"
    = Ok (Finite 0)
  ∧ scoring64.decay_weight clock_2025 "1983-10-05T00:00:00+00:00" "w" "high"
    = Ok (Finite 0).
Proof.
  split; [reflexivity|]. split; [reflexivity|]. split.
  - rewrite (decay_weight_value clock_2025 "1983-10-19T00:00:00+00:00" "w" "high"
               (datetime.utc 1983 10 19 0 0 0 0) eq_refl
               (ex_intro _ _ eq_refl) (ex_intro _ _ eq_refl))
      by (vm_compute; try split; discriminate).
    do 2 f_equal. apply weight_zero; [reflexivity | vm_compute; discriminate].
  - rewrite (decay_weight_value clock_2025 "1983-10-05T00:00:00+00:00" "w" "high"
               (datetime.utc 1983 10 5 0 0 0 0) eq_refl
               (ex_intro _ _ eq_refl) (ex_intro _ _ eq_refl))
      by (vm_compute; try split; discriminate).
    do 2 f_equal. apply weight_zero; [reflexivity | vm_compute; discriminate].
Qed.

(** C9 (as amended).  With a consensus present, [surprise] returns
    actual - consensus in absolute mode (any direction other than
    "relative"), and (actual / consensus) - 1 in relative mode when the
    consensus is not zero; without a consensus it returns 0 in either
    mode and raises nothing. *)
Theorem C9_surprise (ev : Event) :
  (∀ (c : R) (direction : string),
     consensus ev = Some c → direction ≠ "relative" →
     surprise ev direction = Ok (actual ev - c))
  ∧ (∀ c : R,
       consensus ev = Some c → c ≠ 0 →
       surprise ev "relative" = Ok (actual ev / c - 1))
  ∧ (consensus ev = None → ∀ direction : string, surprise ev direction = Ok 0).
Proof.
  split; [|split].
  - intros c direction. apply surprise_absolute.
  - apply surprise_relative.
  - intros H direction. now apply surprise_no_consensus.
Qed.

Lemma C9_surprise_witness :
  surprise test_event "absolute" = Ok (3.2 - 3.1)
  ∧ surprise test_event "relative" = Ok (3.2 / 3.1 - 1).
Proof.
  split.
  - apply (proj1 (C9_surprise test_event) 3.1 "absolute" eq_refl). discriminate.
  - apply (proj1 (proj2 (C9_surprise test_event)) 3.1 eq_refl). lra.
Defined.

(** C9 (counterexample).  In relative mode an event whose consensus is
    present and equal to zero makes [surprise] raise
    [ZeroDivisionError]: no value is returned. *)
Lemma C9_surprise_zero_consensus_counterexample :
  consensus zero_consensus_event = Some 0
  ∧ surprise zero_consensus_event "relative"
    = Raise (ZeroDivisionError "float division by zero")
  ∧ surprise zero_consensus_event "relative"
    ≠ Ok (actual zero_consensus_event / 0 - 1).
Proof.
  assert (surprise zero_consensus_event "relative"
          = Raise (ZeroDivisionError "float division by zero"))
    as H by now apply surprise_relative_zero.
  split; [reflexivity|]. split; [exact H|]. rewrite H. discriminate.
Qed.

End scoring_claims.

(** ** Facts about [int] and [convert_score] *)

Module converter_facts.

Import ScoreConverter terms real_facts.
Local Open Scope R_scope.

Lemma Int_part_bounds (x : R) : IZR (Int_part x) <= x < IZR (Int_part x) + 1.
Proof. pose proof (base_Int_part x). lra. Qed.

Lemma Int_part_unique (x : R) (n : Z) : IZR n <= x < IZR n + 1 → Int_part x = n.
Proof. intros H. symmetry. apply Int_part_spec. lra. Qed.

Lemma Int_part_mono (x y : R) : x <= y → (Int_part x <= Int_part y)%Z.
Proof.
  intros H.
  pose proof (Int_part_bounds x). pose proof (Int_part_bounds y).
  assert (IZR (Int_part x) < IZR (Int_part y + 1)) as Hlt
      by (rewrite plus_IZR; lra).
  apply lt_IZR in Hlt. lia.
Qed.

Lemma Int_part_nonneg (x : R) : 0 <= x → (0 <= Int_part x)%Z.
Proof.
  intros H. rewrite <- (Int_part_unique 0 0) by lra. now apply Int_part_mono.
Qed.

(** [int] truncates toward zero. *)
Lemma int_nonneg (x : R) : 0 <= x → IZR (int x) <= x < IZR (int x) + 1.
Proof.
  intros H. unfold int. destruct (Rle_dec 0 x); [|lra]. apply Int_part_bounds.
Qed.

Lemma int_nonpos (x : R) : x <= 0 → IZR (int x) - 1 < x <= IZR (int x).
Proof.
  intros H. unfold int. destruct (Rle_dec 0 x) as [H0|H0].
  - assert (x = 0) as -> by lra. rewrite (Int_part_unique 0 0); simpl; lra.
  - pose proof (Int_part_bounds (- x)). rewrite opp_IZR. lra.
Qed.

Lemma int_IZR (n : Z) : int (IZR n) = n.
Proof.
  unfold int. destruct (Rle_dec 0 (IZR n)).
  - apply Int_part_unique. lra.
  - rewrite <- opp_IZR, (Int_part_unique (IZR (- n)) (- n)) by lra. lia.
Qed.

Lemma int_mono (x y : R) : x <= y → (int x <= int y)%Z.
Proof.
  intros H. unfold int.
  destruct (Rle_dec 0 x) as [Hx|Hx], (Rle_dec 0 y) as [Hy|Hy]; try lra.
  - now apply Int_part_mono.
  - assert (0 <= Int_part (- x))%Z by (apply Int_part_nonneg; lra).
    assert (0 <= Int_part y)%Z by (apply Int_part_nonneg; lra).
    lia.
  - assert (Int_part (- y) <= Int_part (- x))%Z by (apply Int_part_mono; lra).
    lia.
Qed.

Lemma clamp_range (x : R) : -2 <= clamp x <= 2.
Proof.
  unfold clamp. split; [apply Rmax_l|].
  apply Rmax_lub; [lra | apply Rmin_l].
Qed.

Lemma clamp_mono (x y : R) : x <= y → clamp x <= clamp y.
Proof.
  intros H. unfold clamp.
  apply Rle_max_compat_l, Rle_min_compat_l, H.
Qed.

Lemma clamp_id (x : R) : -2 <= x <= 2 → clamp x = x.
Proof.
  intros H. unfold clamp. rewrite Rmin_right by lra. apply Rmax_right. lra.
Qed.

(** The scaled and truncated score is already within [-24, 24]. *)
Lemma int_scaled_range (x : R) : (-24 <= int (clamp x * 12) <= 24)%Z.
Proof.
  pose proof (clamp_range x) as [Hl Hu].
  split.
  - replace (-24)%Z with (int (IZR (-24))) by apply int_IZR.
    apply int_mono. lra.
  - replace 24%Z with (int (IZR 24)) by apply int_IZR.
    apply int_mono. lra.
Qed.

Lemma convert_score_eq (x : R) : convert_score x = int (clamp x * 12).
Proof.
  unfold convert_score. fold (clamp x).
  pose proof (int_scaled_range x). lia.
Qed.

Lemma convert_score_mono (x y : R) : x <= y → (convert_score x <= convert_score y)%Z.
Proof.
  intros H. rewrite !convert_score_eq. apply int_mono.
  pose proof (clamp_mono x y H). lra.
Qed.

Lemma convert_score_IZR (x : R) (n : Z) :
  -2 <= x <= 2 → x * 12 = IZR n → convert_score x = n.
Proof.
  intros Hx Hn. rewrite convert_score_eq, clamp_id, Hn by exact Hx.
  apply int_IZR.
Qed.

(** *** The worked example: 2 tanh 5 *)

Lemma exp_5_lower : 32 < exp 5.
Proof.
  assert (2 < exp 1) as H1 by (pose proof (exp_ineq1 1); lra).
  replace 5 with (1 + (1 + (1 + (1 + 1)))) by lra.
  rewrite !exp_plus. set (e := exp 1) in *.
  assert (4 < e * e) as H2 by nra.
  assert (8 < e * (e * e)) as H3 by nra.
  assert (16 < e * (e * (e * e))) as H4 by nra.
  nra.
Qed.

Lemma tanh_5_bounds : 47 / 48 < tanh 5 < 1.
Proof.
  split; [|apply tanh_bounds].
  unfold tanh, sinh, cosh.
  pose proof exp_5_lower as Ha. pose proof (exp_pos (Ropp 5)) as Hb.
  assert (exp (Ropp 5) * exp 5 = 1) as Hab.
  { rewrite <- exp_plus. replace (Ropp 5 + 5) with 0 by lra. apply exp_0. }
  set (a := exp 5) in *. set (b := exp (Ropp 5)) in *.
  assert (b < 1 / 32) as Hb' by nra.
  assert (0 < (a + b) / 2) as Hc by lra.
  apply (Rmult_lt_reg_r ((a + b) / 2)); [exact Hc|].
  unfold Rdiv at 3. rewrite Rmult_assoc, Rinv_l by lra. lra.
Qed.

Lemma convert_score_2_tanh_5 : convert_score (2 * tanh 5) = 23%Z.
Proof.
  pose proof tanh_5_bounds as [Hl Hu].
  rewrite convert_score_eq, clamp_id by lra.
  unfold int. destruct (Rle_dec 0 (2 * tanh 5 * 12)); [|lra].
  apply Int_part_unique. lra.
Qed.

Lemma spec_convert_2_tanh_5 : spec_converter.convert (2 * tanh 5) = 24%Z.
Proof.
  pose proof tanh_5_bounds as [Hl Hu].
  unfold spec_converter.convert. fold (clamp (2 * tanh 5)).
  rewrite clamp_id by lra.
  unfold spec_converter.round.
  rewrite (Int_part_unique (2 * tanh 5 * 12) 23) by lra.
  destruct (Rlt_dec _ _) as [H|H]; [lra|].
  destruct (Rlt_dec _ _) as [H'|H']; [reflexivity | lra].
Qed.

End converter_facts.

(** ** Claims about the Scale Converter *)

Section converter_claims.

Import ScoreConverter terms converter_facts.
Local Open Scope R_scope.

(** C5 (as amended).  For every real x, [convert_score] returns
    clamp(x, -2, 2) * 12 truncated toward zero: the integer between 0 and
    the scaled score that is nearest to the scaled score.  The result is
    already within [-24, 24], so the final clamp changes nothing.  The
    worked example 2 tanh 5 converts to 23. *)
Theorem C5_convert_score_truncates (x : R) :
  let c := Rmax (-2) (Rmin 2 x) in
  convert_score x = int (c * 12)
  ∧ (-24 <= convert_score x <= 24)%Z
  ∧ (0 <= c → IZR (convert_score x) <= c * 12 < IZR (convert_score x) + 1)
  ∧ (c <= 0 → IZR (convert_score x) - 1 < c * 12 <= IZR (convert_score x))
  ∧ convert_score (2 * tanh 5) = 23%Z.
Proof.
  intros c. fold (clamp x) in c. subst c.
  rewrite convert_score_eq.
  split; [reflexivity|].
  split; [apply int_scaled_range|].
  split; [intros H; apply int_nonneg; lra|].
  split; [intros H; apply int_nonpos; lra|].
  apply convert_score_2_tanh_5.
Qed.

Lemma C5_convert_score_truncates_witness :
  IZR (convert_score 1.986) <= Rmax (-2) (Rmin 2 1.986) * 12
  < IZR (convert_score 1.986) + 1.
Proof.
  apply (proj1 (proj2 (proj2 (C5_convert_score_truncates 1.986)))).
  fold (clamp 1.986). rewrite clamp_id; lra.
Defined.

(** C5 (counterexample).  On the worked example 2 tanh 5 the code
    returns 23, whereas rounding to nearest gives 24. *)
Lemma C5_convert_score_round_counterexample :
  convert_score (2 * tanh 5) ≠ spec_converter.convert (2 * tanh 5)
  ∧ convert_score (2 * tanh 5) ≠ 24%Z.
Proof.
  rewrite convert_score_2_tanh_5, spec_convert_2_tanh_5. split; discriminate.
Qed.

(** C6.  [convert_score] maps -2 to -24, 0 to 0 and 2 to 24, and is
    monotonic non-decreasing over the reals. *)
Theorem C6_convert_score_fixed_points_monotone :
  convert_score (-2) = (-24)%Z
  ∧ convert_score 0 = 0%Z
  ∧ convert_score 2 = 24%Z
  ∧ ∀ x y : R, x <= y → (convert_score x <= convert_score y)%Z.
Proof.
  split; [apply convert_score_IZR; lra|].
  split; [apply convert_score_IZR; lra|].
  split; [apply convert_score_IZR; lra|].
  apply convert_score_mono.
Qed.

Lemma C6_convert_score_fixed_points_monotone_witness :
  (convert_score 0.5 <= convert_score 1.25)%Z.
Proof.
  apply (proj2 (proj2 (proj2 C6_convert_score_fixed_points_monotone))). lra.
Defined.

End converter_claims.

(** ** Claims about [category_score] *)

Section category_claims.

Import py event_store scoring terms scoring_facts examples.
Local Open Scope string_scope.
Local Open Scope R_scope.

Variable str : R → string.
Variable clock : nat → datetime.t.

(** *** The mode selection *)

Lemma percent_not_in_float_str (x : R) :
  float_str str → char_in "%" (str x) = false.
Proof.
  intros Hstr. destruct (char_in "%" (str x)) eqn:E; [|reflexivity].
  apply Hstr in E. vm_compute in E. discriminate.
Qed.

Lemma event_surprise_absolute (ev : Event) :
  float_str str →
  event_surprise str ev = Ok (absolute_mode.absolute_surprise ev).
Proof.
  intros Hstr. unfold event_surprise.
  rewrite percent_not_in_float_str by exact Hstr.
  unfold surprise, absolute_mode.absolute_surprise.
  now destruct (consensus ev).
Qed.

Lemma category_loop_absolute (events : list (Event * string)) :
  float_str str →
  ∀ (i : nat) (surprises weights : list R),
    category_loop str clock i events surprises weights
    = absolute_mode.category_loop clock i events surprises weights.
Proof.
  intros Hstr. induction events as [|[ev freq] rest IH]; intros i surprises weights.
  - reflexivity.
  - simpl. rewrite event_surprise_absolute by exact Hstr. simpl.
    destruct (decay_weight _ _ _ _) as [w|e]; simpl; [apply IH | reflexivity].
Qed.

(** *** The loop returns on well-formed input *)


(** *** The score *)





(** C10.  [str] of a float never contains a percent sign, so the loop
    never selects relative mode: every surprise is computed in absolute
    mode (actual - consensus, or 0 without a consensus) and
    [category_score] is the absolute-mode aggregator. *)
Theorem C10_relative_branch_unreachable (events : list (Event * string)) :
  float_str str →
  (∀ x : R, char_in "%" (str x) = false)
  ∧ (∀ ev : Event,
       event_surprise str ev = surprise ev "absolute"
       ∧ event_surprise str ev
         = Ok (match consensus ev with Some c => actual ev - c | None => 0 end))
  ∧ category_score str clock events = absolute_mode.category_score clock events.
Proof.
  intros Hstr. split; [|split].
  - intros x. now apply percent_not_in_float_str.
  - intros ev. split.
    + unfold event_surprise. now rewrite percent_not_in_float_str.
    + now apply event_surprise_absolute.
  - unfold category_score, absolute_mode.category_score.
    now rewrite category_loop_absolute.
Qed.

End category_claims.

Section category_witnesses.

Import py event_store scoring terms examples.
Local Open Scope string_scope.
Local Open Scope R_scope.

Lemma constant_str_float_str : float_str constant_str.
Proof.
  intros x c H. unfold constant_str in H. simpl in H.
  destruct (Ascii.eqb c "0") eqn:E0;
    [apply Ascii.eqb_eq in E0; subst c; reflexivity|].
  destruct (Ascii.eqb c ".") eqn:E1;
    [apply Ascii.eqb_eq in E1; subst c; reflexivity|].
  discriminate.
Qed.


Lemma C10_relative_branch_unreachable_witness :
  category_score constant_str constant_clock [(test_event, "m")]
  = absolute_mode.category_score constant_clock [(test_event, "m")].
Proof.
  exact (proj2 (proj2 (C10_relative_branch_unreachable constant_str constant_clock
                         [(test_event, "m")] constant_str_float_str))).
Defined.

End category_witnesses.

(* ===================================================================== *)
(** * Part III: further properties of the code                           *)
(* ===================================================================== *)

(** ** The event store: failures, composition, fetches *)

Module store_more.

Import py event_store terms text_facts store_facts order_facts examples.
Local Open Scope string_scope.

(** *** Sorted lists of rows are determined by their elements *)

Lemma StronglySorted_filter {A : Type} (R : relation A) (P : A → Prop)
      `{∀ x, Decision (P x)} (l : list A) :
  StronglySorted R l → StronglySorted R (filter P l).
Proof.
  induction 1 as [|a l Hs IH Hall]; [constructor|].
  rewrite filter_cons. destruct (decide (P a)); [|exact IH].
  constructor; [exact IH|].
  rewrite Forall_forall in Hall |- *. intros y Hy.
  apply list_elem_of_filter in Hy as [_ Hy]. now apply Hall.
Qed.

Lemma order_le_antisym_rows (db : table) (e1 e2 : Event) :
  e1 ∈ rows db → e2 ∈ rows db → series_id e1 = series_id e2 →
  order_le e1 e2 → order_le e2 e1 → e1 = e2.
Proof.
  rewrite !elem_of_rows, !order_le_iff. intros H1 H2 Hs Hle1 Hle2.
  assert (release_date e1 = release_date e2 ∧ vintage e1 = vintage e2)
    as [Hd Hv].
  { destruct Hle1 as [Hlt1 | [Hd1 Hv1]], Hle2 as [Hlt2 | [Hd2 Hv2]].
    - exfalso. eapply lt_irrefl, lt_trans; eassumption.
    - exfalso. rewrite Hd2 in Hlt1. now apply lt_irrefl in Hlt1.
    - exfalso. rewrite Hd1 in Hlt2. now apply lt_irrefl in Hlt2.
    - split; [exact Hd1|]. now apply String.leb_antisym. }
  assert (event_key e1 = event_key e2) as Hk by (unfold event_key; congruence).
  apply event_eq; [exact Hk | congruence].
Qed.

(** A list that is sorted by the fetch order, free of duplicates, and has
    the elements of a fetch, is that fetch. *)
Lemma fetch_events_unique now db series as_of (l : list Event) :
  StronglySorted order_le l → NoDup l →
  (∀ e, e ∈ l ↔ e ∈ fetch_events now db series as_of) →
  l = fetch_events now db series as_of.
Proof.
  intros Hs Hnd Hel.
  apply (StronglySorted_unique_strong order_le).
  - intros e1 e2 H1 H2. apply Hel in H1.
    apply elem_of_fetch_events in H1 as (R1 & S1 & _).
    apply elem_of_fetch_events in H2 as (R2 & S2 & _).
    apply (order_le_antisym_rows db); [done | done | congruence].
  - exact Hs.
  - apply StronglySorted_fetch_events.
  - apply NoDup_Permutation; [exact Hnd | apply NoDup_fetch_events | exact Hel].
Qed.

(** *** Failures of [add_event] *)



(** *** How [add_event] calls compose *)

(** Whether [add_event] accepts an event depends on the event and the
    clock only, not on the table: the table after the call is the table
    before it, with the event's row written if the call is accepted. *)
Lemma add_event_table (now : datetime.t) (db : table) (ev : Event) :
  (add_event now db ev).1
  = match (add_event now init_db ev).2 with
    | Ok _ => <[event_key ev := event_columns ev]> db
    | Raise _ => db
    end.
Proof.
  unfold add_event.
  destruct (datetime.fromisoformat (release_time_utc ev)) as [rt|e]; simpl;
    [|reflexivity].
  destruct (datetime.compare rt now) as [[| |]|e]; reflexivity.
Qed.

Lemma add_event_outcome (now : datetime.t) (db : table) (ev : Event) :
  (add_event now db ev).2 = (add_event now init_db ev).2.
Proof.
  unfold add_event.
  destruct (datetime.fromisoformat (release_time_utc ev)) as [rt|e]; simpl;
    [|reflexivity].
  destruct (datetime.compare rt now) as [[| |]|e]; reflexivity.
Qed.

(** X2.  Two [add_event] calls on different keys commute, whatever their
    outcomes; two accepted calls on the same key leave the row of the
    second (last writer wins). *)
Theorem add_event_compose (now1 now2 : datetime.t) (db : table) (e1 e2 : Event) :
  (event_key e1 ≠ event_key e2 →
   (add_event now2 (add_event now1 db e1).1 e2).1
   = (add_event now1 (add_event now2 db e2).1 e1).1)
  ∧ (event_key e1 = event_key e2 →
     (add_event now2 db e2).2 = Ok () →
     (add_event now2 (add_event now1 db e1).1 e2).1 = (add_event now2 db e2).1).
Proof.
  split.
  - intros Hk.
    rewrite (add_event_table now2 (add_event now1 db e1).1),
            (add_event_table now1 (add_event now2 db e2).1),
            (add_event_table now1 db), (add_event_table now2 db).
    destruct (add_event now1 init_db e1).2, (add_event now2 init_db e2).2;
      try reflexivity.
    now apply insert_insert_ne.
  - intros Hk Hok. rewrite add_event_outcome in Hok.
    rewrite (add_event_table now2 (add_event now1 db e1).1),
            (add_event_table now1 db), (add_event_table now2 db), Hok.
    destruct (add_event now1 init_db e1).2; [|reflexivity].
    rewrite Hk. apply insert_insert_eq.
Qed.

Lemma add_event_compose_witness :
  (add_event clock_2025 (add_event clock_2025 init_db flash_event).1 final_event).1
  = (add_event clock_2025 (add_event clock_2025 init_db final_event).1 flash_event).1.
Proof.
  apply (proj1 (add_event_compose clock_2025 clock_2025 init_db
                  flash_event final_event)).
  discriminate.
Defined.

(** *** Fetches *)

#[global] Instance text_le_dec (a b : string) : Decision (text.le a b).
Proof. unfold text.le. apply _. Defined.

(** X4.  Fetching as of a datetime whose text is smaller yields a
    sub-sequence: the later fetch, restricted to the rows whose timestamp
    text is at most the smaller bound. *)
Theorem fetch_events_monotone (now : datetime.t) (db : table) (series : string)
        (a1 a2 : datetime.t) :
  text.le (datetime.isoformat a1) (datetime.isoformat a2) →
  fetch_events now db series (Some a1)
  = filter (λ e, text.le (release_time_utc e) (datetime.isoformat a1))
           (fetch_events now db series (Some a2))
  ∧ fetch_events now db series (Some a1)
    `sublist_of` fetch_events now db series (Some a2).
Proof.
  intros Hle.
  assert (filter (λ e, text.le (release_time_utc e) (datetime.isoformat a1))
                 (fetch_events now db series (Some a2))
          = fetch_events now db series (Some a1)) as Heq.
  { apply fetch_events_unique.
    - apply StronglySorted_filter, StronglySorted_fetch_events.
    - apply NoDup_filter, NoDup_fetch_events.
    - intros e. rewrite list_elem_of_filter, !elem_of_fetch_events.
      split; [tauto|]. intros (Hr & Hs & Ht).
      repeat split; try done. eapply le_trans; eassumption. }
  split; [now symmetry|]. rewrite <- Heq. apply sublist_filter.
Qed.

Lemma fetch_events_monotone_witness :
  fetch_events clock_2025 two_vintages "US_CPI" (Some release_instant)
  `sublist_of` fetch_events clock_2025 two_vintages "US_CPI" (Some clock_2025).
Proof.
  apply (proj2 (fetch_events_monotone clock_2025 two_vintages "US_CPI"
                  release_instant clock_2025 eq_refl)).
Defined.

(** X5.  Adding an event of another series, accepted or not, does not
    change what a fetch of this series yields. *)
Theorem fetch_events_other_series (now now' : datetime.t) (db : table)
        (ev : Event) (series : string) (as_of : option datetime.t) :
  series_id ev ≠ series →
  fetch_events now' (add_event now db ev).1 series as_of
  = fetch_events now' db series as_of.
Proof.
  intros Hne.
  destruct (add_event_cases now db ev) as [[x H] | H]; rewrite H; simpl;
    [reflexivity|].
  apply fetch_events_unique.
  - apply StronglySorted_fetch_events.
  - apply NoDup_fetch_events.
  - intros e. rewrite !elem_of_fetch_events, elem_of_rows_insert.
    split.
    + intros ([-> | [Hr _]] & Hs & Ht); [done | done].
    + intros (Hr & Hs & Ht). split; [|done]. right. split; [done|].
      intros Hk. apply Hne. rewrite <- Hs.
      unfold event_key in Hk. congruence.
Qed.

Lemma fetch_events_other_series_witness :
  fetch_events clock_2025 (add_event clock_2025 two_vintages flash_event).1
               "DE_ZEW" None
  = fetch_events clock_2025 two_vintages "DE_ZEW" None.
Proof.
  apply (fetch_events_other_series clock_2025 clock_2025 two_vintages
           flash_event "DE_ZEW" None).
  discriminate.
Defined.

Lemma elem_of_rows_two_vintages (e : Event) :
  e ∈ rows two_vintages → e = flash_event ∨ e = final_event.
Proof.
  assert (two_vintages
          = <[event_key final_event := event_columns final_event]>
              (<[event_key flash_event := event_columns flash_event]> init_db))
    as -> by reflexivity.
  rewrite !elem_of_rows_insert, elem_of_rows. unfold init_db.
  rewrite lookup_empty.
  intros [-> | [[-> | [? _]] _]]; [now right | now left | done].
Qed.

End store_more.

(** ** More real-number facts *)

Module real_more.

Import real_facts.
Local Open Scope R_scope.

Lemma tanh_eq (x : R) : tanh x = (exp x - exp (- x)) / (exp x + exp (- x)).
Proof.
  unfold tanh, sinh, cosh.
  pose proof (exp_pos x). pose proof (exp_pos (- x)). field. lra.
Qed.

Lemma tanh_opp (x : R) : tanh (- x) = - tanh x.
Proof.
  rewrite !tanh_eq, Ropp_involutive.
  pose proof (exp_pos x). pose proof (exp_pos (- x)). field. lra.
Qed.

Lemma tanh_zero : tanh 0 = 0.
Proof. rewrite tanh_eq, Ropp_0, exp_0. lra. Qed.

Lemma tanh_increasing (x y : R) : x < y → tanh x < tanh y.
Proof.
  intros Hxy. rewrite !tanh_eq.
  pose proof (exp_pos x) as Hx. pose proof (exp_pos (- x)) as Hx'.
  pose proof (exp_pos y) as Hy. pose proof (exp_pos (- y)) as Hy'.
  assert (exp x * exp (- x) = 1) as Ex
      by (rewrite <- exp_plus, Rplus_opp_r; apply exp_0).
  assert (exp y * exp (- y) = 1) as Ey
      by (rewrite <- exp_plus, Rplus_opp_r; apply exp_0).
  pose proof (exp_increasing x y Hxy) as Hinc.
  assert (exp (- y) < exp (- x)) as Hdec by (apply exp_increasing; lra).
  set (a := exp x) in *. set (a' := exp (- x)) in *.
  set (b := exp y) in *. set (b' := exp (- y)) in *.
  apply (Rmult_lt_reg_r ((a + a') * (b + b'))); [nra|].
  replace ((a - a') / (a + a') * ((a + a') * (b + b')))
    with ((a - a') * (b + b')) by (field; lra).
  replace ((b - b') / (b + b') * ((a + a') * (b + b')))
    with ((b - b') * (a + a')) by (field; lra).
  nra.
Qed.

Lemma tanh_le (x y : R) : x <= y → tanh x <= tanh y.
Proof. intros [H | ->]; [left; now apply tanh_increasing | right; reflexivity]. Qed.

(** tanh(1/6) > 1/7, from exp(1/3) > 4/3. *)
Lemma tanh_sixth : 1 / 7 < tanh (1 / 6).
Proof.
  rewrite tanh_eq.
  pose proof (exp_pos (1 / 6)) as Ha. pose proof (exp_pos (- (1 / 6))) as Hb.
  assert (exp (1 / 6) * exp (- (1 / 6)) = 1) as E
      by (rewrite <- exp_plus, Rplus_opp_r; apply exp_0).
  assert (1 + 1 / 3 < exp (1 / 3)) as H3 by (apply exp_ineq1; lra).
  assert (exp (1 / 3) = exp (1 / 6) * exp (1 / 6)) as E2
      by (rewrite <- exp_plus; f_equal; lra).
  set (a := exp (1 / 6)) in *. set (b := exp (- (1 / 6))) in *.
  apply (Rmult_lt_reg_r (a + b)); [lra|].
  replace ((a - b) / (a + b) * (a + b)) with (a - b) by (field; lra).
  assert (a * a * b = a) as Hab by (rewrite Rmult_assoc, E; lra).
  nra.
Qed.

(** *** Sums *)

Lemma fold_left_Rplus (l : list R) (a : R) :
  fold_left Rplus l a = a + fold_left Rplus l 0.
Proof.
  revert a. induction l as [|x l IH]; intros a; simpl; [lra|].
  rewrite (IH (a + x)), (IH (0 + x)). lra.
Qed.

End real_more.

(** ** [scoring.py]: further properties *)

Module scoring_more.

Import py event_store scoring terms real_facts real_more scoring_facts examples.
Import binary64 binary64_facts binary64_round scoring64_facts scoring64_weight
       scoring64_calls.
Local Open Scope string_scope.
Local Open Scope R_scope.

(** *** [pair_point] *)

(** X6.  [pair_point] is the sign of the base score minus the sign of the
    quote score: it lies in [-2, 2], changes sign when base and quote are
    swapped, and is 0 exactly when the two scores have the same sign. *)
Theorem pair_point_signs (base quote : R) :
  pair_point base quote = (sign base - sign quote)%Z
  ∧ (-2 <= pair_point base quote <= 2)%Z
  ∧ pair_point quote base = (- pair_point base quote)%Z
  ∧ (pair_point base quote = 0%Z ↔ sign base = sign quote).
Proof.
  assert (∀ b q, pair_point b q = (sign b - sign q)%Z) as Heq.
  { intros b q. unfold pair_point, gt0, lt0, eq0, sign.
    destruct (Rlt_dec 0 b), (Rlt_dec b 0), (Req_dec_T b 0),
             (Rlt_dec 0 q), (Rlt_dec q 0), (Req_dec_T q 0);
      simpl; try reflexivity; lra. }
  assert (∀ x, (-1 <= sign x <= 1)%Z) as Hs.
  { intros x. unfold sign. destruct (Rlt_dec 0 x), (Rlt_dec x 0); lia. }
  rewrite !Heq. pose proof (Hs base). pose proof (Hs quote).
  repeat split; lia.
Qed.

(** *** [point_from_z] *)

(** X7.  [point_from_z] is odd and monotonic non-decreasing, and its
    value is either exactly 0 (inside the dead zone) or of magnitude
    above 2/7 and at most 2. *)
Theorem point_from_z_shape (z : R) :
  point_from_z (- z) = - point_from_z z
  ∧ (∀ z' : R, z <= z' → point_from_z z <= point_from_z z')
  ∧ (point_from_z z = 0 ∨ 2 / 7 < Rabs (point_from_z z) <= 2).
Proof.
  assert (∀ x, 0.25 <= x → 2 / 7 < point_from_z x < 2) as Hpos.
  { intros x Hx. rewrite point_from_z_squash by (rewrite Rabs_right; lra).
    pose proof (tanh_bounds (x / 1.5)). pose proof tanh_sixth.
    assert (tanh (1 / 6) <= tanh (x / 1.5)) by (apply tanh_le; lra). lra. }
  assert (∀ x, point_from_z (- x) = - point_from_z x) as Hodd.
  { intros x. destruct (Rlt_dec (Rabs x) 0.25) as [H|H].
    - rewrite !point_from_z_dead_zone; rewrite ?Rabs_Ropp; lra.
    - rewrite !point_from_z_squash by (rewrite ?Rabs_Ropp; lra).
      replace (- x / 1.5) with (- (x / 1.5)) by lra. rewrite tanh_opp. lra. }
  assert (∀ x, x <= -0.25 → -2 < point_from_z x < - (2 / 7)) as Hneg.
  { intros x Hx. pose proof (Hpos (- x)) as H. rewrite Hodd in H. lra. }
  assert (∀ x, -0.25 < x < 0.25 → point_from_z x = 0) as Hzero.
  { intros x Hx. apply point_from_z_dead_zone. apply Rabs_def1; lra. }
  split; [apply Hodd|]. split.
  - intros z' Hle.
    destruct (Rle_dec z (-0.25)) as [Hz|Hz], (Rle_dec z' (-0.25)) as [Hz'|Hz'].
    + rewrite !point_from_z_squash by (rewrite Rabs_left; lra).
      assert (tanh (z / 1.5) <= tanh (z' / 1.5)) by (apply tanh_le; lra). lra.
    + pose proof (Hneg z Hz).
      destruct (Rlt_dec z' 0.25).
      * rewrite (Hzero z') by lra. lra.
      * pose proof (Hpos z'). lra.
    + lra.
    + destruct (Rlt_dec z 0.25), (Rlt_dec z' 0.25).
      * rewrite (Hzero z), (Hzero z') by lra. lra.
      * rewrite (Hzero z) by lra. pose proof (Hpos z'). lra.
      * lra.
      * rewrite !point_from_z_squash by (rewrite Rabs_right; lra).
        assert (tanh (z / 1.5) <= tanh (z' / 1.5)) by (apply tanh_le; lra). lra.
  - destruct (Rle_dec z (-0.25)) as [Hz|Hz].
    + right. pose proof (Hneg z Hz). rewrite Rabs_left; lra.
    + destruct (Rlt_dec z 0.25).
      * left. apply Hzero. lra.
      * right. pose proof (Hpos z). rewrite Rabs_right; lra.
Qed.

Lemma point_from_z_shape_witness : point_from_z 1 <= point_from_z 7.5.
Proof. apply (proj1 (proj2 (point_from_z_shape 1))). lra. Defined.

(** *** [decay_weight] *)

Lemma decay_zero (freq : string) : decay 0 freq = 1.
Proof. unfold decay. rewrite Rdiv_0_l. apply Rpower_O. lra. Qed.

(** After a whole number of half-lives every operation is exact. *)
Lemma weight_whole_half_lives (k : Z) (freq impact : string) :
  (0 <= k <= 1000)%Z →
  scoring64.weight (k * half_life freq) (half_life freq) (impact_multiplier impact)
  = impact_multiplier impact * powerRZ 2 (- k).
Proof.
  intros Hk. pose proof (half_life_pos freq) as Hh. unfold scoring64.weight.
  assert (IZR (k * half_life freq) / IZR (half_life freq) = IZR k) as ->.
  { rewrite mult_IZR. apply IZR_lt in Hh. field. lra. }
  rewrite round_IZR by lia. rewrite half_power_pow2, round_pow2 by lia.
  destruct (impact_multiplier_cases impact) as [-> | [-> | [-> | ->]]].
  - rewrite Rmult_comm. apply (round_exact 3); lia.
  - replace (powerRZ 2 (- k) * 1.5) with (IZR 3 * powerRZ 2 (- k - 1)).
    + rewrite round_exact by lia.
      replace (- k - 1)%Z with (- k + -1)%Z by lia. rewrite pow2_add. simpl. lra.
    + replace (- k - 1)%Z with (- k + -1)%Z by lia. rewrite pow2_add. simpl. lra.
  - replace (powerRZ 2 (- k) * 0.75) with (IZR 3 * powerRZ 2 (- k - 2)).
    + rewrite round_exact by lia.
      replace (- k - 2)%Z with (- k + -2)%Z by lia. rewrite pow2_add. simpl. lra.
    + replace (- k - 2)%Z with (- k + -2)%Z by lia. rewrite pow2_add. simpl. lra.
  - rewrite Rmult_comm. apply (round_exact 1); lia.
Qed.

(** X8.  The half-life is a half-life, up to rounding.  In binary64, of
    two releases of the same frequency and impact class whose elapsed
    days differ by the half-life, the older one, if no more than 1000
    half-lives old, weighs less, and half as much to within one part in
    2^39; it weighs exactly half as much when the elapsed days are a
    whole number of half-lives, and a release with no whole day elapsed
    weighs exactly its impact multiplier. *)
Theorem decay_weight_half_life
        (now1 now2 : datetime.t) (t1 t2 freq impact : string)
        (rt1 rt2 : datetime.t) :
  datetime.fromisoformat t1 = Ok rt1 → datetime.aware rt1 → datetime.aware now1 →
  datetime.fromisoformat t2 = Ok rt2 → datetime.aware rt2 → datetime.aware now2 →
  (0 <= days_elapsed now1 rt1)%Z →
  days_elapsed now2 rt2 = (days_elapsed now1 rt1 + half_life freq)%Z →
  (days_elapsed now2 rt2 <= 1000 * half_life freq)%Z →
  ∃ w1 w2 : R,
    scoring64.decay_weight now1 t1 freq impact = Ok (Finite w1)
    ∧ scoring64.decay_weight now2 t2 freq impact = Ok (Finite w2)
    ∧ 0 < w2 < w1
    ∧ Rabs (w2 - w1 / 2) <= w1 / 2 ^ 39
    ∧ (days_elapsed now1 rt1 = 0%Z → w1 = impact_multiplier impact)
    ∧ (∀ k : Z, days_elapsed now1 rt1 = (k * half_life freq)%Z → w2 = w1 / 2).
Proof.
  intros P1 A1 N1 P2 A2 N2 Hd1 Hd2 Hmax.
  pose proof (half_life_pos freq) as Hh.
  assert (half_life freq <= 90)%Z as Hh90
    by (destruct (half_life_cases freq) as [-> | [-> | [-> | ->]]]; lia).
  pose proof (impact_multiplier_range impact) as Hm.
  pose proof (round_impact_multiplier impact) as Hrm.
  set (d := days_elapsed now1 rt1) in *.
  set (hl := half_life freq) in *.
  set (m := impact_multiplier impact) in *.
  exists (scoring64.weight d hl m), (scoring64.weight (d + hl) hl m).
  split; [apply decay_weight_value; (assumption || (fold d hl; lia))|].
  split; [rewrite <- Hd2; apply decay_weight_value; (assumption || (fold hl; lia))|].
  rewrite Hd2 in Hmax.
  pose proof (weight_accuracy d hl m ltac:(lia) (conj Hh Hh90) Hm Hrm) as [Hlo1 Hhi1].
  pose proof (weight_accuracy (d + hl) hl m ltac:(lia) (conj Hh Hh90) Hm Hrm)
    as [Hlo2 Hhi2].
  cbv zeta in Hlo1, Hhi1, Hlo2, Hhi2.
  assert (Rpower (1 / 2) (IZR (d + hl) / IZR hl)
          = Rpower (1 / 2) (IZR d / IZR hl) / 2) as Hhalf.
  { apply IZR_lt in Hh. rewrite plus_IZR.
    replace ((IZR d + IZR hl) / IZR hl) with (IZR d / IZR hl + 1) by (field; lra).
    rewrite Rpower_plus, Rpower_1 by lra. lra. }
  rewrite Hhalf in Hlo2, Hhi2.
  pose proof (Rpower_half_pos (IZR d / IZR hl)) as HE.
  set (E := Rpower (1 / 2) (IZR d / IZR hl)) in *.
  assert (/ 2 ^ 40 = / 1099511627776) as Hη by (f_equal; lra).
  assert (/ 2 ^ 39 = / 549755813888) as Hη' by (f_equal; lra).
  rewrite Hη in Hlo1, Hhi1, Hlo2, Hhi2.
  assert (0 < E * m) as HEm by nra.
  set (x := E * m) in *.
  replace (E / 2 * m) with (x / 2) in Hlo2, Hhi2 by (unfold x; lra).
  split; [lra|].
  split; [unfold Rdiv; rewrite Hη'; apply Rabs_le; lra|].
  split.
  - intros ->. now apply weight_today.
  - intros k Hk. rewrite Hk.
    replace (k * hl + hl)%Z with ((k + 1) * hl)%Z by lia.
    assert (0 <= k)%Z as Hk0 by nia.
    assert (k + 1 <= 1000)%Z as Hk1 by nia.
    unfold hl, m. rewrite !weight_whole_half_lives by lia.
    replace (- (k + 1))%Z with (- k + -1)%Z by lia. rewrite pow2_add. simpl. lra.
Qed.

Lemma decay_weight_half_life_witness :
  ∃ w1 w2 : R,
    scoring64.decay_weight clock_2025 "2024-12-31T13:30:00Z" "w" "high"
    = Ok (Finite w1)
    ∧ scoring64.decay_weight clock_2025 "2024-12-17T13:30:00Z" "w" "high"
      = Ok (Finite w2)
    ∧ w1 = 3 ∧ w2 = w1 / 2.
Proof.
  destruct (decay_weight_half_life clock_2025 clock_2025
              "2024-12-31T13:30:00Z" "2024-12-17T13:30:00Z" "w" "high"
              (datetime.utc 2024 12 31 13 30 0 0)
              (datetime.utc 2024 12 17 13 30 0 0)
              eq_refl (ex_intro _ _ eq_refl) (ex_intro _ _ eq_refl)
              eq_refl (ex_intro _ _ eq_refl) (ex_intro _ _ eq_refl))
    as (w1 & w2 & H1 & H2 & _ & _ & Ha & Hb).
  - vm_compute. discriminate.
  - reflexivity.
  - vm_compute. discriminate.
  - exists w1, w2. split; [exact H1|]. split; [exact H2|].
    split; [exact (Ha eq_refl) | exact (Hb 0%Z eq_refl)].
Defined.

(** X9.  [decay_weight] checks nothing about the release being in the
    past.  For a release timestamp later than the clock the elapsed days
    are negative; in binary64 the weight is then strictly greater than
    the impact multiplier as long as the release is at most 1000
    half-lives ahead, and from 1024 half-lives ahead [0.5 ** (days / hl)]
    overflows and the call raises [OverflowError].  A timestamp that does
    not parse raises the parser's error and a naive one raises
    [TypeError].  -999999999 is the least number of days of a
    [timedelta]. *)
Theorem decay_weight_edge_cases (now : datetime.t) (release_time freq impact : string) :
  (∀ rt : datetime.t,
     datetime.fromisoformat release_time = Ok rt →
     datetime.aware rt → datetime.aware now →
     (datetime.instant now < datetime.instant rt)%Z →
     (days_elapsed now rt < 0)%Z
     ∧ ((-1000 * half_life freq <= days_elapsed now rt)%Z →
        ∃ w, scoring64.decay_weight now release_time freq impact = Ok (Finite w)
             ∧ impact_multiplier impact < w)
     ∧ ((-999999999 <= days_elapsed now rt <= -1024 * half_life freq)%Z →
        ∃ msg, scoring64.decay_weight now release_time freq impact
               = Raise (OverflowError msg)))
  ∧ (∀ e : exn,
       datetime.fromisoformat release_time = Raise e →
       scoring64.decay_weight now release_time freq impact = Raise e)
  ∧ (∀ rt : datetime.t,
       datetime.fromisoformat release_time = Ok rt →
       datetime.tzinfo rt = None → datetime.aware now →
       ∃ msg, scoring64.decay_weight now release_time freq impact
              = Raise (TypeError msg)).
Proof.
  split; [|split].
  - intros rt Hp Hrt Hnow Hlt.
    assert (days_elapsed now rt < 0)%Z as Hd.
    { unfold days_elapsed, datetime.timedelta_days.
      apply Z.div_lt_upper_bound; lia. }
    pose proof (half_life_pos freq) as Hh.
    assert (half_life freq <= 90)%Z as Hh90
      by (destruct (half_life_cases freq) as [-> | [-> | [-> | ->]]]; lia).
    split; [exact Hd|]. split.
    + intros Hnear. eexists. split.
      * apply (decay_weight_value now release_time freq impact rt Hp Hrt Hnow Hnear).
        lia.
      * apply weight_future; [exact Hd | lia |].
        apply impact_multiplier_range.
    + intros Hfar. eexists.
      apply (decay_weight_overflow now release_time freq impact rt Hp Hrt Hnow Hfar).
  - intros e He. unfold scoring64.decay_weight. now rewrite He.
  - intros rt Hp Hnaive [o Ho]. unfold scoring64.decay_weight. rewrite Hp. simpl.
    unfold datetime.sub. rewrite Ho, Hnaive. simpl. eauto.
Qed.

Lemma decay_weight_edge_cases_witness :
  (∃ w, scoring64.decay_weight clock_2025 "2025-01-15T13:30:00+00:00" "m" "high"
        = Ok (Finite w)
        ∧ 3 < w)
  ∧ ∃ msg, scoring64.decay_weight clock_2025 "2065-01-01T00:00:00+00:00" "w" "high"
           = Raise (OverflowError msg).
Proof.
  split.
  - refine (proj1 (proj2 (proj1 (decay_weight_edge_cases clock_2025
                                   "2025-01-15T13:30:00+00:00" "m" "high")
                            (datetime.utc 2025 1 15 13 30 0 0) eq_refl _ _ _)) _).
    + eexists; reflexivity.
    + eexists; reflexivity.
    + reflexivity.
    + vm_compute. discriminate.
  - refine (proj2 (proj2 (proj1 (decay_weight_edge_cases clock_2025
                                   "2065-01-01T00:00:00+00:00" "w" "high")
                            (datetime.utc 2065 1 1 0 0 0 0) eq_refl _ _ _)) _).
    + eexists; reflexivity.
    + eexists; reflexivity.
    + reflexivity.
    + vm_compute. split; discriminate.
Defined.

(** *** [z_score] *)

Lemma sum_nil : sum [] = 0.
Proof. reflexivity. Qed.

Lemma sum_cons (x : R) (l : list R) : sum (x :: l) = x + sum l.
Proof. unfold sum. simpl. rewrite fold_left_Rplus. lra. Qed.

Lemma sum_app (l1 l2 : list R) : sum (l1 ++ l2) = sum l1 + sum l2.
Proof.
  induction l1 as [|x l1 IH]; [rewrite app_nil_l, sum_nil; lra|].
  rewrite <- app_comm_cons, !sum_cons, IH. lra.
Qed.

Lemma length_pos (l : list R) : l ≠ [] → 0 < INR (length l).
Proof.
  intros H. destruct l as [|x l]; [done|].
  change (length (x :: l)) with (S (length l)). rewrite S_INR.
  pose proof (pos_INR (length l)). lra.
Qed.

Lemma pstdev_nonneg (l : list R) : 0 <= pstdev l.
Proof. unfold pstdev. apply sqrt_pos. Qed.

Lemma z_score_cons (s : string) (x : R) (l : list R) :
  z_score s (x :: l)
  = (List.last (x :: l) 0 - mean (x :: l)) / sigma (x :: l).
Proof. reflexivity. Qed.

Lemma sigma_pos (l : list R) : 0 < sigma l.
Proof.
  unfold sigma. pose proof (pstdev_nonneg l).
  destruct (Req_dec_T (pstdev l) 0); lra.
Qed.

Lemma z_score_nonempty (s : string) (l : list R) :
  l ≠ [] → z_score s l = (List.last l 0 - mean l) / sigma l.
Proof. destruct l; [done | reflexivity]. Qed.

Lemma mean_constant (c : R) (l : list R) :
  l ≠ [] → Forall (λ x, x = c) l → mean l = c.
Proof.
  intros Hl Hall. pose proof (length_pos l Hl) as Hn. unfold mean.
  assert (sum l = c * INR (length l)) as ->.
  { clear Hl Hn. induction Hall as [|x l -> _ IH]; [rewrite sum_nil; simpl; lra|].
    rewrite sum_cons, IH. change (length (c :: l)) with (S (length l)).
    rewrite S_INR. lra. }
  field. lra.
Qed.


(** X10.  [z_score] of an empty history is 0; otherwise it has the sign
    of the latest surprise minus the mean, and it is 0 whenever all
    surprises are equal, in particular for a single surprise. *)
Theorem z_score_sign (s : string) (l : list R) :
  z_score s [] = 0
  ∧ (l ≠ [] →
     (0 < z_score s l ↔ mean l < List.last l 0)
     ∧ (z_score s l < 0 ↔ List.last l 0 < mean l)
     ∧ (Forall (λ x, x = List.last l 0) l → z_score s l = 0)).
Proof.
  split; [reflexivity|]. intros Hl.
  rewrite z_score_nonempty by exact Hl.
  pose proof (sigma_pos l) as Hs.
  assert (∀ d, d / sigma l = d * / sigma l) as Hdiv by (intros; reflexivity).
  pose proof (Rinv_0_lt_compat _ Hs) as Hi.
  split; [|split].
  - rewrite Hdiv. split; intros H; nra.
  - rewrite Hdiv. split; intros H; nra.
  - intros Hall. rewrite (mean_constant (List.last l 0) l Hl Hall). lra.
Qed.

Lemma z_score_sign_witness : z_score "US_CPI" [0.3] = 0.
Proof.
  apply (proj2 (z_score_sign "US_CPI" [0.3])); [discriminate|].
  repeat constructor.
Defined.

(** *** [category_score] *)

Section aggregator.

Variable str : R → string.
Variable clock : nat → datetime.t.





Lemma category_loop_bad_timestamp (events : list (Event * string))
      (ev : Event) (freq : string) (e : exn) :
  (ev, freq) ∈ events →
  datetime.fromisoformat (release_time_utc ev) = Raise e →
  ∀ (i : nat) (surprises weights : list R),
    ∃ e', category_loop str clock i events surprises weights = Raise e'.
Proof.
  intros Hin Hbad. induction events as [|[ev' freq'] rest IH];
    intros i surprises weights; [now apply elem_of_nil in Hin|].
  simpl. destruct (event_surprise str ev') as [s|e1]; simpl; [|eauto].
  destruct (decay_weight (clock i) (release_time_utc ev') freq' (impact ev'))
    as [w|e2] eqn:Hw; simpl; [|eauto].
  apply elem_of_cons in Hin as [Heq | Hin]; [|now apply IH].
  injection Heq as <- <-.
  unfold decay_weight in Hw. rewrite Hbad in Hw. discriminate.
Qed.

(** X13.  One release timestamp that does not parse aborts the whole
    aggregation: [category_score] raises and returns no partial score. *)
Theorem category_score_bad_timestamp (events : list (Event * string))
        (ev : Event) (freq : string) (e : exn) :
  (ev, freq) ∈ events →
  datetime.fromisoformat (release_time_utc ev) = Raise e →
  ∃ e', category_score str clock events = Raise e'.
Proof.
  intros Hin Hbad.
  destruct (category_loop_bad_timestamp events ev freq e Hin Hbad 0%nat [] [])
    as [e' He'].
  exists e'. unfold category_score. now rewrite He'.
Qed.

End aggregator.


Lemma category_score_bad_timestamp_witness :
  ∃ e', category_score constant_str constant_clock
          [(test_event, "q");
           (mkEvent "US_CPI" "2024-02-15" "final" 3.4 None None "high"
                    "15/02/2024 13:30" "test", "q")]
        = Raise e'.
Proof.
  eapply (category_score_bad_timestamp constant_str constant_clock).
  - right. left.
  - reflexivity.
Defined.

End scoring_more.

(** ** [ScoreConverter.convert_score]: further properties *)

Module converter_more.

Import ScoreConverter terms converter_facts.
Local Open Scope R_scope.

Lemma int_opp (y : R) : int (- y) = (- int y)%Z.
Proof.
  unfold int.
  destruct (Rle_dec 0 y) as [Hy|Hy], (Rle_dec 0 (- y)) as [Hy'|Hy'].
  - assert (y = 0) as -> by lra. rewrite Ropp_0.
    rewrite (Int_part_unique 0 0); simpl; [reflexivity | lra].
  - rewrite Ropp_involutive. reflexivity.
  - lia.
  - lra.
Qed.

Lemma clamp_opp (x : R) : clamp (- x) = - clamp x.
Proof.
  unfold clamp, Rmax, Rmin.
  repeat (destruct (Rle_dec _ _)); lra.
Qed.

(** X14.  [convert_score] is odd: negating the scraper score negates the
    backend score, so bullish and bearish readings are treated alike. *)
Theorem convert_score_odd (x : R) : convert_score (- x) = (- convert_score x)%Z.
Proof.
  rewrite !convert_score_eq, clamp_opp.
  replace (- clamp x * 12) with (- (clamp x * 12)) by lra.
  apply int_opp.
Qed.

(** X15.  [convert_score] saturates outside [-2, 2], returns 0 for every
    score of magnitude below 1/12, and is exact on the twelfths: for each
    integer k in [-24, 24] the score k/12 converts to k, so every backend
    score is reached. *)
Theorem convert_score_saturation_and_grid (x : R) :
  (2 <= x → convert_score x = 24%Z)
  ∧ (x <= -2 → convert_score x = (-24)%Z)
  ∧ (Rabs x < 1 / 12 → convert_score x = 0%Z)
  ∧ (∀ k : Z, (-24 <= k <= 24)%Z → convert_score (IZR k / 12) = k).
Proof.
  split; [|split; [|split]].
  - intros H. rewrite convert_score_eq. unfold clamp.
    rewrite Rmin_left, Rmax_right by lra.
    replace (2 * 12) with (IZR 24) by lra. apply int_IZR.
  - intros H. rewrite convert_score_eq. unfold clamp.
    rewrite Rmax_left by (apply Rle_trans with x; [apply Rmin_r | lra]).
    replace (-2 * 12) with (IZR (-24)) by lra. apply int_IZR.
  - intros H. apply Rabs_def2 in H as [Hu Hl].
    rewrite convert_score_eq, clamp_id by lra.
    unfold int. destruct (Rle_dec 0 (x * 12)).
    + apply Int_part_unique. simpl. lra.
    + rewrite (Int_part_unique (- (x * 12)) 0); [reflexivity | simpl; lra].
  - intros k [Hl Hu]. apply IZR_le in Hl, Hu.
    apply convert_score_IZR; [lra | field].
Qed.

Lemma convert_score_saturation_and_grid_witness :
  convert_score 7.5 = 24%Z ∧ convert_score (IZR 17 / 12) = 17%Z.
Proof.
  split.
  - apply (proj1 (convert_score_saturation_and_grid 7.5)). lra.
  - apply (proj2 (proj2 (proj2 (convert_score_saturation_and_grid 0))) 17%Z). lia.
Defined.

End converter_more.

(** ** Dictionaries *)

Module pydict_facts.

Import pydict.
Local Open Scope string_scope.

Lemma get_set_eq {V : Type} (d : t V) (k : string) (v : V) :
  get (set d k v) k = Some v.
Proof.
  induction d as [|[k' v'] d IH]; simpl.
  - now rewrite String.eqb_refl.
  - destruct (String.eqb k k') eqn:E; simpl; rewrite E; [reflexivity | exact IH].
Qed.

Lemma get_set_ne {V : Type} (d : t V) (k k' : string) (v : V) :
  k ≠ k' → get (set d k v) k' = get d k'.
Proof.
  intros Hne. induction d as [|[k0 v0] d IH]; simpl.
  - apply String.eqb_neq in Hne. rewrite String.eqb_sym in Hne. now rewrite Hne.
  - destruct (String.eqb_spec k k0) as [<- | Hk]; simpl.
    + apply String.eqb_neq in Hne. rewrite String.eqb_sym in Hne.
      now rewrite Hne.
    + now rewrite IH.
Qed.

Lemma get_Some_elem {V : Type} (d : t V) (k : string) (v : V) :
  get d k = Some v → (k, v) ∈ d.
Proof.
  induction d as [|[k' v'] d IH]; simpl; [done|].
  destruct (String.eqb_spec k k') as [-> | Hne].
  - intros [= ->]. left.
  - intros H. right. now apply IH.
Qed.

Lemma elem_get_Some {V : Type} (d : t V) (k : string) (v : V) :
  wf d → (k, v) ∈ d → get d k = Some v.
Proof.
  unfold wf. induction d as [|[k' v'] d IH]; intros Hwf Hin;
    [now apply elem_of_nil in Hin|].
  rewrite fmap_cons in Hwf. apply NoDup_cons in Hwf as [Hk' Hwf].
  simpl. apply elem_of_cons in Hin as [[= -> ->] | Hin].
  - now rewrite String.eqb_refl.
  - destruct (String.eqb_spec k k') as [-> | Hne]; [|now apply IH].
    contradict Hk'. apply list_elem_of_fmap. now exists (k', v).
Qed.

Lemma get_None_keys {V : Type} (d : t V) (k : string) :
  get d k = None ↔ k ∉ keys d.
Proof.
  unfold keys. induction d as [|[k' v'] d IH].
  - split; [intros _; apply not_elem_of_nil | done].
  - rewrite fmap_cons, not_elem_of_cons. cbn [get fst].
    destruct (String.eqb_spec k k') as [-> | Hne]; [split; [done | tauto]|].
    rewrite IH. tauto.
Qed.

Lemma keys_set {V : Type} (d : t V) (k : string) (v : V) :
  keys (set d k v) = if contains d k then keys d else (keys d ++ [k])%list.
Proof.
  unfold keys, contains. induction d as [|[k' v'] d IH]; [reflexivity|].
  cbn [get set].
  destruct (String.eqb_spec k k') as [-> | Hne]; [reflexivity|].
  rewrite !fmap_cons, IH. cbn [fst]. now destruct (get d k).
Qed.

Lemma wf_set {V : Type} (d : t V) (k : string) (v : V) : wf d → wf (set d k v).
Proof.
  unfold wf. intros Hwf. fold (keys (set d k v)). rewrite keys_set.
  unfold contains. destruct (get d k) eqn:E; [exact Hwf|].
  apply NoDup_app. split; [exact Hwf|]. split; [|apply NoDup_singleton].
  intros x Hx Hx'. apply list_elem_of_singleton in Hx' as ->.
  now apply get_None_keys in E.
Qed.

End pydict_facts.

(** ** [asset_mapping_system.py]: properties *)

Module mapping_facts.

Import pydict pydict_facts asset_mapping_system config_examples.
Local Open Scope string_scope.

(** *** Lookups and the series lists *)

Lemma series_where_eq (test : mapping_data → bool)
      (items : list (string * mapping_data)) (acc : list string) :
  series_where test items acc
  = (acc ++ (filter (λ it, test it.2 = true) items).*1)%list.
Proof.
  revert acc. induction items as [|[sid m] items IH]; intros acc.
  - simpl. now rewrite app_nil_r.
  - cbn [series_where]. rewrite IH, filter_cons. cbn [snd].
    destruct (test m).
    + rewrite decide_True by done. rewrite fmap_cons, <- app_assoc. reflexivity.
    + rewrite decide_False by done. reflexivity.
Qed.

Lemma elem_of_series_where (test : mapping_data → bool)
      (items : list (string * mapping_data)) (sid : string) :
  sid ∈ series_where test items []
  ↔ ∃ m, (sid, m) ∈ items ∧ test m = true.
Proof.
  rewrite series_where_eq, app_nil_l, list_elem_of_fmap. split.
  - intros ([sid' m] & -> & Hin). apply list_elem_of_filter in Hin as [Ht Hin].
    exists m. split; [exact Hin | exact Ht].
  - intros (m & Hin & Ht). exists (sid, m). split; [reflexivity|].
    apply list_elem_of_filter. split; [exact Ht | exact Hin].
Qed.

(** X16.  The lookups of the mapping system agree with each other:
    [validate_series_id] holds for every series [get_mapping] finds; the
    mapping found carries the series id asked for and lists the series
    under its asset and its pillar; and in a well-formed configuration a
    series is listed under no other asset or pillar. *)
Theorem mapping_lookups_agree (cfg : config) (series_id : string) :
  (is_Some (get_mapping cfg series_id) → validate_series_id cfg series_id = true)
  ∧ (∀ m : MappingInfo,
       get_mapping cfg series_id = Some m →
       mi_series_id m = series_id
       ∧ series_id ∈ get_series_for_asset cfg (mi_asset m)
       ∧ series_id ∈ get_series_for_pillar cfg (mi_pillar m))
  ∧ (wf (mappings cfg) →
     ∀ name : string,
       (series_id ∈ get_series_for_asset cfg name
        → ∃ m, get_mapping cfg series_id = Some m ∧ mi_asset m = name)
       ∧ (series_id ∈ get_series_for_pillar cfg name
          → ∃ m, get_mapping cfg series_id = Some m ∧ mi_pillar m = name)).
Proof.
  unfold validate_series_id, contains, get_mapping,
    get_series_for_asset, get_series_for_pillar.
  split; [|split].
  - destruct (get (mappings cfg) series_id); intros H; [done | now destruct H].
  - intros m Hm.
    destruct (get (mappings cfg) series_id) as [md|] eqn:E; [|done].
    injection Hm as <-. simpl.
    apply get_Some_elem in E.
    split; [reflexivity|].
    split; apply elem_of_series_where; exists md;
      (split; [exact E | apply String.eqb_refl]).
  - intros Hwf name.
    split; intros H; apply elem_of_series_where in H as (md & Hin & Ht);
      apply String.eqb_eq in Ht;
      rewrite (elem_get_Some _ _ _ Hwf Hin); eexists; (split; [reflexivity|]);
      exact Ht.
Qed.

Lemma example_config_wf : wf (mappings example_config).
Proof. unfold wf. apply (bool_decide_unpack _). vm_compute. exact I. Qed.

Lemma mapping_lookups_agree_witness :
  ∃ m, get_mapping example_config "US_PCE" = Some m ∧ mi_pillar m = "inflation".
Proof.
  apply (proj2 (proj2 (proj2 (mapping_lookups_agree example_config "US_PCE"))
                  example_config_wf "inflation")).
  apply (bool_decide_unpack _). vm_compute. exact I.
Defined.

(** *** The summary counters *)

Local Open Scope Z_scope.

Lemma bump_get (d : t Z) (k k' : string) :
  get_default (bump d k) k' 0
  = get_default d k' 0 + (if String.eqb k k' then 1 else 0).
Proof.
  unfold bump, get_default.
  destruct (String.eqb_spec k k') as [<- | Hne].
  - now rewrite get_set_eq.
  - rewrite get_set_ne by exact Hne. lia.
Qed.

Lemma sum_values_set (d : t Z) (k : string) (v : Z) :
  foldr Z.add 0 (values (set d k v))
  = foldr Z.add 0 (values d) - get_default d k 0 + v.
Proof.
  unfold values, get_default. induction d as [|[k' v'] d IH]; [simpl; lia|].
  cbn [set get]. destruct (String.eqb k k').
  - rewrite !fmap_cons. simpl. lia.
  - rewrite !fmap_cons. cbn [foldr snd]. rewrite IH. lia.
Qed.

Lemma sum_values_bump (d : t Z) (k : string) :
  foldr Z.add 0 (values (bump d k)) = foldr Z.add 0 (values d) + 1.
Proof. unfold bump. rewrite sum_values_set. lia. Qed.

Section counting.

Context {A : Type} (f : A → string).

Lemma fold_bump_get (items : list A) (d : t Z) (k : string) :
  get_default (fold_left (λ d it, bump d (f it)) items d) k 0
  = get_default d k 0
    + Z.of_nat (length (filter (λ it, String.eqb (f it) k = true) items)).
Proof.
  revert d. induction items as [|it items IH]; intros d; [simpl; lia|].
  cbn [fold_left]. rewrite IH, bump_get, filter_cons.
  destruct (String.eqb (f it) k).
  - rewrite decide_True by done. cbn [length]. lia.
  - rewrite decide_False by done. lia.
Qed.

Lemma fold_bump_sum (items : list A) (d : t Z) :
  foldr Z.add 0 (values (fold_left (λ d it, bump d (f it)) items d))
  = foldr Z.add 0 (values d) + Z.of_nat (length items).
Proof.
  revert d. induction items as [|it items IH]; intros d; [simpl; lia|].
  cbn [fold_left]. rewrite IH, sum_values_bump. cbn [length]. lia.
Qed.

End counting.

Lemma fold_count_series (items : list (string * mapping_data)) (d1 d2 : t Z) :
  fold_left count_series items (d1, d2)
  = (fold_left (λ d it, bump d (md_pillar it.2)) items d1,
     fold_left (λ d it, bump d (md_asset it.2)) items d2).
Proof.
  revert d1 d2. induction items as [|it items IH]; intros d1 d2; [reflexivity|].
  cbn [fold_left]. unfold count_series at 2. cbn [fst snd]. apply IH.
Qed.

Lemma length_series_where (test : mapping_data → bool)
      (items : list (string * mapping_data)) :
  length (series_where test items [])
  = length (filter (λ it, test it.2 = true) items).
Proof. now rewrite series_where_eq, app_nil_l, length_fmap. Qed.

(** X17.  The counters of [get_mapping_summary] are consistent: the
    count stored for a pillar (an asset) is the number of series
    [get_series_for_pillar] ([get_series_for_asset]) lists for it, 0 if
    none is stored, and the counts per pillar, per asset and per asset
    type add up to the totals reported. *)
Theorem mapping_summary_counts (cfg : config) :
  (∀ name : string,
     get_default (series_by_pillar (get_mapping_summary cfg)) name 0
     = Z.of_nat (length (get_series_for_pillar cfg name)))
  ∧ (∀ name : string,
       get_default (series_by_asset (get_mapping_summary cfg)) name 0
       = Z.of_nat (length (get_series_for_asset cfg name)))
  ∧ foldr Z.add 0 (values (series_by_pillar (get_mapping_summary cfg)))
    = total_series (get_mapping_summary cfg)
  ∧ foldr Z.add 0 (values (series_by_asset (get_mapping_summary cfg)))
    = total_series (get_mapping_summary cfg)
  ∧ foldr Z.add 0 (values (assets_by_type (get_mapping_summary cfg)))
    = total_assets (get_mapping_summary cfg).
Proof.
  unfold get_mapping_summary. cbn [series_by_pillar series_by_asset
    assets_by_type total_series total_assets].
  rewrite fold_count_series. cbn [fst snd].
  split; [|split; [|split; [|split]]].
  - intros name. unfold get_series_for_pillar.
    rewrite length_series_where, (fold_bump_get (λ it, md_pillar it.2)).
    reflexivity.
  - intros name. unfold get_series_for_asset.
    rewrite length_series_where, (fold_bump_get (λ it, md_asset it.2)).
    reflexivity.
  - rewrite (fold_bump_sum (λ it, md_pillar it.2)). reflexivity.
  - rewrite (fold_bump_sum (λ it, md_asset it.2)). reflexivity.
  - unfold count_assets. rewrite (fold_bump_sum ad_type).
    unfold values. rewrite length_fmap. reflexivity.
Qed.

(** *** [export_backend_weights] *)

Local Close Scope Z_scope.

Lemma contains_get {V : Type} (d : t V) (k : string) (v : V) :
  get d k = Some v → contains d k = true.
Proof. unfold contains. now intros ->. Qed.

Lemma empty_components_get (names : list string) (ps : t (t R)) :
  (∀ p c, get ps p = Some c → c = []) →
  ∀ p c, get (fold_left (λ ps name, set ps name []) names ps) p = Some c → c = [].
Proof.
  revert ps. induction names as [|n names IH]; intros ps Hps; [exact Hps|].
  cbn [fold_left]. apply IH. intros p c.
  destruct (decide (n = p)) as [-> | Hne].
  - rewrite get_set_eq. now intros [= <-].
  - rewrite get_set_ne by exact Hne. apply Hps.
Qed.

Lemma empty_components_keys (names : list string) (ps : t (t R)) :
  NoDup (keys ps ++ names) →
  keys (fold_left (λ ps name, set ps name []) names ps) = (keys ps ++ names)%list.
Proof.
  revert ps. induction names as [|n names IH]; intros ps Hnd.
  - now rewrite app_nil_r.
  - cbn [fold_left].
    assert (contains ps n = false) as Hc.
    { unfold contains. destruct (get ps n) eqn:E; [|reflexivity].
      apply NoDup_app in Hnd as (_ & Hdisj & _).
      exfalso. apply (Hdisj n); [|left].
      destruct (decide (n ∈ keys ps)) as [Hin|Hin]; [exact Hin|].
      apply get_None_keys in Hin. congruence. }
    rewrite IH; rewrite keys_set, Hc, <- ?app_assoc; [reflexivity | exact Hnd].
Qed.

Lemma export_loop_raises (items : list (string * mapping_data)) (ps : t (t R)) :
  (∃ it, it ∈ items ∧ md_weight it.2 = None) →
  export_loop items ps = pyx.Raise (pyx.KeyError "weight").
Proof.
  intros (it & Hin & Hw). revert ps.
  induction items as [|[sid m] items IH]; intros ps; [now apply elem_of_nil in Hin|].
  cbn [export_loop]. destruct (md_weight m) as [w|] eqn:E; [|reflexivity].
  apply elem_of_cons in Hin as [-> | Hin]; [simpl in Hw; congruence|].
  destruct (get ps (md_pillar m)); now apply IH.
Qed.

Lemma export_loop_returns (items : list (string * mapping_data)) (ps : t (t R)) :
  Forall (λ it, is_Some (md_weight it.2)) items →
  ∃ ps',
    export_loop items ps = pyx.Ok ps'
    ∧ keys ps' = keys ps
    ∧ ∀ p c' k x,
        get ps' p = Some c' → get c' k = Some x →
        (∃ c, get ps p = Some c ∧ get c k = Some x)
        ∨ (∃ sid m, (sid, m) ∈ items ∧ md_pillar m = p ∧ md_key m = k
                    ∧ md_weight m = Some x).
Proof.
  intros Hall. revert ps.
  induction Hall as [|[sid m] items [w Hw] _ IH]; intros ps.
  - exists ps. split; [reflexivity|]. split; [reflexivity|]. eauto.
  - cbn [export_loop]. simpl in Hw. rewrite Hw.
    destruct (get ps (md_pillar m)) as [c|] eqn:Ec.
    + destruct (IH (set ps (md_pillar m) (set c (md_key m) w)))
        as (ps' & Hps' & Hkeys & Hget).
      exists ps'. split; [exact Hps'|]. split.
      * rewrite Hkeys, keys_set, (contains_get _ _ _ Ec). reflexivity.
      * intros p c' k x Hp Hk.
        destruct (Hget p c' k x Hp Hk) as [(c1 & Hc1 & Hx) | (sid' & m' & Hin & H)].
        -- destruct (decide (md_pillar m = p)) as [<- | Hne].
           ++ rewrite get_set_eq in Hc1. injection Hc1 as <-.
              destruct (decide (md_key m = k)) as [<- | Hnk].
              ** rewrite get_set_eq in Hx. injection Hx as <-.
                 right. exists sid, m. split; [left | done].
              ** rewrite get_set_ne in Hx by exact Hnk. left. eauto.
           ++ rewrite get_set_ne in Hc1 by exact Hne. left. eauto.
        -- right. exists sid', m'. split; [now right | exact H].
    + destruct (IH ps) as (ps' & Hps' & Hkeys & Hget).
      exists ps'. split; [exact Hps'|]. split; [exact Hkeys|].
      intros p c' k x Hp Hk.
      destruct (Hget p c' k x Hp Hk) as [H | (sid' & m' & Hin & H)]; [now left|].
      right. exists sid', m'. split; [now right | exact H].
Qed.

(** X18.  [export_backend_weights] raises [KeyError] as soon as one
    mapping has no weight (a mapping for which [get_mapping] reports the
    default weight 1.0).  Otherwise it returns, for a well-formed pillar
    section, exactly the configured pillars in their order, and every
    component weight it exports is the weight of a configured mapping
    with that pillar and key. *)
Theorem export_backend_weights_sound (cfg : config) :
  ((∃ it, it ∈ mappings cfg ∧ md_weight it.2 = None) →
   export_backend_weights cfg = pyx.Raise (pyx.KeyError "weight"))
  ∧ (Forall (λ it, is_Some (md_weight it.2)) (mappings cfg) →
     wf (pillars cfg) →
     ∃ w : weights,
       export_backend_weights cfg = pyx.Ok w
       ∧ keys (w_pillars w) = get_supported_pillars cfg
       ∧ ∀ (p : string) (c : t R) (k : string) (x : R),
           get (w_pillars w) p = Some c → get c k = Some x →
           ∃ sid m, (sid, m) ∈ mappings cfg ∧ md_pillar m = p
                    ∧ md_key m = k ∧ md_weight m = Some x).
Proof.
  unfold export_backend_weights. split.
  - intros H. now rewrite export_loop_raises.
  - intros Hall Hwf.
    destruct (export_loop_returns (mappings cfg)
                (fold_left (λ ps name, set ps name []) (keys (pillars cfg)) [])
                Hall) as (ps' & Hps' & Hkeys & Hget).
    rewrite Hps'. eexists. split; [reflexivity|]. cbn [w_pillars].
    split.
    + rewrite Hkeys, empty_components_keys; [reflexivity | exact Hwf].
    + intros p c k x Hp Hk.
      destruct (Hget p c k x Hp Hk) as [(c0 & Hc0 & Hx) | H]; [|exact H].
      apply empty_components_get in Hc0 as ->; [discriminate | discriminate].
Qed.

Lemma export_backend_weights_sound_witness :
  export_backend_weights example_config = pyx.Raise (pyx.KeyError "weight").
Proof.
  apply (proj1 (export_backend_weights_sound example_config)).
  eexists. split; [right; left | reflexivity].
Defined.

End mapping_facts.

(** ** [bridge_scraper_to_backend.py]: properties *)

Module bridge_facts.

Import py event_store terms text_facts store_facts order_facts store_more.
Import asset_mapping_system bridge converter_facts examples config_examples.
Local Open Scope string_scope.
Local Open Scope R_scope.

(** *** [transform_event] *)

Lemma score_backend_range (mi : MappingInfo) (mult : R) (ev : Event) :
  (-24 <= score_backend mi mult ev <= 24)%Z.
Proof.
  unfold score_backend. rewrite convert_score_eq. apply int_scaled_range.
Qed.

Lemma convert_score_zero : ScoreConverter.convert_score (Rmax (-2) (Rmin 2 0)) = 0%Z.
Proof.
  fold (clamp 0). rewrite clamp_id by lra.
  apply (convert_score_IZR 0 0); lra.
Qed.

Lemma score_backend_zero (mi : MappingInfo) (mult : R) (ev : Event) :
  consensus ev = None ∨ consensus ev = Some (actual ev) ∨ actual ev = 0 →
  score_backend mi mult ev = 0%Z.
Proof.
  intros H. unfold score_backend.
  assert (∀ x, x = 0 →
            ScoreConverter.convert_score (Rmax (-2) (Rmin 2 (x * mult * mi_weight mi)))
            = 0%Z) as Hz.
  { intros x ->. rewrite !Rmult_0_l. apply convert_score_zero. }
  destruct H as [H | [H | H]].
  - rewrite H. apply Hz. destruct (Rlt_dec _ _); [|reflexivity].
    unfold Rdiv. apply Rmult_0_l.
  - rewrite H. apply Hz. destruct (Rlt_dec _ _); [|reflexivity].
    unfold Rdiv. rewrite Rminus_diag. apply Rmult_0_l.
  - apply Hz. rewrite H, Rabs_R0. destruct (Rlt_dec 0 0); [lra | reflexivity].
Qed.

Lemma score_backend_nonneg (mi : MappingInfo) (mult : R) (ev : Event) (c : R) :
  consensus ev = Some c → c <= actual ev → 0 <= mult → 0 <= mi_weight mi →
  (0 <= score_backend mi mult ev)%Z.
Proof.
  intros Hc Hle Hm Hw. unfold score_backend. rewrite Hc.
  assert (ScoreConverter.convert_score 0 = 0%Z) as H0
      by (apply (convert_score_IZR 0 0); lra).
  apply Z.le_trans with (ScoreConverter.convert_score 0); [rewrite H0; lia|].
  apply convert_score_mono.
  apply Rmax_Rle. right. apply Rmin_glb; [lra|].
  apply Rmult_le_pos; [|exact Hw]. apply Rmult_le_pos; [|exact Hm].
  destruct (Rlt_dec _ _); [|lra].
  unfold Rdiv. apply Rmult_le_pos; [lra|].
  left. apply Rinv_0_lt_compat.
  apply Rlt_le_trans with 1; [lra | apply Rmax_r].
Qed.

(** X19.  [transform_event] skips an unmapped series (it returns [None]
    without looking at the timestamp) and raises for a mapped one whose
    timestamp does not parse.  The value it returns is in [-24, 24], is 0
    when the event has no consensus, matches its consensus, or has
    actual 0, and is not negative when actual is at least the consensus
    and neither the impact multiplier nor the mapping weight is
    negative; asset, pillar and key are those of the mapping. *)
Theorem transform_event_value (cfg : config) (ev : Event) :
  (get_mapping_info cfg (series_id ev) = None → transform_event cfg ev = Ok None)
  ∧ (∀ (m : MappingInfo) (e : exn),
       get_mapping_info cfg (series_id ev) = Some m →
       datetime.fromisoformat (replace_Z (release_time_utc ev)) = Raise e →
       transform_event cfg ev = Raise e)
  ∧ (∀ (m : MappingInfo) (r : option transformed),
       get_mapping_info cfg (series_id ev) = Some m →
       transform_event cfg ev = Ok r →
       ∃ t : transformed,
         r = Some t
         ∧ (t_asset_symbol t, t_pillar t, t_key t) = (mi_asset m, mi_pillar m, mi_key m)
         ∧ (-24 <= t_value t <= 24)%Z
         ∧ (consensus ev = None ∨ consensus ev = Some (actual ev) ∨ actual ev = 0 →
            t_value t = 0%Z)
         ∧ (∀ c : R,
              consensus ev = Some c → c <= actual ev →
              0 <= get_impact_multiplier cfg (mi_impact m) → 0 <= mi_weight m →
              (0 <= t_value t)%Z)).
Proof.
  unfold transform_event. split; [|split].
  - intros ->. reflexivity.
  - intros m e -> ->. reflexivity.
  - intros m r -> Hr.
    destruct (datetime.fromisoformat _) as [ts|e]; simpl in Hr; [|discriminate].
    injection Hr as <-. eexists. split; [reflexivity|]. cbn [t_asset_symbol
      t_pillar t_key t_value].
    split; [reflexivity|].
    split; [apply score_backend_range|].
    split; [apply score_backend_zero|].
    intros c. apply score_backend_nonneg.
Qed.

Lemma transform_event_value_witness :
  transform_event example_config
    (mkEvent "JP_CPI" "2024-01-15" "final" 2.6 (Some 2.5) None "high"
             "not a timestamp" "test")
  = Ok None.
Proof.
  apply (proj1 (transform_event_value example_config _)). reflexivity.
Defined.

(** *** [process_events] in a dry run *)

Lemma process_events_dry_run_fold (cfg : config) (events : list Event) (st : stats) :
  let st' := fold_left (process_event_dry_run cfg) events st in
  (processed st' + skipped st' + errors st'
   = processed st + skipped st + errors st + Z.of_nat (length events))%Z
  ∧ (skipped st'
     = skipped st
       + Z.of_nat (length (filter (λ e, get_mapping_info cfg (series_id e) = None)
                                  events)))%Z
  ∧ (processed st <= processed st')%Z ∧ (errors st <= errors st')%Z.
Proof.
  revert st. induction events as [|ev events IH]; intros st; [simpl; lia|].
  cbn [fold_left]. cbv zeta in IH |- *.
  destruct (IH (process_event_dry_run cfg st ev)) as (H1 & H2 & H3 & H4).
  rewrite H1, H2, filter_cons. clear IH H1 H2.
  unfold process_event_dry_run, transform_event in *.
  destruct (get_mapping_info cfg (series_id ev)) as [m|] eqn:Em.
  - rewrite decide_False by done.
    destruct (datetime.fromisoformat _) as [ts|e]; simpl in *;
      cbn [length]; lia.
  - rewrite decide_True by done. simpl in *. cbn [length]. lia.
Qed.

(** X20.  In a dry run [process_events] counts every event exactly once:
    processed, skipped and errors add up to the number of events, and
    skipped is the number of events whose series has no mapping. *)
Theorem process_events_dry_run_counts (cfg : config) (events : list Event) :
  (processed (process_events_dry_run cfg events)
   + skipped (process_events_dry_run cfg events)
   + errors (process_events_dry_run cfg events)
   = Z.of_nat (length events))%Z
  ∧ (skipped (process_events_dry_run cfg events)
     = Z.of_nat (length (filter (λ e, get_mapping_info cfg (series_id e) = None)
                                events)))%Z
  ∧ (0 <= processed (process_events_dry_run cfg events))%Z
  ∧ (0 <= errors (process_events_dry_run cfg events))%Z.
Proof.
  unfold process_events_dry_run.
  destruct (process_events_dry_run_fold cfg events (mkStats 0 0 0))
    as (H1 & H2 & H3 & H4).
  cbn [processed skipped errors] in *. repeat split; lia.
Qed.

(** *** [load_scraper_events] *)

#[global] Instance order_ge_trans : Transitive order_ge.
Proof. intros e1 e2 e3 H1 H2. unfold order_ge in *. now transitivity e2. Qed.

#[global] Instance order_ge_total : Total order_ge.
Proof. intros e1 e2. unfold order_ge. destruct (total order_le e1 e2); auto. Qed.

Lemma StronglySorted_reverse {A : Type} (R : relation A) (l : list A) :
  StronglySorted R l → StronglySorted (flip R) (reverse l).
Proof.
  induction 1 as [|x l Hs IH Hall]; [constructor|].
  rewrite reverse_cons. apply StronglySorted_app_2; [|exact IH|repeat constructor].
  intros y x' Hy Hx'. apply list_elem_of_singleton in Hx' as ->.
  rewrite elem_of_reverse in Hy. rewrite Forall_forall in Hall.
  unfold flip. now apply Hall.
Qed.

Lemma elem_of_load_scraper_events (db : table) (series : string) (e : Event) :
  e ∈ load_scraper_events db series ↔ e ∈ rows db ∧ series_id e = series.
Proof.
  unfold load_scraper_events. rewrite merge_sort_Permutation, list_elem_of_filter.
  rewrite String.eqb_eq. tauto.
Qed.

(** X21.  What the bridge loads for a (non-empty) series id is, read backwards, what
    [fetch_events] yields without the [as_of] cut: every fetch is the
    reversed load restricted to the rows whose timestamp text is at most
    the bound, and a fetch whose bound admits every row of the series is
    the reversed load. *)
Theorem load_scraper_events_reverses_fetch (now : datetime.t) (db : table)
        (series : string) (as_of : datetime.t) :
  series ≠ "" →
  fetch_events now db series (Some as_of)
  = filter (λ e, text.le (release_time_utc e) (datetime.isoformat as_of))
           (reverse (load_scraper_events db series))
  ∧ ((∀ e, e ∈ rows db → series_id e = series →
           text.le (release_time_utc e) (datetime.isoformat as_of)) →
     load_scraper_events db series
     = reverse (fetch_events now db series (Some as_of))).
Proof.
  intros _.
  assert (StronglySorted order_le (reverse (load_scraper_events db series))) as Hs.
  { apply (StronglySorted_reverse order_ge). unfold load_scraper_events.
    apply StronglySorted_merge_sort; apply _. }
  assert (NoDup (reverse (load_scraper_events db series))) as Hnd.
  { rewrite reverse_Permutation. unfold load_scraper_events.
    rewrite merge_sort_Permutation. apply NoDup_filter, NoDup_rows. }
  split.
  - symmetry. apply fetch_events_unique.
    + now apply StronglySorted_filter.
    + now apply NoDup_filter.
    + intros e. rewrite list_elem_of_filter, elem_of_reverse,
        elem_of_load_scraper_events, elem_of_fetch_events. tauto.
  - intros Hall.
    rewrite <- (reverse_involutive (load_scraper_events db series)). f_equal.
    apply fetch_events_unique; [exact Hs | exact Hnd |].
    intros e. rewrite elem_of_reverse, elem_of_load_scraper_events,
      elem_of_fetch_events.
    split; [|tauto]. intros [Hr Hser]. repeat split; try done. now apply Hall.
Qed.

Lemma load_scraper_events_reverses_fetch_witness :
  load_scraper_events two_vintages "US_CPI"
  = reverse (fetch_events clock_2025 two_vintages "US_CPI" (Some clock_2025)).
Proof.
  apply (proj2 (load_scraper_events_reverses_fetch clock_2025 two_vintages
                  "US_CPI" clock_2025 ltac:(discriminate))).
  intros e He _. apply elem_of_rows_two_vintages in He as [-> | ->]; reflexivity.
Defined.

End bridge_facts.

(** ** [providers.py], [normalizer.py] and [main.py]: properties *)

Module pipeline_facts.

Import providers normalizer.
Local Open Scope string_scope.

(** *** The provider registry *)

Lemma first_fetched_Some (ps : list Provider) (sid : string) (payload : EventPayload) :
  first_fetched ps sid = Some payload
  ↔ ∃ before p after,
      ps = (before ++ p :: after)%list
      ∧ Forall (λ q : Provider, q sid = None) before
      ∧ p sid = Some payload.
Proof.
  induction ps as [|p ps IH]; simpl.
  - split; [done|]. intros (before & q & after & H & _). now destruct before.
  - destruct (p sid) as [r|] eqn:E.
    + split.
      * intros [= ->]. exists [], p, ps. repeat split; [constructor | exact E].
      * intros ([|q before] & p' & after & H & Hall & Hp).
        -- injection H as <- _. congruence.
        -- injection H as <- _. apply Forall_cons in Hall as [Hq _]. congruence.
    + rewrite IH. split.
      * intros (before & p' & after & -> & Hall & Hp).
        exists (p :: before), p', after. repeat split; [|exact Hp].
        constructor; [exact E | exact Hall].
      * intros ([|q before] & p' & after & H & Hall & Hp).
        -- injection H as <- _. congruence.
        -- injection H as _ ->. apply Forall_cons in Hall as [_ Hall].
           exists before, p', after. repeat split; assumption.
Qed.

Lemma first_fetched_None (ps : list Provider) (sid : string) :
  first_fetched ps sid = None ↔ Forall (λ q : Provider, q sid = None) ps.
Proof.
  induction ps as [|p ps IH]; simpl; [split; [constructor | done]|].
  destruct (p sid) eqn:E.
  - split; [done|]. intros H. apply Forall_cons in H as [H _]. congruence.
  - rewrite IH. split; [now constructor|]. intros H. now apply Forall_cons in H.
Qed.

(** X22.  [ProviderRegistry.fetch] returns the payload of the first
    registered provider, in registration order, that does not raise; it
    raises [RuntimeError] exactly when every provider of the series
    raises, in particular when none is registered.  Registering providers
    for a series replaces the earlier ones and leaves other series
    alone. *)
Theorem registry_fetch_first_success (reg : registry) (sid : string)
        (ps : list Provider) :
  (∀ payload : EventPayload,
     fetch (register reg sid ps) sid = pyx.Ok payload
     ↔ ∃ before p after,
         ps = (before ++ p :: after)%list
         ∧ Forall (λ q : Provider, q sid = None) before
         ∧ p sid = Some payload)
  ∧ ((∃ msg, fetch (register reg sid ps) sid = pyx.Raise (pyx.RuntimeError msg))
     ↔ Forall (λ q : Provider, q sid = None) ps)
  ∧ (∀ sid' : string, sid ≠ sid' → fetch (register reg sid ps) sid' = fetch reg sid')
  ∧ (∃ msg, fetch empty_registry sid = pyx.Raise (pyx.RuntimeError msg)).
Proof.
  unfold fetch, register. rewrite lookup_insert_eq.
  split; [|split; [|split]].
  - intros payload. rewrite <- first_fetched_Some.
    destruct (first_fetched ps sid); split; intros H; congruence.
  - rewrite <- first_fetched_None.
    destruct (first_fetched ps sid); split; intros H; try done; eauto.
    now destruct H.
  - intros sid' Hne. now rewrite lookup_insert_ne.
  - unfold empty_registry. rewrite lookup_empty. simpl. eauto.
Qed.

Lemma registry_fetch_first_success_witness :
  ∃ msg, fetch (register empty_registry "US_CPI" [λ _, None; λ _, None]) "US_CPI"
         = pyx.Raise (pyx.RuntimeError msg).
Proof.
  apply (proj1 (proj2 (registry_fetch_first_success empty_registry "US_CPI"
                         [λ _, None; λ _, None]))).
  repeat constructor.
Defined.

(** *** [normalize_units] *)

(** X23.  [normalize_units] is idempotent.  A payload whose unit is a
    spelling of percent has its actual, consensus and previous divided by
    100, absent values staying absent, and its unit set to "ratio", so
    its absolute surprise is divided by 100 as well; every other payload
    is returned as it is. *)
Theorem normalize_units_idempotent (p : EventPayload) :
  normalize_units (normalize_units p) = normalize_units p
  ∧ (is_percent (unit p) = true →
     actual (normalize_units p) = (actual p / 100)%R
     ∧ consensus (normalize_units p) = scale (consensus p)
     ∧ previous (normalize_units p) = scale (previous p)
     ∧ unit (normalize_units p) = "ratio"
     ∧ ∀ c : R, consensus p = Some c →
         ∃ c', consensus (normalize_units p) = Some c'
               ∧ (actual (normalize_units p) - c' = (actual p - c) / 100)%R)
  ∧ (is_percent (unit p) = false → normalize_units p = p).
Proof.
  unfold normalize_units.
  destruct (is_percent (unit p)) eqn:E.
  - split; [reflexivity|]. split; [|done]. intros _. cbn.
    repeat split. intros c ->. eexists. split; [reflexivity|]. lra.
  - rewrite E. split; [reflexivity|]. split; [done | reflexivity].
Qed.

Lemma normalize_units_idempotent_witness :
  actual (normalize_units
            (mkEventPayload "US_CPI" 3.2%R (Some 3.1%R) None "mid"
               "2023-12-31T00:00:00" "2023-12-31T00:00:00Z" "worldbank" "Percent"))
  = (3.2 / 100)%R.
Proof.
  exact (proj1 (proj1 (proj2 (normalize_units_idempotent
           (mkEventPayload "US_CPI" 3.2%R (Some 3.1%R) None "mid"
              "2023-12-31T00:00:00" "2023-12-31T00:00:00Z" "worldbank" "Percent")))
           eq_refl)).
Defined.

(** *** The example workflow *)

Section workflow.

Import py event_store scoring store_facts store_more scoring_facts scoring_more main.
Local Open Scope R_scope.

Variable str : R → string.
Variable clock : nat → datetime.t.

Lemma category_score_single (ck : nat → datetime.t) (ev : Event)
      (freq : string) (v : R) :
  category_score str ck [(ev, freq)] = Ok v → v = 0.
Proof.
  unfold category_score. cbn [category_loop].
  destruct (event_surprise str ev) as [s|e];
    cbn -[z_score decay_weight point_from_z sum]; [|discriminate].
  destruct (decay_weight _ _ _ _) as [w|e];
    cbn -[z_score decay_weight point_from_z sum]; [|discriminate].
  intros [= <-].
  assert (mean [s] = s) as -> by (unfold mean, sum; simpl; field).
  rewrite Rminus_diag. unfold Rdiv at 2. rewrite !Rmult_0_l, sum_cons, sum_nil.
  apply point_from_z_dead_zone.
  rewrite Rplus_0_l, Rdiv_0_l, Rabs_R0. lra.
Qed.

Lemma fetch_events_single_row (now : datetime.t) (ev : Event) (series : string)
      (as_of : option datetime.t) :
  let l := fetch_events now (<[event_key ev := event_columns ev]> init_db)
                        series as_of in
  l = [] ∨ l = [ev].
Proof.
  intros l.
  assert (∀ e, e ∈ l → e = ev) as Hel.
  { intros e He. apply elem_of_fetch_events in He as (Hr & _).
    apply elem_of_rows_insert in Hr as [-> | [Hr _]]; [reflexivity|].
    apply elem_of_rows in Hr. unfold init_db in Hr.
    now rewrite lookup_empty in Hr. }
  pose proof (NoDup_fetch_events now (<[event_key ev := event_columns ev]> init_db)
                series as_of) as Hnd. fold l in Hnd.
  destruct l as [|e1 [|e2 l']]; [now left | right |].
  - f_equal. apply Hel. left.
  - exfalso. apply NoDup_cons in Hnd as [Hn _]. apply Hn.
    rewrite (Hel e1), (Hel e2); [left | right; left | left].
Qed.

(** X24.  The example workflow on an empty store: whatever the providers
    return, [run] leaves at most one row, a "final" vintage of series
    "US_CPI" whose release date is the first ten characters of its
    timestamp; it leaves the store empty when fetching or adding raises;
    and the score it prints, if it prints one, is 0, because a single
    stored event is scored against its own history only. *)
Theorem run_on_empty_store (reg : providers.registry) (db' : table) (out : outcome) :
  run str clock reg init_db = (db', out) →
  (size db' <= 1)%nat
  ∧ (∀ e : Event,
       e ∈ rows db' →
       event_store.series_id e = SERIES_ID ∧ vintage e = "final"
       ∧ release_date e = prefix 10 (event_store.release_time_utc e))
  ∧ ((∃ e, out = FetchRaised e) ∨ (∃ e, out = AddRaised e) → db' = init_db)
  ∧ (∀ score : R, out = Printed score → score = 0).
Proof.
  unfold run.
  destruct (providers.fetch reg SERIES_ID) as [fetched|e].
  2:{ intros [= <- <-]. split; [unfold init_db; rewrite map_size_empty; lia|].
      split; [|split; [done|]].
      - intros e0 He. apply elem_of_rows in He. unfold init_db in He.
        now rewrite lookup_empty in He.
      - intros score [=]. }
  set (ev := event_of_payload (normalize_units fetched)).
  destruct (add_event_cases (clock 0%nat) init_db ev) as [[e He] | He]; rewrite He.
  - intros [= <- <-]. split; [unfold init_db; rewrite map_size_empty; lia|].
    split; [|split; [done|]].
    + intros e0 H0. apply elem_of_rows in H0. unfold init_db in H0.
      now rewrite lookup_empty in H0.
    + intros score [=].
  - assert (size (<[event_key ev := event_columns ev]> init_db) <= 1)%nat as Hsize.
    { unfold init_db. rewrite map_size_insert, lookup_empty, map_size_empty. simpl. lia. }
    assert (∀ e0, e0 ∈ rows (<[event_key ev := event_columns ev]> init_db) →
                  event_store.series_id e0 = SERIES_ID ∧ vintage e0 = "final"
                  ∧ release_date e0 = prefix 10 (event_store.release_time_utc e0))
      as Hrows.
    { intros e0 H0. apply elem_of_rows_insert in H0 as [-> | [H0 _]];
        [repeat split|].
      apply elem_of_rows in H0. unfold init_db in H0.
      now rewrite lookup_empty in H0. }
    destruct (fetch_events_single_row (clock 1%nat) ev SERIES_ID None) as [Hl | Hl];
      rewrite Hl; simpl.
    + intros [= <- <-]. split; [exact Hsize|]. split; [exact Hrows|].
      split; [intros [[e [=]] | [e [=]]]|]. now intros score [= <-].
    + destruct (category_score str _ [(ev, "q")]) as [v|e] eqn:Ev.
      * intros [= <- <-]. split; [exact Hsize|]. split; [exact Hrows|].
        split; [intros [[e [=]] | [e [=]]]|]. intros score [= <-].
        eapply category_score_single. exact Ev.
      * intros [= <- <-]. split; [exact Hsize|]. split; [exact Hrows|].
        split; [intros [[e' [=]] | [e' [=]]]|]. intros score [=].
Qed.

End workflow.

Lemma run_on_empty_store_witness :
  (size (main.run examples.constant_str examples.constant_clock
           (register empty_registry "US_CPI"
              [λ sid, Some (mkEventPayload sid 3.2%R (Some 3.1%R) None "mid"
                              "2023-12-31T00:00:00" "2023-12-31T00:00:00Z"
                              "worldbank" "percent")])
           event_store.init_db).1 <= 1)%nat.
Proof.
  exact (proj1 (run_on_empty_store _ _ _ _ _ (surjective_pairing _))).
Defined.

End pipeline_facts.

(** ** [isoformat] and the order of timestamps *)

Module datetime_facts.

Import datetime terms text_facts.
Local Open Scope string_scope.
Local Open Scope Z_scope.

(** *** Text of equal-length prefixes *)

Lemma compare_app (a b s t : string) :
  String.length a = String.length b →
  String.compare (a ++ s) (b ++ t)
  = match String.compare a b with
    | Eq => String.compare s t
    | c => c
    end.
Proof.
  revert b. induction a as [|x a IH]; intros [|y b] Hlen; try discriminate.
  - reflexivity.
  - simpl. destruct (Ascii.compare x y); [|reflexivity..].
    apply IH. simpl in Hlen. lia.
Qed.

Lemma compare_cons_same (c : ascii) (s t : string) :
  String.compare (String c s) (String c t) = String.compare s t.
Proof.
  cbn [String.compare]. unfold Ascii.compare. now rewrite N.compare_refl.
Qed.

Lemma length_append (a b : string) :
  String.length (a ++ b) = (String.length a + String.length b)%nat.
Proof. induction a as [|x a IH]; simpl; [reflexivity | now rewrite IH]. Qed.

(** *** Zero-padded decimals *)

Lemma length_zero_padded (w : nat) (n : Z) : String.length (zero_padded w n) = w.
Proof.
  revert n. induction w as [|w IH]; intros n; [reflexivity|].
  cbn [zero_padded]. rewrite length_append, IH. simpl. lia.
Qed.

Lemma digit_char_compare (d e : Z) :
  0 <= d <= 9 → 0 <= e <= 9 →
  Ascii.compare (digit_char d) (digit_char e) = (d ?= e).
Proof.
  intros Hd He. unfold Ascii.compare, digit_char.
  rewrite !N_ascii_embedding by lia.
  rewrite Z2N.inj_compare by lia.
  destruct (Z.compare_spec d e), (Z.compare_spec (48 + d) (48 + e));
    (reflexivity || lia).
Qed.

Lemma compare_decimal (q1 r1 q2 r2 : Z) :
  0 <= r1 <= 9 → 0 <= r2 <= 9 →
  match q1 ?= q2 with
  | Eq => r1 ?= r2
  | c => c
  end = (10 * q1 + r1 ?= 10 * q2 + r2).
Proof.
  intros H1 H2.
  destruct (Z.compare_spec q1 q2), (Z.compare_spec r1 r2),
    (Z.compare_spec (10 * q1 + r1) (10 * q2 + r2)); (reflexivity || lia).
Qed.

Lemma zero_padded_compare (w : nat) (n m : Z) :
  0 <= n < 10 ^ Z.of_nat w → 0 <= m < 10 ^ Z.of_nat w →
  String.compare (zero_padded w n) (zero_padded w m) = (n ?= m).
Proof.
  revert n m. induction w as [|w IH]; intros n m Hn Hm.
  - simpl in *. assert (n = 0) as -> by lia. assert (m = 0) as -> by lia.
    reflexivity.
  - rewrite Nat2Z.inj_succ, Z.pow_succ_r in Hn, Hm by lia.
    cbn [zero_padded]. rewrite compare_app by (now rewrite !length_zero_padded).
    rewrite IH by (split; [apply Z.div_pos; lia | apply Z.div_lt_upper_bound; lia]).
    cbn [String.compare].
    pose proof (Z.mod_pos_bound n 10 ltac:(lia)).
    pose proof (Z.mod_pos_bound m 10 ltac:(lia)).
    rewrite digit_char_compare by lia.
    assert (∀ c : comparison, match c with Eq => Eq | Lt => Lt | Gt => Gt end = c)
      as Hid by (now intros []).
    rewrite Hid.
    rewrite (Z.div_mod n 10) at 3 by lia. rewrite (Z.div_mod m 10) at 3 by lia.
    apply compare_decimal; lia.
Qed.

(** *** The calendar: ordinals order dates as year, month, day *)

Ltac calc :=
  cbv [Z.to_nat Pos.to_nat Pos.iter_op Nat.add nth Z.eqb Pos.eqb Z.ltb
       Z.compare Pos.compare Pos.compare_cont andb] in *.

Lemma year_length (y : Z) :
  days_before_year (y + 1)
  = days_before_year y + 365 + (if is_leap y then 1 else 0).
Proof.
  unfold days_before_year, is_leap. replace (y + 1 - 1) with y by lia.
  cbv zeta.
  destruct (Z.eqb_spec (y mod 4) 0), (Z.eqb_spec (y mod 100) 0),
    (Z.eqb_spec (y mod 400) 0); simpl;
    Z.to_euclidean_division_equations; lia.
Qed.

Lemma days_before_year_mono (y y' : Z) :
  y <= y' → days_before_year y <= days_before_year y'.
Proof.
  unfold days_before_year. cbv zeta. intros.
  Z.to_euclidean_division_equations. lia.
Qed.

Lemma month_cases (m : Z) :
  1 <= m <= 12 →
  m = 1 ∨ m = 2 ∨ m = 3 ∨ m = 4 ∨ m = 5 ∨ m = 6 ∨ m = 7 ∨ m = 8 ∨ m = 9
  ∨ m = 10 ∨ m = 11 ∨ m = 12.
Proof. lia. Qed.

Lemma within_year (y m d m' d' : Z) :
  1 <= m <= 12 → 1 <= d <= days_in_month y m →
  1 <= m' <= 12 → 1 <= d' <= days_in_month y m' →
  m < m' → days_before_month y m + d < days_before_month y m' + d'.
Proof.
  intros Hm Hd Hm' Hd' Hlt.
  apply month_cases in Hm, Hm'.
  unfold days_before_month, days_in_month in *.
  generalize dependent (is_leap y). intros l; intros; destruct l;
    repeat (destruct Hm as [Hm|Hm]); subst m;
    repeat (destruct Hm' as [Hm'|Hm']); subst m'; try lia; calc; lia.
Qed.

Lemma year_bound (y m d : Z) :
  1 <= m <= 12 → 1 <= d <= days_in_month y m →
  1 <= days_before_month y m + d <= 365 + (if is_leap y then 1 else 0).
Proof.
  intros Hm Hd. apply month_cases in Hm.
  unfold days_before_month, days_in_month in *.
  generalize dependent (is_leap y). intros l; intros; destruct l;
    repeat (destruct Hm as [Hm|Hm]); subst m; calc; lia.
Qed.

(** The ordinal of a date orders dates as year, then month, then day. *)
Lemma ymd2ord_compare (y m d y' m' d' : Z) :
  1 <= m <= 12 → 1 <= d <= days_in_month y m →
  1 <= m' <= 12 → 1 <= d' <= days_in_month y' m' →
  (ymd2ord y m d ?= ymd2ord y' m' d')
  = match y ?= y' with
    | Eq => match m ?= m' with Eq => d ?= d' | Lt => Lt | Gt => Gt end
    | Lt => Lt
    | Gt => Gt
    end.
Proof.
  intros Hm Hd Hm' Hd'. unfold ymd2ord.
  pose proof (year_bound y m d Hm Hd) as Hb.
  pose proof (year_bound y' m' d' Hm' Hd') as Hb'.
  destruct (Z.compare_spec y y') as [-> | Hy | Hy].
  - destruct (Z.compare_spec m m') as [-> | Hmm | Hmm].
    + destruct (Z.compare_spec d d'); [apply Z.compare_eq_iff | apply Z.compare_lt_iff | apply Z.compare_gt_iff]; lia.
    + apply Z.compare_lt_iff. pose proof (within_year y' m d m' d' Hm Hd Hm' Hd' Hmm). lia.
    + apply Z.compare_gt_iff. pose proof (within_year y' m' d' m d Hm' Hd' Hm Hd Hmm). lia.
  - apply Z.compare_lt_iff.
    pose proof (year_length y). pose proof (days_before_year_mono (y + 1) y' ltac:(lia)).
    destruct (is_leap y); lia.
  - apply Z.compare_gt_iff.
    pose proof (year_length y'). pose proof (days_before_year_mono (y' + 1) y ltac:(lia)).
    destruct (is_leap y'); lia.
Qed.

(** *** [isoformat] orders datetimes of one offset as the time line does *)

Lemma zero_padded_2_compare (n m : Z) :
  0 <= n <= 99 → 0 <= m <= 99 →
  String.compare (zero_padded 2 n) (zero_padded 2 m) = (n ?= m).
Proof. intros. apply zero_padded_compare; simpl; lia. Qed.

Lemma zero_padded_4_compare (n m : Z) :
  0 <= n <= 9999 → 0 <= m <= 9999 →
  String.compare (zero_padded 4 n) (zero_padded 4 m) = (n ?= m).
Proof. intros. apply zero_padded_compare; simpl; lia. Qed.

Lemma zero_padded_6_compare (n m : Z) :
  0 <= n <= 999999 → 0 <= m <= 999999 →
  String.compare (zero_padded 6 n) (zero_padded 6 m) = (n ?= m).
Proof. intros. apply zero_padded_compare; simpl; lia. Qed.

Lemma append_cons (c : ascii) (s t : string) :
  String c s ++ t = String c (s ++ t).
Proof. reflexivity. Qed.

Lemma append_nil (t : string) : "" ++ t = t.
Proof. reflexivity. Qed.

Lemma compare_cons (c d : ascii) (s t : string) :
  String.compare (String c s) (String d t)
  = match Ascii.compare c d with
    | Eq => String.compare s t
    | Lt => Lt
    | Gt => Gt
    end.
Proof. reflexivity. Qed.

(** The text after the seconds: an optional fraction, then the offset.
    The offset starts with a sign, which sorts before the point. *)
Lemma fraction_compare (us us' : Z) (sfx : string) :
  0 <= us <= 999999 → 0 <= us' <= 999999 →
  (sfx = "" ∨ ∃ c r, sfx = String c r ∧ Ascii.compare c "." = Lt) →
  String.compare
    ((if us =? 0 then "" else String "." (zero_padded 6 us)) ++ sfx)
    ((if us' =? 0 then "" else String "." (zero_padded 6 us')) ++ sfx)
  = (us ?= us').
Proof.
  intros Hu Hu' Hs.
  destruct (Z.eqb_spec us 0) as [-> | Hn], (Z.eqb_spec us' 0) as [-> | Hn'].
  - apply compare_refl.
  - transitivity Lt; [|symmetry; apply Z.compare_lt_iff; lia].
    destruct Hs as [-> | (c & r & -> & Hc)]; [reflexivity|].
    rewrite ?append_cons, ?append_nil, compare_cons. now rewrite Hc.
  - transitivity Gt; [|symmetry; apply Z.compare_gt_iff; lia].
    apply compare_gt_lt.
    destruct Hs as [-> | (c & r & -> & Hc)]; [reflexivity|].
    rewrite ?append_cons, ?append_nil, compare_cons. now rewrite Hc.
  - rewrite ?append_cons, ?append_nil, compare_cons_same.
    rewrite compare_app by (now rewrite !length_zero_padded).
    rewrite zero_padded_6_compare by lia.
    destruct (us ?= us'); [apply compare_refl | reflexivity..].
Qed.

Lemma offset_text_sign (tz : option Z) :
  let sfx := match tz with Some off => format_offset off | None => "" end in
  sfx = "" ∨ ∃ c r, sfx = String c r ∧ Ascii.compare c "." = Lt.
Proof.
  destruct tz as [off|]; [right | now left].
  unfold format_offset. destruct (off <? 0); rewrite append_cons; eauto.
Qed.

Lemma compare_lex (c : comparison) (q1 q2 r1 r2 B : Z) :
  0 <= r1 < B → 0 <= r2 < B → c = (r1 ?= r2) →
  match q1 ?= q2 with
  | Eq => c
  | Lt => Lt
  | Gt => Gt
  end = (q1 * B + r1 ?= q2 * B + r2).
Proof.
  intros H1 H2 ->.
  destruct (Z.compare_spec q1 q2) as [-> | Hq | Hq].
  - destruct (Z.compare_spec r1 r2); symmetry;
      [apply Z.compare_eq_iff | apply Z.compare_lt_iff | apply Z.compare_gt_iff]; lia.
  - symmetry. apply Z.compare_lt_iff. nia.
  - symmetry. apply Z.compare_gt_iff. nia.
Qed.

Lemma compare_nest (cy cm cd rest : comparison) :
  match cy with
  | Eq => match cm with
          | Eq => match cd with Eq => rest | Lt => Lt | Gt => Gt end
          | Lt => Lt
          | Gt => Gt
          end
  | Lt => Lt
  | Gt => Gt
  end
  = match (match cy with
           | Eq => match cm with Eq => cd | Lt => Lt | Gt => Gt end
           | Lt => Lt
           | Gt => Gt
           end) with
    | Eq => rest
    | Lt => Lt
    | Gt => Gt
    end.
Proof. now destruct cy, cm, cd. Qed.

Lemma local_us_split (d : t) :
  local_us d
  = ymd2ord (year d) (month d) (day d) * 86400000000
    + (hour d * 3600000000
       + (minute d * 60000000 + (second d * 1000000 + microsecond d))).
Proof. unfold local_us. lia. Qed.

Lemma isoformat_compare (a b : t) :
  valid_datetime a → valid_datetime b → tzinfo a = tzinfo b →
  String.compare (isoformat a) (isoformat b) = (local_us a ?= local_us b).
Proof.
  intros (Hy & Hm & Hd & Hh & Hmi & Hs & Hu) (Hy' & Hm' & Hd' & Hh' & Hmi' & Hs' & Hu')
         Htz.
  assert (days_in_month (year a) (month a) <= 31) as Hd31.
  { pose proof (month_cases _ Hm) as Hc. unfold days_in_month.
    destruct (is_leap (year a));
      repeat (destruct Hc as [Hc|Hc]); rewrite Hc; calc; lia. }
  assert (days_in_month (year b) (month b) <= 31) as Hd31'.
  { pose proof (month_cases _ Hm') as Hc. unfold days_in_month.
    destruct (is_leap (year b));
      repeat (destruct Hc as [Hc|Hc]); rewrite Hc; calc; lia. }
  unfold isoformat. rewrite Htz.
  rewrite compare_app by (now rewrite !length_zero_padded).
  rewrite zero_padded_4_compare by lia.
  rewrite ?append_cons, ?append_nil, compare_cons_same.
  rewrite compare_app by (now rewrite !length_zero_padded).
  rewrite zero_padded_2_compare by lia.
  rewrite ?append_cons, ?append_nil, compare_cons_same.
  rewrite compare_app by (now rewrite !length_zero_padded).
  rewrite zero_padded_2_compare by lia.
  rewrite ?append_cons, ?append_nil, compare_cons_same.
  rewrite compare_app by (now rewrite !length_zero_padded).
  rewrite zero_padded_2_compare by lia.
  rewrite ?append_cons, ?append_nil, compare_cons_same.
  rewrite compare_app by (now rewrite !length_zero_padded).
  rewrite zero_padded_2_compare by lia.
  rewrite ?append_cons, ?append_nil, compare_cons_same.
  rewrite compare_app by (now rewrite !length_zero_padded).
  rewrite zero_padded_2_compare by lia.
  rewrite fraction_compare by (lia || apply offset_text_sign).
  etransitivity; [apply compare_nest|].
  rewrite <- ymd2ord_compare by assumption.
  rewrite !local_us_split.
  apply compare_lex; [lia..|].
  apply compare_lex; [lia..|].
  apply compare_lex; [lia..|].
  apply compare_lex; [lia..|].
  reflexivity.
Qed.

(** *** [fromisoformat] reads back what [isoformat] writes *)

Lemma append_assoc (a b c : string) : (a ++ b) ++ c = a ++ (b ++ c).
Proof.
  induction a as [|x a IH]; [reflexivity|].
  now rewrite !append_cons, IH.
Qed.

Lemma append_nil_r (a : string) : a ++ "" = a.
Proof.
  induction a as [|x a IH]; [reflexivity|]. now rewrite append_cons, IH.
Qed.

Lemma digit_of_digit_char (d : Z) : 0 <= d <= 9 → digit_of (digit_char d) = Some d.
Proof.
  intros Hd. unfold digit_of, digit_char. cbv zeta.
  rewrite N_ascii_embedding by lia. rewrite Z2N.id by lia.
  destruct (Z.leb_spec 48 (48 + d)), (Z.leb_spec (48 + d) 57); try lia.
  simpl. f_equal. lia.
Qed.

Lemma take_digits_zero_padded (w k : nat) (acc n : Z) (rest : string) :
  0 <= n < 10 ^ Z.of_nat w →
  take_digits (w + k) acc (zero_padded w n ++ rest)
  = take_digits k (acc * 10 ^ Z.of_nat w + n) rest.
Proof.
  revert k n rest. induction w as [|w IH]; intros k n rest Hn.
  - simpl in Hn. assert (n = 0) as -> by lia. simpl. f_equal. lia.
  - rewrite Nat2Z.inj_succ, Z.pow_succ_r in * by lia.
    change (zero_padded (S w) n)
      with (zero_padded w (n / 10) ++ String (digit_char (n mod 10)) "").
    rewrite append_assoc, append_cons, append_nil.
    replace (S w + k)%nat with (w + S k)%nat by lia.
    rewrite IH by (split; [apply Z.div_pos; lia | apply Z.div_lt_upper_bound; lia]).
    cbn [take_digits].
    rewrite digit_of_digit_char by (pose proof (Z.mod_pos_bound n 10); lia).
    f_equal. pose proof (Z.div_mod n 10). lia.
Qed.

Lemma take_digits_exact (w : nat) (n : Z) (rest : string) :
  0 <= n < 10 ^ Z.of_nat w →
  take_digits w 0 (zero_padded w n ++ rest) = Some (n, rest).
Proof.
  intros Hn. rewrite <- (Nat.add_0_r w) at 1.
  rewrite take_digits_zero_padded by assumption. reflexivity.
Qed.

#[local] Arguments zero_padded : simpl never.
#[local] Arguments take_digits : simpl never.
#[local] Arguments days_in_month : simpl never.

Lemma take_2_digits (n : Z) (rest : string) :
  0 <= n <= 99 → take_digits 2 0 (zero_padded 2 n ++ rest) = Some (n, rest).
Proof. intros. apply (take_digits_exact 2). simpl. lia. Qed.

Lemma take_4_digits (n : Z) (rest : string) :
  0 <= n <= 9999 → take_digits 4 0 (zero_padded 4 n ++ rest) = Some (n, rest).
Proof. intros. apply (take_digits_exact 4). simpl. lia. Qed.

Lemma take_6_digits (n : Z) (rest : string) :
  0 <= n <= 999999 → take_digits 6 0 (zero_padded 6 n ++ rest) = Some (n, rest).
Proof. intros. apply (take_digits_exact 6). simpl. lia. Qed.

Lemma days_in_month_le (y m : Z) : 1 <= m <= 12 → days_in_month y m <= 31.
Proof.
  intros Hm. pose proof (month_cases _ Hm) as Hc. unfold days_in_month.
  destruct (is_leap y);
    repeat (destruct Hc as [Hc|Hc]); rewrite Hc; calc; lia.
Qed.

Lemma parse_date_text (y m d : Z) (rest : string) :
  1 <= y <= 9999 → 1 <= m <= 12 → 1 <= d <= days_in_month y m →
  parse_date (zero_padded 4 y ++ String "-" (zero_padded 2 m
                ++ String "-" (zero_padded 2 d ++ rest)))
  = Some (y, m, d, rest).
Proof.
  intros Hy Hm Hd. pose proof (days_in_month_le y m Hm).
  unfold parse_date.
  rewrite take_4_digits by lia. simpl.
  rewrite take_2_digits by lia. simpl.
  rewrite take_2_digits by lia. simpl.
  destruct (Z.leb_spec 1 y), (Z.leb_spec 1 m), (Z.leb_spec m 12),
    (Z.leb_spec 1 d), (Z.leb_spec d (days_in_month y m)); try lia.
  reflexivity.
Qed.

Lemma parse_hms_text (h mi s : Z) (rest : string) :
  0 <= h <= 23 → 0 <= mi <= 59 → 0 <= s <= 59 →
  parse_hms (zero_padded 2 h ++ String ":" (zero_padded 2 mi
               ++ String ":" (zero_padded 2 s ++ rest)))
  = Some (h, mi, s, rest).
Proof.
  intros Hh Hm Hs. unfold parse_hms.
  rewrite take_2_digits by lia. simpl.
  rewrite take_2_digits by lia. simpl.
  rewrite take_2_digits by lia. simpl.
  destruct (Z.leb_spec h 23), (Z.leb_spec mi 59), (Z.leb_spec s 59); try lia.
  reflexivity.
Qed.

Lemma parse_fraction_text (us : Z) (tz : option Z) :
  0 <= us <= 999999 →
  parse_fraction ((if us =? 0 then "" else String "." (zero_padded 6 us))
                  ++ match tz with Some off => format_offset off | None => "" end)
  = Some (us, match tz with Some off => format_offset off | None => "" end).
Proof.
  intros Hu. destruct (Z.eqb_spec us 0) as [-> | Hn].
  - rewrite append_nil. destruct tz as [off|]; [|reflexivity].
    unfold format_offset. destruct (off <? 0); reflexivity.
  - rewrite append_cons. cbn [parse_fraction]. now apply take_6_digits.
Qed.

Lemma parse_tz_text (tz : option Z) :
  match tz with Some off => -1440 < off < 1440 | None => True end →
  parse_tz match tz with Some off => format_offset off | None => "" end = Some tz.
Proof.
  destruct tz as [off|]; [|reflexivity]. intros Hoff.
  assert (0 <= Z.abs off / 60 <= 23) as Hh
    by (split; [apply Z.div_pos; lia
               | apply Z.lt_succ_r, Z.div_lt_upper_bound; lia]).
  pose proof (Z.mod_pos_bound (Z.abs off) 60 ltac:(lia)) as Hm.
  pose proof (Z.div_mod (Z.abs off) 60 ltac:(lia)) as Hdm.
  assert (parse_offset (if off <? 0 then -1 else 1)
            (zero_padded 2 (Z.abs off / 60)
             ++ String ":" (zero_padded 2 (Z.abs off mod 60) ++ ""))
          = Some (Some off)) as Hp.
  { unfold parse_offset.
    rewrite take_2_digits by lia. simpl.
    rewrite take_2_digits by lia. simpl.
    destruct (Z.leb_spec (Z.abs off / 60) 23), (Z.leb_spec (Z.abs off mod 60) 59);
      try lia.
    simpl. do 2 f_equal. destruct (Z.ltb_spec off 0); lia. }
  unfold format_offset.
  replace (zero_padded 2 (Z.abs off mod 60))
    with (zero_padded 2 (Z.abs off mod 60) ++ "") at 1
    by apply append_nil_r.
  rewrite (append_cons ":" "").
  rewrite append_nil in *.
  destruct (off <? 0); exact Hp.
Qed.

(** The round trip, for every valid datetime, naive or with an offset of
    less than a day. *)
Lemma parse_isoformat (d : t) :
  valid_datetime d →
  match tzinfo d with Some off => -1440 < off < 1440 | None => True end →
  parse (isoformat d) = Some d.
Proof.
  intros (Hy & Hm & Hd & Hh & Hmi & Hs & Hu) Hoff.
  unfold parse, isoformat.
  rewrite ?append_cons, ?append_nil.
  rewrite parse_date_text by assumption. simpl.
  rewrite parse_hms_text by assumption. simpl.
  rewrite parse_fraction_text by assumption. simpl.
  rewrite parse_tz_text by assumption. simpl.
  now destruct d.
Qed.

(** *** The store on [isoformat] timestamps *)

Import py event_store store_facts examples.

Lemma le_isoformat (a b : t) :
  valid_datetime a → valid_datetime b → tzinfo a = tzinfo b →
  text.le (isoformat a) (isoformat b) ↔ instant a <= instant b.
Proof.
  intros Ha Hb Htz. unfold text.le, String.leb.
  rewrite isoformat_compare by assumption.
  unfold instant. rewrite Htz.
  destruct (Z.compare_spec (local_us a) (local_us b)); split; (lia || congruence).
Qed.

(** X25.  Where the stored timestamp is the [isoformat] text of a valid
    datetime with the UTC offset of [as_of], the text comparison of
    [fetch_events] is the comparison of instants: the event is yielded
    if and only if it is a stored row of the series released at or before
    [as_of]. *)
Theorem fetch_events_isoformat_timeline (now : t) (db : table) (series : string)
        (as_of rt : t) (e : Event) :
  valid_datetime as_of → valid_datetime rt → tzinfo rt = tzinfo as_of →
  release_time_utc e = isoformat rt →
  e ∈ fetch_events now db series (Some as_of)
  ↔ e ∈ rows db ∧ series_id e = series ∧ instant rt <= instant as_of.
Proof.
  intros Ha Hr Htz Htext.
  rewrite elem_of_fetch_events, Htext, le_isoformat by assumption.
  reflexivity.
Qed.

Lemma fetch_events_isoformat_timeline_witness :
  flash_event ∈ fetch_events clock_2025 two_vintages "US_CPI" (Some one_second_earlier)
  ↔ flash_event ∈ rows two_vintages ∧ series_id flash_event = "US_CPI"
    ∧ instant release_instant <= instant one_second_earlier.
Proof.
  apply (fetch_events_isoformat_timeline clock_2025 two_vintages "US_CPI"
           one_second_earlier release_instant flash_event).
  - vm_compute. repeat split; intros H; discriminate H.
  - vm_compute. repeat split; intros H; discriminate H.
  - reflexivity.
  - reflexivity.
Defined.

Lemma add_event_isoformat (now rt : t) (off : Z) (db : table) (e : Event) :
  valid_datetime rt → tzinfo rt = Some off → tzinfo now = Some off →
  -1440 < off < 1440 → release_time_utc e = isoformat rt →
  add_event now db e
  = if instant rt <=? instant now
    then (<[event_key e := event_columns e]> db, Ok ())
    else (db, Raise FutureReleaseError).
Proof.
  intros Hr Htz Htz' Hoff Htext. unfold add_event, fromisoformat.
  rewrite Htext, parse_isoformat by (rewrite ?Htz; assumption).
  change (Ok rt ≫= (λ rt0, datetime.compare rt0 now)) with (datetime.compare rt now).
  unfold datetime.compare. rewrite Htz, Htz'.
  destruct (Z.leb_spec (instant rt) (instant now)) as [H|H],
    (Z.compare_spec (instant rt) (instant now)); (reflexivity || lia).
Qed.

(** X26.  For an event stamped with the [isoformat] text of a valid
    datetime in the clock's UTC offset, the gate of [add_event] and the
    filter of [fetch_events] agree: the event is accepted exactly when
    its release instant is not after the clock; once accepted it is
    yielded by a default fetch at any later clock reading; and when it is
    refused, the error is [FutureReleaseError] and no default fetch at
    that clock reading yields it, whatever the table holds. *)
Theorem add_event_gate_matches_fetch (now later rt : t) (off : Z) (db : table)
        (e : Event) :
  valid_datetime now → valid_datetime later → valid_datetime rt →
  tzinfo now = Some off → tzinfo later = Some off → tzinfo rt = Some off →
  -1440 < off < 1440 →
  release_time_utc e = isoformat rt →
  instant now <= instant later →
  ((add_event now db e).2 = Ok () ↔ instant rt <= instant now)
  ∧ ((add_event now db e).2 = Ok () →
     e ∈ fetch_events later (add_event now db e).1 (series_id e) None)
  ∧ ((add_event now db e).2 ≠ Ok () →
     (add_event now db e).2 = Raise FutureReleaseError
     ∧ ∀ (db' : table) (series : string), e ∉ fetch_events now db' series None).
Proof.
  intros Hn Hl Hr Htn Htl Htr Hoff Htext Hle.
  rewrite (add_event_isoformat now rt off db e) by assumption.
  destruct (Z.leb_spec (instant rt) (instant now)) as [H|H]; cbn [fst snd].
  - split; [tauto|]. split; [|congruence]. intros _.
    apply elem_of_fetch_events. split; [apply elem_of_rows_insert; now left|].
    split; [reflexivity|].
    rewrite Htext. apply le_isoformat; [assumption.. | congruence | lia].
  - split; [split; [discriminate | lia]|]. split; [discriminate|].
    intros _. split; [reflexivity|]. intros db' series Hin.
    apply elem_of_fetch_events in Hin as (_ & _ & Ht).
    rewrite Htext in Ht. apply le_isoformat in Ht; [lia | assumption.. | congruence].
Qed.

Lemma add_event_gate_matches_fetch_witness :
  flash_event ∈ fetch_events clock_2025 (add_event release_instant init_db flash_event).1
                              (series_id flash_event) None.
Proof.
  apply (add_event_gate_matches_fetch release_instant clock_2025 release_instant 0
           init_db flash_event).
  - vm_compute. repeat split; intros H; discriminate H.
  - vm_compute. repeat split; intros H; discriminate H.
  - vm_compute. repeat split; intros H; discriminate H.
  - reflexivity.
  - reflexivity.
  - reflexivity.
  - lia.
  - reflexivity.
  - vm_compute. intros H; discriminate H.
  - vm_compute. reflexivity.
Defined.

End datetime_facts.

(** ** [monitoring_system.py]: the freshness of the data *)

Module freshness_facts.

Import py datetime terms text_facts datetime_facts event_store store_facts store_more.
Import examples bridge monitoring_system monitoring_examples.
Local Open Scope string_scope.
Local Open Scope Z_scope.

(** *** ['Z'] does not occur in what [isoformat] writes *)

Lemma replace_Z_app (a b : string) : replace_Z (a ++ b) = replace_Z a ++ replace_Z b.
Proof.
  induction a as [|c a IH]; [reflexivity|].
  rewrite append_cons. cbn [replace_Z]. rewrite IH.
  destruct (Ascii.eqb c "Z"); [|reflexivity].
  now rewrite <- append_assoc.
Qed.

Lemma replace_Z_digit (d : Z) (s : string) :
  0 <= d <= 9 → replace_Z (String (digit_char d) s) = String (digit_char d) (replace_Z s).
Proof.
  intros Hd. cbn [replace_Z].
  destruct (Ascii.eqb_spec (digit_char d) "Z") as [E|_]; [|reflexivity].
  apply (f_equal N_of_ascii) in E. unfold digit_char in E.
  rewrite N_ascii_embedding in E by lia. simpl in E. lia.
Qed.

Lemma replace_Z_zero_padded (w : nat) (n : Z) :
  replace_Z (zero_padded w n) = zero_padded w n.
Proof.
  revert n. induction w as [|w IH]; intros n; [reflexivity|].
  cbn [zero_padded]. rewrite replace_Z_app, IH.
  rewrite replace_Z_digit by (pose proof (Z.mod_pos_bound n 10); lia).
  reflexivity.
Qed.

Lemma replace_Z_isoformat (d : t) : replace_Z (isoformat d) = isoformat d.
Proof.
  unfold isoformat, format_offset.
  rewrite !replace_Z_app, !replace_Z_zero_padded.
  destruct (microsecond d =? 0), (tzinfo d) as [off|];
    rewrite ?replace_Z_app, ?replace_Z_zero_padded; try reflexivity;
    destruct (off <? 0); reflexivity.
Qed.

Lemma isoformat_nonempty (d : t) : ∃ c s, isoformat d = String c s.
Proof.
  unfold isoformat. change (zero_padded 4 (year d))
    with (zero_padded 3 (year d / 10) ++ String (digit_char (year d mod 10)) "").
  change (zero_padded 3 (year d / 10))
    with (zero_padded 2 (year d / 10 / 10)
          ++ String (digit_char (year d / 10 mod 10)) "").
  change (zero_padded 2 (year d / 10 / 10))
    with (zero_padded 1 (year d / 10 / 10 / 10)
          ++ String (digit_char (year d / 10 / 10 mod 10)) "").
  change (zero_padded 1 (year d / 10 / 10 / 10))
    with ("" ++ String (digit_char (year d / 10 / 10 / 10 mod 10)) "").
  rewrite append_nil, !append_cons. eauto.
Qed.

(** *** The greatest timestamp text *)

Lemma le_total (a b : string) : text.le a b ∨ text.le b a.
Proof.
  unfold text.le, String.leb. rewrite (String.compare_antisym a b).
  destruct (String.compare b a); simpl; auto.
Qed.

Lemma text_max_cases (a b : string) :
  (text_max a b = a ∨ text_max a b = b)
  ∧ text.le a (text_max a b) ∧ text.le b (text_max a b).
Proof.
  unfold text_max. destruct (String.leb a b) eqn:E.
  - split; [now right|]. split; [exact E | apply le_refl].
  - split; [now left|]. split; [apply le_refl|].
    destruct (le_total a b) as [H|H]; [unfold text.le in H; congruence | exact H].
Qed.

Lemma foldr_text_max (t : string) (ts : list string) :
  foldr text_max t ts ∈ t :: ts
  ∧ ∀ x, x ∈ t :: ts → text.le x (foldr text_max t ts).
Proof.
  induction ts as [|y ts [IHin IHle]]; cbn [foldr].
  - split; [left|]. intros x Hx. apply list_elem_of_singleton in Hx as ->.
    apply le_refl.
  - destruct (text_max_cases y (foldr text_max t ts)) as ([E|E] & Hy & Hm).
    + split; [rewrite E; right; left|].
      intros x Hx. apply elem_of_cons in Hx as [-> | Hx].
      * eapply le_trans; [apply IHle; left | exact Hm].
      * apply elem_of_cons in Hx as [-> | Hx]; [exact Hy|].
        eapply le_trans; [apply IHle; now right | exact Hm].
    + rewrite E. split.
      * apply elem_of_cons in IHin as [-> | Hin]; [left | right; now right].
      * intros x Hx. apply elem_of_cons in Hx as [-> | Hx]; [apply IHle; left|].
        apply elem_of_cons in Hx as [-> | Hx]; [now rewrite <- E | apply IHle; now right].
Qed.

Lemma max_release_time_spec (db : table) :
  (rows db = [] → max_release_time db = None)
  ∧ (rows db ≠ [] →
     ∃ e, e ∈ rows db
          ∧ max_release_time db = Some (release_time_utc e)
          ∧ ∀ e', e' ∈ rows db → text.le (release_time_utc e') (release_time_utc e)).
Proof.
  unfold max_release_time. destruct (rows db) as [|e0 es]; [now split|].
  split; [discriminate|]. intros _. rewrite fmap_cons.
  destruct (foldr_text_max (release_time_utc e0) (release_time_utc <$> es))
    as [Hin Hle].
  rewrite <- fmap_cons in Hin. apply list_elem_of_fmap in Hin as (e & He & Hin).
  exists e. split; [exact Hin|]. split; [now rewrite He|].
  intros e' He'. rewrite <- He. apply Hle. rewrite <- fmap_cons.
  apply list_elem_of_fmap. now exists e'.
Qed.

Lemma freshness_status_cases (h : R) :
  ((freshness_status h = "CRITICAL" ↔ 48 < h)
   ∧ (freshness_status h = "WARNING" ↔ 24 < h <= 48)
   ∧ (freshness_status h = "OK" ↔ h <= 24))%R.
Proof.
  unfold freshness_status.
  destruct (Rlt_dec 48 h), (Rlt_dec 24 h);
    repeat split; intros; try discriminate; try reflexivity; try lra.
Qed.

Section freshness.

Variable now : option Z → datetime.t.
Variable stamp : datetime.t.
Hypothesis now_tzinfo : ∀ tz, tzinfo (now tz) = tz.

Lemma hours_old_isoformat (rt : t) :
  valid_datetime rt →
  match tzinfo rt with Some off => -1440 < off < 1440 | None => True end →
  hours_old now (isoformat rt) = Ok (hours (instant (now (tzinfo rt)) - instant rt)).
Proof.
  intros Hv Hoff. unfold hours_old, fromisoformat.
  rewrite replace_Z_isoformat, parse_isoformat by assumption.
  change (Ok rt ≫= ?k) with (k rt). cbv beta.
  unfold sub. rewrite now_tzinfo. now destruct (tzinfo rt).
Qed.

(** X27.  On a table whose timestamps are the [isoformat] texts of valid
    datetimes of one UTC offset (or all naive), [check_data_freshness]
    measures the age of the latest release: the metric's value is the
    number of hours from the greatest release instant of the table to
    the clock, and its status is CRITICAL above 48 hours, WARNING above
    24 and OK otherwise.  On an empty table it reports the CRITICAL
    metric with value -1. *)
Theorem check_data_freshness_latest (db : table) (tz : option Z) :
  match tz with Some off => -1440 < off < 1440 | None => True end →
  (∀ e, e ∈ rows db →
        ∃ rt, valid_datetime rt ∧ tzinfo rt = tz ∧ release_time_utc e = isoformat rt) →
  (rows db = [] → check_data_freshness now stamp db = no_data stamp)
  ∧ (rows db ≠ [] →
     ∃ (e : Event) (rt : t),
       e ∈ rows db ∧ valid_datetime rt ∧ tzinfo rt = tz
       ∧ release_time_utc e = isoformat rt
       ∧ (∀ (e' : Event) (rt' : t),
            e' ∈ rows db → valid_datetime rt' → tzinfo rt' = tz →
            release_time_utc e' = isoformat rt' → instant rt' <= instant rt)
       ∧ let m := check_data_freshness now stamp db in
         let h := hours (instant (now tz) - instant rt) in
         HealthMetric.name m = "data_freshness"
         ∧ HealthMetric.value m = h
         ∧ HealthMetric.timestamp m = stamp
         ∧ (HealthMetric.status m = "CRITICAL" ↔ 48 < h)%R
         ∧ (HealthMetric.status m = "WARNING" ↔ 24 < h <= 48)%R
         ∧ (HealthMetric.status m = "OK" ↔ h <= 24)%R).
Proof.
  intros Hoff Hrows.
  destruct (max_release_time_spec db) as [Hnone Hsome].
  split.
  - intros Hnil. unfold check_data_freshness. now rewrite (Hnone Hnil).
  - intros Hne. destruct (Hsome Hne) as (e & Hin & Hmax & Hle).
    destruct (Hrows e Hin) as (rt & Hv & Htz & Htext).
    exists e, rt. repeat (split; [assumption|]).
    split.
    + intros e' rt' Hin' Hv' Htz' Htext'.
      apply le_isoformat; [assumption.. | congruence |].
      rewrite <- Htext, <- Htext'. now apply Hle.
    + cbv zeta. unfold check_data_freshness. rewrite Hmax, Htext.
      destruct (isoformat_nonempty rt) as (c & s & Hcs).
      pose proof (hours_old_isoformat rt Hv) as Hh.
      rewrite Htz, Hcs in Hh. rewrite Hcs, (Hh Hoff).
      cbn [HealthMetric.name HealthMetric.value HealthMetric.timestamp
                         HealthMetric.status].
      repeat (split; [reflexivity|]). apply freshness_status_cases.
Qed.

End freshness.

Lemma check_data_freshness_latest_witness :
  ∃ (e : Event) (rt : datetime.t),
    e ∈ rows two_vintages
    ∧ release_time_utc e = isoformat rt
    ∧ HealthMetric.value (check_data_freshness clock_in clock_2025 two_vintages)
      = hours (instant (clock_in (Some 0)) - instant rt).
Proof.
  destruct (check_data_freshness_latest clock_in clock_2025 (λ tz, eq_refl)
              two_vintages (Some 0)) as [_ H].
  - lia.
  - intros e [-> | ->]%elem_of_rows_two_vintages.
    + exists release_instant. split; [|split; reflexivity].
      vm_compute. repeat split; intros H; discriminate H.
    + exists (utc 2024 3 15 13 30 0 0). split; [|split; reflexivity].
      vm_compute. repeat split; intros H; discriminate H.
  - cbv zeta in H. destruct H as (e & rt & Hin & _ & _ & Htext & _ & _ & Hval & _).
    + intros Hnil.
      assert (flash_event ∈ rows two_vintages) as Hf.
      { assert (two_vintages
                = <[event_key final_event := event_columns final_event]>
                    (<[event_key flash_event := event_columns flash_event]> init_db))
          as -> by reflexivity.
        apply elem_of_rows_insert. right.
        split; [apply elem_of_rows_insert; now left | discriminate]. }
      rewrite Hnil in Hf. now apply elem_of_nil in Hf.
    + exists e, rt. exact (conj Hin (conj Htext Hval)).
Defined.

End freshness_facts.

(** ** [monitoring_system.py]: the overall status *)

Module status_facts.

Import py datetime pydict pydict_facts monitoring_system monitoring_examples.
Import HealthMetric.
Local Open Scope string_scope.
Local Open Scope Z_scope.

Lemma compare_comparable (a b : datetime.t) :
  comparable a b → datetime.compare a b = Ok (instant a ?= instant b).
Proof.
  unfold comparable, datetime.compare. intros [H1 H2].
  destruct (tzinfo a) as [x|], (tzinfo b) as [y|]; try reflexivity.
  - destruct (H1 (mk_is_Some _ _ eq_refl)) as [? [=]].
  - destruct (H2 (mk_is_Some _ _ eq_refl)) as [? [=]].
Qed.

Lemma str_in_true (x : string) (l : list string) : str_in x l = true ↔ x ∈ l.
Proof.
  unfold str_in. rewrite existsb_exists. split.
  - intros (y & Hy & E). apply String.eqb_eq in E as ->. now apply list_elem_of_In.
  - intros H. exists x. split; [now apply list_elem_of_In | apply String.eqb_refl].
Qed.

Lemma latest_unique (p : list t) (i j : nat) (m m' : t) :
  latest_of_name p i m → latest_of_name p j m' → name m = name m' →
  i = j ∧ m = m'.
Proof.
  intros [Hi Hm] [Hj Hm'] Hn.
  destruct (Hm j m' Hj (eq_sym Hn)) as [H1 H2].
  destruct (Hm' i m Hi Hn) as [H3 H4].
  assert (i = j) as -> by lia. split; [reflexivity | congruence].
Qed.

Lemma tracks_nil : tracks [] [].
Proof.
  split; [apply NoDup_nil_2|].
  split; [intros m Hm; now apply elem_of_nil in Hm | intros n m [=]].
Qed.

Lemma latest_snoc_other (p : list t) (x m : t) (i : nat) :
  latest_of_name p i m →
  (name x = name m → instant (timestamp x) <= instant (timestamp m)) →
  latest_of_name (p ++ [x]) i m.
Proof.
  intros [Hi Hm] Hx. pose proof (lookup_lt_Some _ _ _ Hi) as Hlt.
  split; [now apply lookup_app_l_Some|].
  intros j m' Hj Hn.
  destruct (decide (j < length p)%nat) as [Hjl|Hjl].
  - rewrite lookup_app_l in Hj by exact Hjl. now apply Hm.
  - rewrite lookup_app_r in Hj by lia.
    destruct (j - length p)%nat eqn:E; [|now destruct n].
    injection Hj as <-. split; [lia|]. intros _. now apply Hx.
Qed.

Lemma latest_snoc_new (p : list t) (x : t) :
  (∀ m', m' ∈ p → name m' = name x →
         instant (timestamp m') < instant (timestamp x)) →
  latest_of_name (p ++ [x]) (length p) x.
Proof.
  intros Hx. split.
  - rewrite lookup_app_r by lia. now rewrite Nat.sub_diag.
  - intros j m' Hj Hn. split.
    + intros Hlt. rewrite lookup_app_l in Hj by exact Hlt.
      apply Hx; [|exact Hn]. eapply list_elem_of_lookup_2, Hj.
    + intros Hgt. apply lookup_lt_Some in Hj. rewrite length_app in Hj.
      simpl in Hj. lia.
Qed.

Lemma tracks_step (p : list t) (d : pydict.t t) (x : t) :
  tracks p d →
  (∀ m, m ∈ p → comparable (timestamp x) (timestamp m)) →
  ∃ b, supersedes d x = Ok b
       ∧ tracks (p ++ [x]) (if b then set d (name x) x else d).
Proof.
  intros (Hwf & Hseen & Hlatest) Hcmp. unfold supersedes.
  destruct (get d (name x)) as [cur|] eqn:Hget.
  - destruct (Hlatest _ _ Hget) as [Hn [i Hcur]].
    assert (cur ∈ p) as Hin by (eapply list_elem_of_lookup_2, Hcur).
    rewrite compare_comparable by now apply Hcmp.
    change (Ok ?c ≫= ?k) with (k c). cbv beta.
    destruct (Z.compare_spec (instant (timestamp x)) (instant (timestamp cur)))
      as [Heq|Hlt|Hgt]; eexists; (split; [reflexivity|]);
      (split; [try exact Hwf; now apply wf_set|]).
    + split.
      * intros m Hm. apply elem_of_app in Hm as [Hm | Hm]; [now apply Hseen|].
        apply list_elem_of_singleton in Hm as ->. now rewrite Hget.
      * intros n m Hm. destruct (Hlatest _ _ Hm) as [Hnm [k Hk]].
        split; [exact Hnm|]. exists k. apply latest_snoc_other; [exact Hk|].
        intros E. assert (m = cur) as -> by congruence. lia.
    + split.
      * intros m Hm. apply elem_of_app in Hm as [Hm | Hm]; [now apply Hseen|].
        apply list_elem_of_singleton in Hm as ->. now rewrite Hget.
      * intros n m Hm. destruct (Hlatest _ _ Hm) as [Hnm [k Hk]].
        split; [exact Hnm|]. exists k. apply latest_snoc_other; [exact Hk|].
        intros E. assert (m = cur) as -> by congruence. lia.
    + split.
      * intros m Hm. destruct (decide (name x = name m)) as [E|E].
        -- rewrite <- E, get_set_eq. eauto.
        -- rewrite get_set_ne by exact E.
           apply elem_of_app in Hm as [Hm | Hm]; [now apply Hseen|].
           apply list_elem_of_singleton in Hm as ->. done.
      * intros n m Hm. destruct (decide (name x = n)) as [<- | E].
        -- rewrite get_set_eq in Hm. injection Hm as <-.
           split; [reflexivity|]. exists (length p). apply latest_snoc_new.
           intros m' Hm' Hn'. apply list_elem_of_lookup_1 in Hm' as [j Hj].
           destruct Hcur as [Hi Hc].
           destruct (Hc j m' Hj ltac:(congruence)) as [H1 H2].
           destruct (lt_eq_lt_dec j i) as [[Hl|He]|Hg]; [specialize (H1 Hl); lia | | specialize (H2 Hg); lia].
           subst j. assert (m' = cur) as -> by congruence. lia.
        -- rewrite get_set_ne in Hm by exact E.
           destruct (Hlatest _ _ Hm) as [Hnm [k Hk]].
           split; [exact Hnm|]. exists k. apply latest_snoc_other; [exact Hk|].
           intros E'. congruence.
  - exists true. split; [reflexivity|]. split; [now apply wf_set|]. split.
    + intros m Hm. destruct (decide (name x = name m)) as [E|E].
      * rewrite <- E, get_set_eq. eauto.
      * rewrite get_set_ne by exact E.
        apply elem_of_app in Hm as [Hm | Hm]; [now apply Hseen|].
        apply list_elem_of_singleton in Hm as ->. done.
    + intros n m Hm. destruct (decide (name x = n)) as [<- | E].
      * rewrite get_set_eq in Hm. injection Hm as <-.
        split; [reflexivity|]. exists (length p). apply latest_snoc_new.
        intros m' Hm' Hn'. destruct (Hseen m' Hm') as [v Hv].
        rewrite Hn' in Hv. congruence.
      * rewrite get_set_ne in Hm by exact E.
        destruct (Hlatest _ _ Hm) as [Hnm [k Hk]].
        split; [exact Hnm|]. exists k. apply latest_snoc_other; [exact Hk|].
        intros E'. congruence.
Qed.

Lemma latest_loop_tracks (rest p : list t) (d : pydict.t t) :
  tracks p d →
  (∀ m m', m ∈ (p ++ rest)%list → m' ∈ (p ++ rest)%list →
           comparable (timestamp m) (timestamp m')) →
  ∃ d', latest_loop rest d = Ok d' ∧ tracks (p ++ rest) d'.
Proof.
  revert p d. induction rest as [|x rest IH]; intros p d Ht Hcmp.
  - exists d. rewrite app_nil_r. now split.
  - destruct (tracks_step p d x Ht) as (b & Hb & Ht').
    { intros m Hm. apply Hcmp; [|now apply elem_of_app; left].
      apply elem_of_app. right. left. }
    cbn [latest_loop]. rewrite Hb. change (Ok b ≫= ?k) with (k b). cbv beta.
    replace (p ++ x :: rest)%list with ((p ++ [x]) ++ rest)%list in *
      by now rewrite <- app_assoc.
    now apply IH.
Qed.

Lemma tracks_status (p : list t) (d : pydict.t t) (s : string) :
  tracks p d →
  str_in s (status <$> values d) = true ↔ ∃ i m, latest_of_name p i m ∧ status m = s.
Proof.
  intros (Hwf & Hseen & Hlatest). rewrite str_in_true, list_elem_of_fmap. split.
  - intros (m & -> & Hm). unfold values in Hm.
    apply list_elem_of_fmap in Hm as ([n m'] & -> & Hin). cbn [snd].
    apply elem_get_Some in Hin; [|exact Hwf].
    destruct (Hlatest _ _ Hin) as [_ [i Hi]]. now exists i, m'.
  - intros (i & m & Hi & <-).
    assert (m ∈ p) as Hin by (eapply list_elem_of_lookup_2, Hi).
    destruct (Hseen m Hin) as [m0 Hm0].
    destruct (Hlatest _ _ Hm0) as [Hn [j Hj]].
    destruct (latest_unique p i j m m0 Hi Hj (eq_sym Hn)) as [_ ->].
    exists m0. split; [reflexivity|]. unfold values.
    apply list_elem_of_fmap. exists (name m0, m0). split; [reflexivity|].
    apply get_Some_elem. congruence.
Qed.

(** X28.  [_get_overall_status] on metrics whose timestamps can be
    compared (all naive, as [datetime.now()] stamps them, or all aware)
    returns UNKNOWN exactly for the empty list, and otherwise the worst
    status among the latest metric of each name: CRITICAL if one of them
    is CRITICAL, else WARNING if one is WARNING, else OK.  A reading that
    a later reading of the same name supersedes does not count. *)
Theorem get_overall_status_latest (metrics : list t) :
  (∀ m m', m ∈ metrics → m' ∈ metrics → comparable (timestamp m) (timestamp m')) →
  ∃ s : string,
    get_overall_status metrics = Ok s
    ∧ (s = "UNKNOWN" ↔ metrics = [])
    ∧ (s = "CRITICAL" ↔ ∃ i m, latest_of_name metrics i m ∧ status m = "CRITICAL")
    ∧ (s = "WARNING"
       ↔ (¬ ∃ i m, latest_of_name metrics i m ∧ status m = "CRITICAL")
         ∧ ∃ i m, latest_of_name metrics i m ∧ status m = "WARNING")
    ∧ (s = "OK"
       ↔ metrics ≠ []
         ∧ (¬ ∃ i m, latest_of_name metrics i m ∧ status m = "CRITICAL")
         ∧ ¬ ∃ i m, latest_of_name metrics i m ∧ status m = "WARNING").
Proof.
  intros Hcmp. destruct metrics as [|x rest].
  - exists "UNKNOWN". split; [reflexivity|].
    assert (∀ s, ¬ ∃ i m, latest_of_name [] i m ∧ status m = s) as Hno
      by (intros s (i & m & [Hi _] & _); now rewrite lookup_nil in Hi).
    repeat split; try done; intros H; try discriminate H.
    + now apply Hno in H.
    + destruct H as [_ H]. now apply Hno in H.
    + now destruct H as [H _].
  - destruct (latest_loop_tracks (x :: rest) [] [] tracks_nil Hcmp) as (d & Hd & Ht).
    rewrite app_nil_l in Ht.
    unfold get_overall_status. rewrite Hd.
    change (Ok d ≫= ?k) with (k d). cbv beta zeta.
    pose proof (tracks_status _ _ "CRITICAL" Ht) as Hc.
    pose proof (tracks_status _ _ "WARNING" Ht) as Hw.
    destruct (str_in "CRITICAL" (status <$> values d)) eqn:Ec.
    + exists "CRITICAL". split; [reflexivity|].
      apply proj1 in Hc. specialize (Hc eq_refl).
      repeat split; try done; intros H; try discriminate H; tauto.
    + assert (¬ ∃ i m, latest_of_name (x :: rest) i m ∧ status m = "CRITICAL")
        as Hnc by (intros H; apply Hc in H; discriminate H).
      destruct (str_in "WARNING" (status <$> values d)) eqn:Ew.
      * exists "WARNING". split; [reflexivity|].
        apply proj1 in Hw. specialize (Hw eq_refl).
        repeat split; try done; intros H; try discriminate H; tauto.
      * assert (¬ ∃ i m, latest_of_name (x :: rest) i m ∧ status m = "WARNING")
          as Hnw by (intros H; apply Hw in H; discriminate H).
        exists "OK". split; [reflexivity|].
        repeat split; try done; intros H; try discriminate H; tauto.
Qed.

Lemma get_overall_status_latest_witness :
  ∃ s : string,
    get_overall_status [cpu_warning; cpu_ok] = Ok s
    ∧ (s = "CRITICAL"
       ↔ ∃ i m, latest_of_name [cpu_warning; cpu_ok] i m
                ∧ HealthMetric.status m = "CRITICAL").
Proof.
  destruct (get_overall_status_latest [cpu_warning; cpu_ok]) as (s & H1 & _ & H2 & _).
  - intros m m' Hm Hm'.
    repeat (apply elem_of_cons in Hm as [-> | Hm]);
      repeat (apply elem_of_cons in Hm' as [-> | Hm']);
      try (now apply elem_of_nil in Hm); try (now apply elem_of_nil in Hm');
      unfold comparable; reflexivity.
  - now exists s.
Defined.

End status_facts.

(** ** [monitoring_system.py]: alerts *)

Module alert_facts.

Import py pydict pydict_facts monitoring_system alert_manager status_facts.
Import datetime_facts examples monitoring_examples.
Local Open Scope string_scope.

(** *** Deleting from a dictionary *)

Lemma get_remove_eq {V : Type} (d : pydict.t V) (k : string) : get (remove d k) k = None.
Proof.
  induction d as [|[k' v] d IH]; [reflexivity|]. cbn [remove].
  destruct (String.eqb k k') eqn:E; [exact IH|]. cbn [get]. now rewrite E.
Qed.

Lemma get_remove_ne {V : Type} (d : pydict.t V) (k k' : string) :
  k ≠ k' → get (remove d k) k' = get d k'.
Proof.
  intros Hne. induction d as [|[k0 v] d IH]; [reflexivity|]. cbn [remove].
  destruct (String.eqb_spec k k0) as [<- | Hk]; cbn [get].
  - rewrite IH. destruct (String.eqb_spec k' k) as [-> | _]; [done | reflexivity].
  - now rewrite IH.
Qed.

Lemma keys_remove {V : Type} (d : pydict.t V) (k x : string) :
  x ∈ keys (remove d k) → x ∈ keys d.
Proof.
  unfold keys. induction d as [|[k' v] d IH]; [done|]. cbn [remove].
  destruct (String.eqb k k'); rewrite ?fmap_cons, ?elem_of_cons; cbn [fst]; tauto.
Qed.

Lemma wf_remove {V : Type} (d : pydict.t V) (k : string) : wf d → wf (remove d k).
Proof.
  unfold wf. induction d as [|[k' v] d IH]; [done|].
  rewrite fmap_cons. intros [Hk' Hd]%NoDup_cons. cbn [remove].
  destruct (String.eqb k k'); [now apply IH|].
  rewrite fmap_cons. apply NoDup_cons. split; [|now apply IH].
  intros Hin. apply Hk'. now apply (keys_remove d k).
Qed.

(** *** [str.replace] on an alert id *)

Lemma prefix_cons (a b : ascii) (s1 s2 : string) :
  String.prefix (String a s1) (String b s2) = true ↔ a = b ∧ String.prefix s1 s2 = true.
Proof.
  cbn [String.prefix]. destruct (ascii_dec a b) as [E|E]; [tauto|].
  split; [discriminate | tauto].
Qed.

Lemma prefix_nil (s : string) : String.prefix "" s = true.
Proof. now destruct s. Qed.

Lemma occurs_cons (old : string) (c : ascii) (s : string) :
  occurs old (String c s) = false →
  String.prefix old (String c s) = false ∧ occurs old s = false.
Proof. cbn [occurs]. apply orb_false_elim. Qed.

Lemma prefix_OK_suffix (n : string) :
  occurs "_OK" n = false → String.prefix "_OK" (n ++ "_OK") = true → n = "".
Proof.
  intros Hno Hp. destruct n as [|c n]; [reflexivity|]. exfalso.
  apply occurs_cons in Hno as [Hno _].
  rewrite append_cons in Hp. apply prefix_cons in Hp as [<- Hp].
  destruct n as [|c n];
    [rewrite append_nil in Hp; now apply prefix_cons in Hp as [[=] _]|].
  rewrite append_cons in Hp. apply prefix_cons in Hp as [<- Hp].
  destruct n as [|c n];
    [rewrite append_nil in Hp; now apply prefix_cons in Hp as [[=] _]|].
  rewrite append_cons in Hp. apply prefix_cons in Hp as [<- Hp].
  enough (String.prefix "_OK" (String "_" (String "O" (String "K" n))) = true)
    by congruence.
  repeat (apply prefix_cons; split; [reflexivity|]). apply prefix_nil.
Qed.

Lemma replace_OK_suffix (new n : string) :
  occurs "_OK" n = false → replace "_OK" new (n ++ "_OK") = n ++ new.
Proof.
  unfold replace. induction n as [|c n IH]; intros Hno.
  - rewrite append_nil. cbn. now rewrite append_nil_r.
  - rewrite !append_cons. cbn [replace_from].
    destruct (String.prefix "_OK" (String c (n ++ "_OK"))) eqn:Hp.
    + now apply (prefix_OK_suffix (String c n)) in Hp.
    + rewrite IH; [reflexivity|]. now apply occurs_cons in Hno.
Qed.

(** *** Resolving an alert *)

Lemma coherent_address (am : AlertManager) (k k' : string) (a : nat) :
  coherent am →
  get (active_alerts am) k = Some a → get (active_alerts am) k' = Some a → k = k'.
Proof.
  intros (_ & Hact & _) H1 H2.
  destruct (Hact _ _ H1) as (al & Hal & <- & _).
  destruct (Hact _ _ H2) as (al' & Hal' & <- & _). congruence.
Qed.

Lemma resolve_get_eq (key : string) (m : HealthMetric.t) (am : AlertManager) :
  get (active_alerts (resolve key m am)) key = None.
Proof.
  unfold resolve. destruct (get (active_alerts am) key) eqn:E; [|exact E].
  apply get_remove_eq.
Qed.

Lemma resolve_get_ne (key k : string) (m : HealthMetric.t) (am : AlertManager) :
  key ≠ k → get (active_alerts (resolve key m am)) k = get (active_alerts am) k.
Proof.
  intros Hne. unfold resolve.
  destruct (get (active_alerts am) key); [|reflexivity]. now apply get_remove_ne.
Qed.

Lemma resolve_get_Some (key k : string) (m : HealthMetric.t) (am : AlertManager)
      (a : nat) :
  get (active_alerts (resolve key m am)) k = Some a →
  key ≠ k ∧ get (active_alerts am) k = Some a.
Proof.
  intros H. destruct (String.eqb_spec key k) as [<- | Hne].
  - now rewrite resolve_get_eq in H.
  - split; [exact Hne|]. now rewrite resolve_get_ne in H.
Qed.

Lemma resolve_length (key : string) (m : HealthMetric.t) (am : AlertManager) :
  length (heap (resolve key m am)) = length (heap am).
Proof.
  unfold resolve. destruct (get (active_alerts am) key); [|reflexivity].
  apply length_alter.
Qed.

Lemma resolve_heap_eq (key : string) (m : HealthMetric.t) (am : AlertManager) (a : nat) :
  get (active_alerts am) key = Some a →
  heap (resolve key m am) !! a
  = mark_resolved (HealthMetric.timestamp m) <$> heap am !! a.
Proof. intros H. unfold resolve. rewrite H. apply list_lookup_alter_eq. Qed.

Lemma resolve_heap_ne (key : string) (m : HealthMetric.t) (am : AlertManager) (a : nat) :
  get (active_alerts am) key ≠ Some a →
  heap (resolve key m am) !! a = heap am !! a.
Proof.
  intros H. unfold resolve. destruct (get (active_alerts am) key) as [a0|];
    [|reflexivity].
  apply list_lookup_alter_ne. congruence.
Qed.

Lemma resolve_history (key : string) (m : HealthMetric.t) (am : AlertManager) (a : nat) :
  a ∈ alert_history (resolve key m am)
  ↔ a ∈ alert_history am ∨ get (active_alerts am) key = Some a.
Proof.
  unfold resolve. destruct (get (active_alerts am) key) as [a0|]; cbn [alert_history].
  - rewrite elem_of_app, list_elem_of_singleton. split; intros [H|H]; auto; right; congruence.
  - split; [auto | intros [H|H]; [exact H | discriminate H]].
Qed.

Lemma resolve_coherent (key : string) (m : HealthMetric.t) (am : AlertManager) :
  coherent am → coherent (resolve key m am).
Proof.
  intros Hco. pose proof Hco as (Hwf & Hact & Hhist).
  split; [|split].
  - unfold resolve. destruct (get (active_alerts am) key); [|exact Hwf].
    now apply wf_remove.
  - intros k a [Hne Hk]%resolve_get_Some.
    destruct (Hact _ _ Hk) as (al & Hal & Hid & Hres).
    exists al. split; [|now split]. rewrite resolve_heap_ne; [exact Hal|].
    intros Hkey. apply Hne. now apply (coherent_address am key k a).
  - intros a [Ha | Ha]%resolve_history.
    + destruct (Hhist _ Ha) as (al & Hal & Hres).
      destruct (decide (get (active_alerts am) key = Some a)) as [E|E].
      * rewrite (resolve_heap_eq _ _ _ _ E), Hal. eexists. split; reflexivity.
      * rewrite (resolve_heap_ne _ _ _ _ E). eauto.
    + destruct (Hact _ _ Ha) as (al & Hal & _).
      rewrite (resolve_heap_eq _ _ _ _ Ha), Hal. eexists. split; reflexivity.
Qed.

Lemma resolve_filed (key : string) (m : HealthMetric.t) (am : AlertManager) (a : nat) :
  coherent am → filed am a → filed (resolve key m am) a.
Proof.
  intros Hco (al & Hal & Hcase).
  destruct (decide (get (active_alerts am) key = Some a)) as [E|E].
  - exists (mark_resolved (HealthMetric.timestamp m) al).
    split; [now rewrite (resolve_heap_eq _ _ _ _ E), Hal|].
    right. split; [reflexivity|]. apply resolve_history. now right.
  - exists al. split; [now rewrite (resolve_heap_ne _ _ _ _ E)|].
    destruct Hcase as [[Hres Hget] | [Hres Hin]].
    + left. split; [exact Hres|]. rewrite resolve_get_ne; [exact Hget|].
      intros Hk. apply E. now rewrite Hk.
    + right. split; [exact Hres|]. apply resolve_history. now left.
Qed.

Section manager.

Variable str : R → string.

Lemma resolve_raised_for (key : string) (m m0 : HealthMetric.t) (am : AlertManager)
      (a : nat) :
  raised_for str am a m0 → raised_for str (resolve key m am) a m0.
Proof.
  intros [Hst Hcase]. split; [exact Hst|].
  destruct (decide (get (active_alerts am) key = Some a)) as [E|E].
  - rewrite (resolve_heap_eq _ _ _ _ E). right.
    exists (HealthMetric.timestamp m).
    destruct Hcase as [-> | [t ->]]; reflexivity.
  - now rewrite (resolve_heap_ne _ _ _ _ E).
Qed.

Lemma resolve_raised (key : string) (m : HealthMetric.t) (n0 : nat)
      (seen : list HealthMetric.t) (am : AlertManager) (new_alerts : list nat) :
  raised str n0 seen am new_alerts → raised str n0 seen (resolve key m am) new_alerts.
Proof.
  intros (Hco & Hnd & Hn0 & Hnew).
  split; [now apply resolve_coherent|]. split; [exact Hnd|].
  rewrite resolve_length. split; [exact Hn0|].
  intros a Ha. destruct (Hnew a Ha) as (Hb & Hf & m0 & Hm0 & Hr).
  split; [exact Hb|]. split; [now apply resolve_filed|].
  exists m0. split; [exact Hm0|]. now apply resolve_raised_for.
Qed.

Lemma raised_seen (n0 : nat) (seen : list HealthMetric.t) (m : HealthMetric.t)
      (am : AlertManager) (new_alerts : list nat) :
  raised str n0 seen am new_alerts → raised str n0 (seen ++ [m]) am new_alerts.
Proof.
  intros (Hco & Hnd & Hn0 & Hnew). repeat (split; [assumption|]).
  intros a Ha. destruct (Hnew a Ha) as (Hb & Hf & m0 & Hm0 & Hr).
  repeat (split; [assumption|]). exists m0. split; [|exact Hr].
  apply elem_of_app. now left.
Qed.

Lemma process_metric_raised (n0 : nat) (seen : list HealthMetric.t)
      (m : HealthMetric.t) (am : AlertManager) (new_alerts : list nat) :
  raised str n0 seen am new_alerts →
  raised str n0 (seen ++ [m]) (process_metric str (am, new_alerts) m).1
         (process_metric str (am, new_alerts) m).2.
Proof.
  intros Hr. cbn [process_metric].
  destruct (str_in (HealthMetric.status m) ["WARNING"; "CRITICAL"]) eqn:Hst.
  - unfold contains. destruct (get (active_alerts am) (alert_id m)) eqn:Hget;
      cbn [fst snd]; [now apply raised_seen|].
    destruct Hr as (Hco & Hnd & Hn0 & Hnew).
    pose proof Hco as (Hwf & Hact & Hhist).
    split; [|split; [|split]].
    + split; [now apply wf_set|]. cbn [heap active_alerts alert_history]. split.
      * intros k a Hk. destruct (String.eqb_spec (alert_id m) k) as [<- | Hne].
        -- rewrite get_set_eq in Hk. injection Hk as <-.
           exists (new_alert str m).
           rewrite lookup_app_r, Nat.sub_diag by lia. now repeat split.
        -- rewrite get_set_ne in Hk by exact Hne.
           destruct (Hact _ _ Hk) as (al & Hal & Hid & Hres).
           exists al. split; [now apply lookup_app_l_Some | now split].
      * intros a Ha. destruct (Hhist _ Ha) as (al & Hal & Hres).
        exists al. split; [now apply lookup_app_l_Some | exact Hres].
    + apply NoDup_app. split; [exact Hnd|]. split; [|apply NoDup_singleton].
      intros a Ha Ha'. apply list_elem_of_singleton in Ha' as ->.
      destruct (Hnew _ Ha) as (Hb & _). lia.
    + cbn [heap]. rewrite length_app. lia.
    + cbn [heap]. intros a [Ha | Ha]%elem_of_app.
      * destruct (Hnew a Ha) as (Hb & (al & Hal & Hcase) & m0 & Hm0 & Hst0 & Hr0).
        rewrite length_app. split; [lia|]. split.
        -- exists al. cbn [heap active_alerts alert_history].
           split; [now apply lookup_app_l_Some|].
           destruct Hcase as [[Hres Hg] | Hcase]; [left | now right].
           split; [exact Hres|]. rewrite get_set_ne; [exact Hg|].
           intros E. congruence.
        -- exists m0. split; [apply elem_of_app; now left|]. split; [exact Hst0|].
           cbn [heap]. rewrite lookup_app_l by lia. exact Hr0.
      * apply list_elem_of_singleton in Ha as ->.
        rewrite length_app. cbn [length]. split; [lia|]. split.
        -- exists (new_alert str m). cbn [heap active_alerts alert_history].
           rewrite lookup_app_r, Nat.sub_diag by lia. split; [reflexivity|].
           left. split; [reflexivity|]. apply get_set_eq.
        -- exists m. split; [apply elem_of_app; right; left|]. split; [exact Hst|].
           left. cbn [heap]. now rewrite lookup_app_r, Nat.sub_diag by lia.
  - cbn [fst snd]. now apply resolve_raised, resolve_raised, raised_seen.
Qed.

Lemma process_metrics_raised (n0 : nat) (metrics seen : list HealthMetric.t)
      (am : AlertManager) (new_alerts : list nat) :
  raised str n0 seen am new_alerts →
  raised str n0 (seen ++ metrics)
         (fold_left (process_metric str) metrics (am, new_alerts)).1
         (fold_left (process_metric str) metrics (am, new_alerts)).2.
Proof.
  revert seen am new_alerts. induction metrics as [|m metrics IH];
    intros seen am new_alerts Hr.
  - now rewrite app_nil_r.
  - cbn [fold_left].
    replace (seen ++ m :: metrics)%list with ((seen ++ [m]) ++ metrics)%list
      by now rewrite <- app_assoc.
    pose proof (process_metric_raised n0 seen m am new_alerts Hr) as Hstep.
    destruct (process_metric str (am, new_alerts) m) as [am' new']. now apply IH.
Qed.

Lemma raised_start (am : AlertManager) :
  coherent am → raised str (length (heap am)) [] am [].
Proof.
  intros Hco. split; [exact Hco|]. split; [apply NoDup_nil_2|].
  split; [lia|]. intros a Ha. now apply elem_of_nil in Ha.
Qed.

(** *** A second call on the same readings *)

Lemma process_metric_known (m : HealthMetric.t) (am : AlertManager)
      (new_alerts : list nat) :
  str_in (HealthMetric.status m) ["WARNING"; "CRITICAL"] = true →
  is_Some (get (active_alerts am) (alert_id m)) →
  process_metric str (am, new_alerts) m = (am, new_alerts).
Proof.
  intros Hst [a Ha]. cbn [process_metric]. rewrite Hst. unfold contains.
  now rewrite Ha.
Qed.

Lemma process_metric_keeps (m : HealthMetric.t) (am : AlertManager)
      (new_alerts : list nat) (k : string) :
  str_in (HealthMetric.status m) ["WARNING"; "CRITICAL"] = true →
  (is_Some (get (active_alerts am) k) ∨ k = alert_id m) →
  is_Some (get (active_alerts (process_metric str (am, new_alerts) m).1) k).
Proof.
  intros Hst Hk. cbn [process_metric]. rewrite Hst. unfold contains.
  destruct (get (active_alerts am) (alert_id m)) as [a|] eqn:Ha; cbn [fst].
  - destruct Hk as [Hk | ->]; [exact Hk | now rewrite Ha].
  - cbn [active_alerts]. destruct (String.eqb_spec (alert_id m) k) as [<- | Hne].
    + rewrite get_set_eq. eauto.
    + rewrite get_set_ne by exact Hne. destruct Hk as [Hk | ->]; [exact Hk | done].
Qed.

Lemma process_metrics_keeps (metrics : list HealthMetric.t) (am : AlertManager)
      (new_alerts : list nat) (k : string) :
  Forall (λ m, str_in (HealthMetric.status m) ["WARNING"; "CRITICAL"] = true) metrics →
  (is_Some (get (active_alerts am) k) ∨ ∃ m, m ∈ metrics ∧ k = alert_id m) →
  is_Some (get (active_alerts
                  (fold_left (process_metric str) metrics (am, new_alerts)).1) k).
Proof.
  intros Hall. revert am new_alerts.
  induction Hall as [|m metrics Hst Hall IH]; intros am new_alerts Hk.
  - destruct Hk as [Hk | (m & Hm & _)]; [exact Hk | now apply elem_of_nil in Hm].
  - cbn [fold_left].
    pose proof (process_metric_keeps m am new_alerts k Hst) as Hstep.
    destruct (process_metric str (am, new_alerts) m) as [am' new'] eqn:E.
    apply IH. cbn [fst] in Hstep.
    destruct Hk as [Hk | (m' & [-> | Hm']%elem_of_cons & ->)].
    + left. apply Hstep. now left.
    + left. apply Hstep. now right.
    + right. now exists m'.
Qed.

Lemma process_metrics_known (metrics : list HealthMetric.t) (am : AlertManager)
      (new_alerts : list nat) :
  Forall (λ m, str_in (HealthMetric.status m) ["WARNING"; "CRITICAL"] = true
               ∧ is_Some (get (active_alerts am) (alert_id m))) metrics →
  fold_left (process_metric str) metrics (am, new_alerts) = (am, new_alerts).
Proof.
  induction 1 as [|m metrics [Hst Hk] _ IH]; [reflexivity|].
  cbn [fold_left]. now rewrite process_metric_known.
Qed.

(** X29.  [process_metrics] keeps the books of the manager in order.
    From a coherent manager (every active alert unresolved and filed
    under its own id, every alert of the history resolved) it leaves a
    coherent one; the alerts it returns are new objects, pairwise
    distinct, each raised for a WARNING or CRITICAL metric of the list
    and carrying its data; and each of them is, when the call returns,
    still active and unresolved or already resolved and in the history
    (the returned list shares the objects that a later metric of the same
    call resolves).  When every metric of the list is WARNING or
    CRITICAL, a second call on the same list raises no alert and changes
    nothing. *)
Theorem process_metrics_alerts (am : AlertManager) (metrics : list HealthMetric.t) :
  coherent am →
  (coherent (process_metrics str am metrics).1
   ∧ NoDup (process_metrics str am metrics).2
   ∧ ∀ a : nat,
       a ∈ (process_metrics str am metrics).2 →
       (length (heap am) <= a)%nat
       ∧ filed (process_metrics str am metrics).1 a
       ∧ ∃ metric, metric ∈ metrics
                   ∧ raised_for str (process_metrics str am metrics).1 a metric)
  ∧ (Forall (λ m, str_in (HealthMetric.status m) ["WARNING"; "CRITICAL"] = true)
            metrics →
     process_metrics str (process_metrics str am metrics).1 metrics
     = ((process_metrics str am metrics).1, [])).
Proof.
  intros Hco. split.
  - destruct (process_metrics_raised (length (heap am)) metrics [] am []
                (raised_start am Hco)) as (Hco' & Hnd & _ & Hnew).
    split; [exact Hco'|]. split; [exact Hnd|].
    intros a Ha. destruct (Hnew a Ha) as (Hb & Hf & Hm). split; [lia | now split].
  - intros Hall. unfold process_metrics at 1. apply process_metrics_known.
    apply Forall_forall. intros m Hm. split.
    + now apply (proj1 (Forall_forall _ _) Hall).
    + apply process_metrics_keeps; [exact Hall|]. right. now exists m.
Qed.

(** X30.  An OK metric whose name does not contain "_OK" resolves the
    WARNING and the CRITICAL alert of its name: afterwards neither is
    active, each one that was active is in the history, marked resolved
    at the metric's timestamp, the other active alerts are untouched and
    no alert is raised. *)
Theorem ok_metric_resolves (am : AlertManager) (new_alerts : list nat)
        (m : HealthMetric.t) :
  coherent am →
  occurs "_OK" (HealthMetric.name m) = false →
  HealthMetric.status m = "OK" →
  (process_metric str (am, new_alerts) m).2 = new_alerts
  ∧ coherent (process_metric str (am, new_alerts) m).1
  ∧ (∀ (k : string) (a : nat),
       k = HealthMetric.name m ++ "_WARNING" ∨ k = HealthMetric.name m ++ "_CRITICAL" →
       get (active_alerts (process_metric str (am, new_alerts) m).1) k = None
       ∧ (get (active_alerts am) k = Some a →
          a ∈ alert_history (process_metric str (am, new_alerts) m).1
          ∧ ∃ alert,
              heap am !! a = Some alert
              ∧ heap (process_metric str (am, new_alerts) m).1 !! a
                = Some (mark_resolved (HealthMetric.timestamp m) alert)))
  ∧ (∀ k : string,
       k ≠ HealthMetric.name m ++ "_WARNING" →
       k ≠ HealthMetric.name m ++ "_CRITICAL" →
       get (active_alerts (process_metric str (am, new_alerts) m).1) k
       = get (active_alerts am) k).
Proof.
  intros Hco Hno Hst. cbn [process_metric]. rewrite Hst.
  change (str_in "OK" ["WARNING"; "CRITICAL"]) with false. cbv iota. cbn [fst snd].
  unfold alert_id. rewrite Hst.
  change ("_" ++ "OK") with "_OK".
  rewrite !replace_OK_suffix by exact Hno.
  set (kw := HealthMetric.name m ++ "_WARNING").
  set (kc := HealthMetric.name m ++ "_CRITICAL").
  assert (kw ≠ kc) as Hne.
  { unfold kw, kc. intros E. apply (f_equal String.length) in E.
    rewrite !length_append in E. simpl in E. lia. }
  split; [reflexivity|]. split; [now apply resolve_coherent, resolve_coherent|].
  split.
  - intros k a Hk. split.
    + destruct Hk as [-> | ->]; [|apply resolve_get_eq].
      rewrite resolve_get_ne by (intros E; now apply Hne). apply resolve_get_eq.
    + intros Ha. pose proof Hco as (_ & Hact & _).
      destruct (Hact _ _ Ha) as (al & Hal & Hid & Hres).
      destruct Hk as [-> | ->].
      * split; [apply resolve_history; left; apply resolve_history; now right|].
        exists al. split; [exact Hal|].
        rewrite resolve_heap_ne, (resolve_heap_eq _ _ _ _ Ha), Hal; [reflexivity|].
        intros [_ Hc]%resolve_get_Some. apply Hne.
        now apply (coherent_address am kw kc a).
      * assert (get (active_alerts (resolve kw m am)) kc = Some a) as Ha'
          by (rewrite resolve_get_ne by exact Hne; exact Ha).
        split; [apply resolve_history; now right|].
        exists al. split; [exact Hal|].
        rewrite (resolve_heap_eq _ _ _ _ Ha'), resolve_heap_ne, Hal; [reflexivity|].
        intros Hw. apply Hne. now apply (coherent_address am kw kc a).
  - intros k Hkw Hkc. now rewrite !resolve_get_ne by congruence.
Qed.

End manager.

Lemma process_metrics_alerts_witness :
  coherent (process_metrics constant_str new_manager [cpu_warning; cpu_ok]).1.
Proof.
  refine (proj1 (proj1 (process_metrics_alerts constant_str new_manager
                          [cpu_warning; cpu_ok] _))).
  split; [apply NoDup_nil_2|]. split; [intros k a [=]|].
  intros a Ha. now apply elem_of_nil in Ha.
Defined.

Lemma ok_metric_resolves_witness :
  (process_metric constant_str (new_manager, []) cpu_ok).2 = [].
Proof.
  refine (proj1 (ok_metric_resolves constant_str new_manager [] cpu_ok _ _ _)).
  - split; [apply NoDup_nil_2|]. split; [intros k a [=]|].
    intros a Ha. now apply elem_of_nil in Ha.
  - reflexivity.
  - reflexivity.
Defined.

(** The list a call returns shares its alerts with the manager: an
    alert raised and resolved within one call is returned resolved. *)
Lemma raised_and_resolved_in_one_call :
  process_metrics constant_str new_manager [cpu_warning; cpu_ok]
  = (mkAlertManager
       [mark_resolved (HealthMetric.timestamp cpu_ok) (new_alert constant_str cpu_warning)]
       [] [0%nat],
     [0%nat]).
Proof. reflexivity. Qed.

End alert_facts.
